(** * Integer range analysis of the AMD backend (RangeAnalysis.cpp)

    A shallow embedding of
    [third_party/amd/lib/Analysis/RangeAnalysis.cpp]: the trip-count
    estimator, the fixed-range inference rules, the derivation of ranges
    from assumptions, the region-successor driver with its per-loop visit
    counters, and the folding rule for statically true comparisons.

    Arbitrary-precision integers ([llvm::APInt]) are a bit width together
    with the unsigned value of the bit pattern; every operation writes out
    its reduction modulo [2^width].  [int64_t] arithmetic is written with
    its two's-complement wrap-around.  The analysis object's [DenseMap]s
    are finite maps. *)

From Stdlib Require Import ZArith List Bool Lia String.
From stdpp Require Import base option gmap.

Local Open Scope Z_scope.
Local Set Warnings "-register-all".

(** ** Machine integers *)

Definition pow2 (w : N) : Z := 2 ^ Z.of_N w.

(** [std::numeric_limits<int64_t>] and wrap-around of [int64_t]. *)
Definition int64_min : Z := - 2 ^ 63.
Definition int64_max : Z := 2 ^ 63 - 1.
Definition in_int64 (z : Z) : Prop := int64_min <= z <= int64_max.
Definition wrap64 (z : Z) : Z := (z + 2 ^ 63) mod 2 ^ 64 - 2 ^ 63.

Module APInt.

(** Modelled from the spec: [llvm::APInt] is LLVM library code, not under
    src/; the operations below are the ones the source calls, with the
    meaning of fixed-width two's-complement integers (section 4.1: all
    arithmetic on bounds respects the declared bit width and signedness).
    An [APInt] is its [BitWidth] and its bit pattern read as an unsigned
    number (below [2^BitWidth]). *)
Record t : Type := mk { getBitWidth : N; getZExtValue : Z }.

Definition eq_dec (a b : t) : {a = b} + {a <> b}.
Proof. decide equality; [apply Z.eq_dec | apply N.eq_dec]. Defined.

Definition eqb (a b : t) : bool := if eq_dec a b then true else false.

(** The low [numBits] bits of [val] ([clearUnusedBits]). *)
Definition trunc (numBits : N) (val : Z) : t :=
  mk numBits (val mod pow2 numBits).

(** [APInt(numBits, val, isSigned)] for a 64-bit word [val]: the word is
    sign-extended ([isSigned]) or zero-extended to [numBits] bits and cut
    to that width. *)
Definition make (numBits : N) (val : Z) (isSigned : bool) : t :=
  trunc numBits (if isSigned then wrap64 val else val mod 2 ^ 64).

Definition getZero (w : N) : t := mk w 0.
Definition getMinValue (w : N) : t := mk w 0.
Definition getMaxValue (w : N) : t := mk w (pow2 w - 1).
Definition getSignedMaxValue (w : N) : t := mk w (pow2 (w - 1) - 1).
Definition getSignedMinValue (w : N) : t := mk w (pow2 (w - 1)).

(** Sign bit set. *)
Definition isNegative (a : t) : bool :=
  negb (getBitWidth a =? 0)%N && (pow2 (getBitWidth a - 1) <=? getZExtValue a).
Definition isNonNegative (a : t) : bool := negb (isNegative a).
Definition isZero (a : t) : bool := getZExtValue a =? 0.

(** [getSExtValue]: the pattern read in two's complement. *)
Definition getSExtValue (a : t) : Z :=
  if isNegative a then getZExtValue a - pow2 (getBitWidth a)
  else getZExtValue a.

(** [sext(width)]: sign extension; at the same width it returns the
    value itself. *)
Definition sext (a : t) (width : N) : t :=
  if (width =? getBitWidth a)%N then a else trunc width (getSExtValue a).

(** [operator+(APInt, uint64_t)] and [operator-(APInt, uint64_t)]. *)
Definition add (a : t) (rhs : Z) : t := trunc (getBitWidth a) (getZExtValue a + rhs).
Definition sub (a : t) (rhs : Z) : t := trunc (getBitWidth a) (getZExtValue a - rhs).

Definition ult (a b : t) : bool := getZExtValue a <? getZExtValue b.
Definition ule (a b : t) : bool := getZExtValue a <=? getZExtValue b.
Definition ugt (a b : t) : bool := ult b a.
Definition uge (a b : t) : bool := ule b a.
Definition slt (a b : t) : bool := getSExtValue a <? getSExtValue b.
Definition sle (a b : t) : bool := getSExtValue a <=? getSExtValue b.
Definition sgt (a b : t) : bool := slt b a.
Definition sge (a b : t) : bool := sle b a.

End APInt.

(** ** The interval lattice values *)

Module ConstantIntRanges.

(** Modelled from the spec: [mlir::ConstantIntRanges] is MLIR library
    code, not under src/.  A range keeps unsigned and signed bounds side by
    side (section 3). *)
Record t : Type := mk { umin : APInt.t; umax : APInt.t; smin : APInt.t; smax : APInt.t }.

Definition eq_dec (a b : t) : {a = b} + {a <> b}.
Proof. decide equality; apply APInt.eq_dec. Defined.

(** Modelled from the spec: [fromUnsigned] belongs to MLIR's
    [InferIntRangeInterface], which is not under src/.  The signed bounds
    are the unsigned ones when both have the same sign bit, and the
    signed extremes of the width otherwise. *)
Definition fromUnsigned (umin umax : APInt.t) : t :=
  let width := APInt.getBitWidth umin in
  if Bool.eqb (APInt.isNonNegative umin) (APInt.isNonNegative umax) then
    mk umin umax
       (if APInt.slt umin umax then umin else umax)
       (if APInt.sgt umin umax then umin else umax)
  else
    mk umin umax (APInt.getSignedMinValue width) (APInt.getSignedMaxValue width).

(** Modelled from the spec: [fromSigned] belongs to MLIR's
    [InferIntRangeInterface], which is not under src/.  The unsigned
    bounds are the signed ones when both have the same sign bit, and the
    unsigned extremes of the width otherwise. *)
Definition fromSigned (smin smax : APInt.t) : t :=
  let width := APInt.getBitWidth smin in
  if Bool.eqb (APInt.isNonNegative smin) (APInt.isNonNegative smax) then
    mk (if APInt.ult smin smax then smin else smax)
       (if APInt.ugt smin smax then smin else smax)
       smin smax
  else
    mk (APInt.getMinValue width) (APInt.getMaxValue width) smin smax.

Definition range (min max : APInt.t) (isSigned : bool) : t :=
  if isSigned then fromSigned min max else fromUnsigned min max.

(** [constant(v)]: the degenerate interval [[v, v]]. *)
Definition constant (v : APInt.t) : t := mk v v v v.

(** Modelled from the spec: [maxRange] belongs to MLIR, not under src/.
    The full representable interval of the width (section 3, the top
    element). *)
Definition maxRange (bitwidth : N) : t :=
  fromUnsigned (APInt.getZero bitwidth) (APInt.getMaxValue bitwidth).

(** Modelled from the spec: [rangeUnion] belongs to MLIR, not under
    src/.  It widens to cover both operands; a width-zero operand is
    returned as it is. *)
Definition rangeUnion (a b : t) : t :=
  if (APInt.getBitWidth (umin a) =? 0)%N then a
  else if (APInt.getBitWidth (umin b) =? 0)%N then b
  else mk (if APInt.ult (umin a) (umin b) then umin a else umin b)
          (if APInt.ugt (umax a) (umax b) then umax a else umax b)
          (if APInt.slt (smin a) (smin b) then smin a else smin b)
          (if APInt.sgt (smax a) (smax b) then smax a else smax b).

(** Modelled from the spec: [intersection] belongs to MLIR, not under
    src/.  It narrows to the overlap, bound by bound, and may produce an
    interval whose lower bound is above its upper bound; a width-zero
    operand is returned as it is. *)
Definition intersection (a b : t) : t :=
  if (APInt.getBitWidth (umin a) =? 0)%N then a
  else if (APInt.getBitWidth (umin b) =? 0)%N then b
  else mk (if APInt.ugt (umin a) (umin b) then umin a else umin b)
          (if APInt.ult (umax a) (umax b) then umax a else umax b)
          (if APInt.sgt (smin a) (smin b) then smin a else smin b)
          (if APInt.slt (smax a) (smax b) then smax a else smax b).

End ConstantIntRanges.

(** [mlir::IntegerValueRange]: [None] is the uninitialized bottom. *)
Definition IntegerValueRange : Type := option ConstantIntRanges.t.

(** ** The program representation *)

(** The part of [mlir::Type] the analysis looks at. *)
Inductive MType : Type :=
| IntegerType (width : N)
| IndexType
| RankedTensorType (elementType : MType)
| FloatType.

Fixpoint getElementTypeOrSelf (ty : MType) : MType :=
  match ty with
  | RankedTensorType e => getElementTypeOrSelf e
  | _ => ty
  end.

(** Modelled from the spec: [ConstantIntRanges::getStorageBitwidth] is
    MLIR library code, not under src/.  64 for [index], the width of an
    integer type (of the element type for a tensor), 0 for everything
    else. *)
Definition getStorageBitwidth (ty : MType) : N :=
  match getElementTypeOrSelf ty with
  | IndexType => 64%N
  | IntegerType w => w
  | _ => 0%N
  end.

(** An SSA value: its identity (values are compared by identity), its
    type, what [getConstantIntValue(getAsOpFoldResult(v))] returns (the
    sign-extended constant when the value is an integer constant), and its
    result or block-argument number. *)
Record Value : Type := mkValue {
  valueId : N;
  getType : MType;
  getConstantIntValue : option Z;
  getNumber : nat
}.

Definition Value_eqb (a b : Value) : bool := (valueId a =? valueId b)%N.

(** [arith::CmpIPredicate]. *)
Module CmpIPredicate.
Inductive t : Type :=
| eq | ne | slt | sle | sgt | sge | ult | ule | ugt | uge.
End CmpIPredicate.

Inductive Attribute : Type :=
| IntegerAttr (value : APInt.t)
| OtherAttr.

Inductive OpFoldResult : Type :=
| OfAttribute (attr : Attribute)
| OfValue (value : Value).

(** What a [LoopLikeOpInterface] handle answers. *)
Record LoopLikeOpInterface : Type := mkLoop {
  getSingleLowerBound : option OpFoldResult;
  getSingleUpperBound : option OpFoldResult;
  getSingleStep : option OpFoldResult;
  getSingleInductionVar : option Value
}.

(** The casts an operation admits, with the accessors of each view. *)
Inductive OpView : Type :=
| CmpIOp (predicate : CmpIPredicate.t) (lhs rhs : Value)
| LoopLikeOp (loop : LoopLikeOpInterface) (operands : list Value)
| OtherOp (operands : list Value).

(** An operation: its identity (also its location in remarks), its view,
    and its parent operation ([None] at the top). *)
Inductive Operation : Type :=
| MkOperation (opId : N) (view : OpView) (parentOp : option Operation).

Definition opId (op : Operation) : N :=
  match op with MkOperation i _ _ => i end.
Definition opView (op : Operation) : OpView :=
  match op with MkOperation _ v _ => v end.
Definition getParentOp (op : Operation) : option Operation :=
  match op with MkOperation _ _ p => p end.

Definition getOperands (op : Operation) : list Value :=
  match opView op with
  | CmpIOp _ l r => [l; r]
  | LoopLikeOp _ operands => operands
  | OtherOp operands => operands
  end.

(** [dyn_cast<LoopLikeOpInterface>]. *)
Definition dynCastLoopLike (op : Operation) : option LoopLikeOpInterface :=
  match opView op with
  | LoopLikeOp loop _ => Some loop
  | _ => None
  end.

(** The solver's lattice cells, one per value identity: a missing entry is
    a cell that does not exist, [Some None] an uninitialized cell. *)
Definition lookupCell (cells : gmap N IntegerValueRange) (v : Value)
  : IntegerValueRange :=
  default None (cells !! valueId v).

(** ** Fixed-range inference rules *)

(** [inferResultRangesMaxNonNegSigned]: one range per result of the
    operation, handed to [setResultRange] in order. *)
Definition inferResultRangesMaxNonNegSigned (results : list MType)
  : list ConstantIntRanges.t :=
  map (fun resultType =>
         let bitWidth := getStorageBitwidth resultType in
         ConstantIntRanges.fromSigned
           (APInt.sext (APInt.getZero bitWidth) bitWidth)
           (APInt.sext (APInt.getMaxValue bitWidth) bitWidth))
      results.

(** ** Loop trip counts *)

Definition kDefaultMaxTripCount : Z := 1024.
Definition kDefaultMaxPrograms : Z := Z.shiftl 2 15.

(** Modelled from the spec: [llvm::divideCeilSigned] is LLVM library code,
    not under src/.  The rounded-up quotient of section 4.5 on [int64_t],
    computed with C++'s truncating division: zero for a zero numerator, the
    truncated quotient when the signs differ, and otherwise the quotient of
    the numerator moved one towards zero, plus one. *)
Definition divideCeilSigned (Numerator Denominator : Z) : Z :=
  if Numerator =? 0 then 0
  else
    let Bias := if 0 <=? Denominator then 1 else -1 in
    let SameSign := Bool.eqb (0 <=? Numerator) (0 <=? Denominator) in
    if SameSign
    then wrap64 (wrap64 (Z.quot (wrap64 (Numerator - Bias)) Denominator) + 1)
    else wrap64 (Z.quot Numerator Denominator).

(** The lambda [getLoopRangeInfo] of [maybeGetTripCount].  [getUpper] is a
    [std::optional<bool>], and both conditionals [getUpper ? ... : ...] use
    it as a condition, which converts it with its [operator bool]: the test
    is whether it holds a value.  So the calls for the lower bound
    ([getUpper = false]) and for the upper bound ([getUpper = true]) both
    take the first alternative, and the call for the step ([getUpper = {}])
    the second. *)
Definition getLoopRangeInfo (cells : gmap N IntegerValueRange) (width : N)
    (loopBound : option OpFoldResult) (getUpper : option bool)
    (defaultVal : option APInt.t) : APInt.t :=
  let fallback :=
    match defaultVal with
    | Some d => d
    | None => if bool_decide (is_Some getUpper)
              then APInt.getSignedMaxValue width
              else APInt.getSignedMinValue width
    end in
  match loopBound with
  | Some (OfAttribute (IntegerAttr bound)) => bound
  | Some (OfAttribute OtherAttr) => fallback
  | Some (OfValue value) =>
      match cells !! valueId value with
      | Some (Some r) =>
          if bool_decide (is_Some getUpper)
          then ConstantIntRanges.smax r
          else ConstantIntRanges.smin r
      | _ => fallback
      end
  | None => fallback
  end.

(** The bounds and step after resolution, the swap for a negative step and
    the replacement of a zero step: [(min, max, stepVal)] as they stand
    before the final comparison. *)
Definition resolvedBounds (cells : gmap N IntegerValueRange)
    (loop : LoopLikeOpInterface) (iv : Value) : APInt.t * APInt.t * APInt.t :=
  let width := getStorageBitwidth (getType iv) in
  let min := getLoopRangeInfo cells width (getSingleLowerBound loop) (Some false) None in
  let max := getLoopRangeInfo cells width (getSingleUpperBound loop) (Some true) None in
  let stepValDefault := APInt.make width 1 true in
  let stepVal := getLoopRangeInfo cells width (getSingleStep loop) None (Some stepValDefault) in
  let '(min, max) := if APInt.isNegative stepVal then (max, min) else (min, max) in
  let stepVal := if APInt.isZero stepVal then stepValDefault else stepVal in
  (min, max, stepVal).

Definition maybeGetTripCount (cells : gmap N IntegerValueRange)
    (loop : LoopLikeOpInterface) : option Z :=
  match getSingleInductionVar loop with
  | None => None
  | Some iv =>
      let '(min, max, stepVal) := resolvedBounds cells loop iv in
      if APInt.sge max min
      then Some (divideCeilSigned
                   (wrap64 (APInt.getSExtValue max - APInt.getSExtValue min))
                   (APInt.getSExtValue stepVal))
      else None
  end.

(** [getEnclosingLoops]: walk the parents outwards and push every
    loop-like one. *)
Fixpoint getEnclosingLoops (op : Operation) (ops : list LoopLikeOpInterface)
  : list LoopLikeOpInterface :=
  match op with
  | MkOperation _ _ None => ops
  | MkOperation _ _ (Some currOp) =>
      getEnclosingLoops currOp
        (match dynCastLoopLike currOp with
         | Some l => ops ++ [l]
         | None => ops
         end)
  end.

(** [getTotalLoopTripCount]; [loopOp] is the operation behind the handle
    [loop]. *)
Definition getTotalLoopTripCount (cells : gmap N IntegerValueRange)
    (loop : LoopLikeOpInterface) (loopOp : Operation) : Z :=
  let loops := getEnclosingLoops loopOp [loop] in
  fold_left (fun accum loop =>
               wrap64 (accum * default (kDefaultMaxTripCount + 1)
                                       (maybeGetTripCount cells loop)))
            loops 1.

(** ** Ranges derived from assumptions *)

(** A remark emitted by [emitRemark]: location and message.  Remarks are
    collected next to the result; nothing else happens when one is
    emitted. *)
Inductive Remark : Type :=
| remark (loc : N) (msg : string).

(** The free function [maybeGetAssumedRange(assumption, anchor)]. *)
Definition maybeGetAssumedRange (assumption : Operation) (anchor : Value)
  : list Remark * option ConstantIntRanges.t :=
  match opView assumption with
  | CmpIOp predicate lhs rhs =>
      let isSigned :=
        match predicate with
        | CmpIPredicate.uge | CmpIPredicate.ugt | CmpIPredicate.ule | CmpIPredicate.ult => false
        | _ => true
        end in
      let anchorIsLhs := Value_eqb lhs anchor in
      match getConstantIntValue (if anchorIsLhs then rhs else lhs) with
      | Some constValue =>
          let bitWidth := getStorageBitwidth (getType anchor) in
          let apVal := APInt.make bitWidth constValue isSigned in
          let min := if isSigned then APInt.getSignedMinValue bitWidth
                     else APInt.getMinValue bitWidth in
          let max := if isSigned then APInt.getSignedMaxValue bitWidth
                     else APInt.getMaxValue bitWidth in
          match predicate with
          | CmpIPredicate.eq => ([], Some (ConstantIntRanges.constant apVal))
          | CmpIPredicate.uge | CmpIPredicate.sge =>
              if anchorIsLhs
              then ([], Some (ConstantIntRanges.range apVal max isSigned))
              else ([], Some (ConstantIntRanges.range min apVal isSigned))
          | CmpIPredicate.ugt | CmpIPredicate.sgt =>
              if anchorIsLhs
              then ([], Some (ConstantIntRanges.range (APInt.add apVal 1) max isSigned))
              else ([], Some (ConstantIntRanges.range min (APInt.sub apVal 1) isSigned))
          | CmpIPredicate.ule | CmpIPredicate.sle =>
              if anchorIsLhs
              then ([], Some (ConstantIntRanges.range min apVal isSigned))
              else ([], Some (ConstantIntRanges.range apVal max isSigned))
          | CmpIPredicate.ult | CmpIPredicate.slt =>
              if anchorIsLhs
              then ([], Some (ConstantIntRanges.range min (APInt.sub apVal 1) isSigned))
              else ([], Some (ConstantIntRanges.range (APInt.add apVal 1) max isSigned))
          | CmpIPredicate.ne =>
              ([remark (opId assumption) "unsupported cmp predicate for assumption"],
               None)
          end
      | None => ([], None)
      end
  | _ => ([remark (opId assumption) "unsupported assumption operation"], None)
  end.

(** [isEmptyInitializedRange]. *)
Definition isEmptyInitializedRange (rv : ConstantIntRanges.t) : bool :=
  (APInt.getBitWidth (ConstantIntRanges.umin rv) =? 0)%N
  || (APInt.getBitWidth (ConstantIntRanges.umax rv) =? 0)%N
  || (APInt.getBitWidth (ConstantIntRanges.smin rv) =? 0)%N
  || (APInt.getBitWidth (ConstantIntRanges.smax rv) =? 0)%N.

(** Modelled from the spec: [IntegerValueRange::getMaxRange(value)] is MLIR
    library code, not under src/.  The max-range of the value's width, and
    uninitialized for a value that is not an integer. *)
Definition getMaxRange (value : Value) : IntegerValueRange :=
  let width := getStorageBitwidth (getType value) in
  if (width =? 0)%N then None
  else Some (ConstantIntRanges.mk (APInt.getMinValue width) (APInt.getMaxValue width)
               (APInt.getSignedMinValue width) (APInt.getSignedMaxValue width)).

(** Modelled from the spec: [IntegerValueRange::join] is MLIR library code,
    not under src/.  The union of two ranges, the uninitialized range
    being neutral (sections 3 and 6). *)
Definition joinRange (lhs rhs : IntegerValueRange) : IntegerValueRange :=
  match lhs, rhs with
  | None, _ => rhs
  | _, None => lhs
  | Some l, Some r => Some (ConstantIntRanges.rangeUnion l r)
  end.

Definition IntegerValueRange_eq_dec (a b : IntegerValueRange) : {a = b} + {a <> b}.
Proof. decide equality; apply ConstantIntRanges.eq_dec. Defined.

(** [ChangeResult]. *)
Inductive ChangeResult : Type := NoChange | Change.

Definition isChange (c : ChangeResult) : bool :=
  match c with Change => true | NoChange => false end.

(** Modelled from the spec: [Lattice::join] is MLIR library code, not under
    src/ ([join(cell, newRange) -> changed?] of section 6), here on the
    cell of [anchor]: the new content of the cells and whether the cell
    changed. *)
Definition join (cells : gmap N IntegerValueRange) (anchor : Value)
    (rhs : IntegerValueRange) : ChangeResult * gmap N IntegerValueRange :=
  let value := lookupCell cells anchor in
  let newValue := joinRange value rhs in
  if IntegerValueRange_eq_dec newValue value then (NoChange, cells)
  else (Change, <[valueId anchor := newValue]> cells).

(** ** The analysis object *)

Module TritonIntegerRangeAnalysis.

(** The members of the analysis: the assumptions indexed by value, the
    trip-count bound per loop, the visit counter per loop and cell, and
    the solver's cells. *)
Record t : Type := mk {
  assumptions : gmap N (list Operation);
  loopTripCounts : gmap N Z;
  loopVisits : gmap (N * N) Z;
  cells : gmap N IntegerValueRange
}.

Definition withCells (a : t) (c : gmap N IntegerValueRange) : t :=
  mk (assumptions a) (loopTripCounts a) (loopVisits a) c.

(** [assumptions.lookup(anchor)]: empty when nothing is registered. *)
Definition lookupAssumptions (asm : gmap N (list Operation)) (anchor : Value)
  : list Operation :=
  default [] (asm !! valueId anchor).

(** The member [maybeGetAssumedRange(anchor)], with the remarks of the
    assumptions it went through.  In its body [maybeGetAssumedRange] is
    the free function above ([::maybeGetAssumedRange] in the source). *)
Definition maybeGetAssumedRange (asm : gmap N (list Operation)) (anchor : Value)
  : list Remark * option ConstantIntRanges.t :=
  let matchingAssumptions := lookupAssumptions asm anchor in
  match matchingAssumptions with
  | [] => ([], None)
  | _ =>
      let bitWidth := getStorageBitwidth (getType anchor) in
      let '(remarks, constIntRange) :=
        fold_left
          (fun '(remarks, constIntRange) assumption =>
             let '(rs, constIntRange_) :=
               maybeGetAssumedRange assumption anchor in
             (remarks ++ rs,
              match constIntRange_ with
              | Some r => ConstantIntRanges.intersection constIntRange r
              | None => constIntRange
              end))
          matchingAssumptions
          ([], ConstantIntRanges.maxRange bitWidth) in
      (remarks, Some constIntRange)
  end.

(** [DenseMap::operator[]] read: a missing counter is zero. *)
Definition visitsOf (a : t) (loop : N) (argLat : Value) : Z :=
  default 0 (loopVisits a !! (loop, valueId argLat)).

Definition tripCountOf (a : t) (loop : N) : Z :=
  default 0 (loopTripCounts a !! loop).

(** [setToEntryState]: cells of other than integer or index type are
    left alone. *)
Definition setToEntryState (a : t) (anchor : Value) : t :=
  match getElementTypeOrSelf (getType anchor) with
  | IndexType | IntegerType _ =>
      let range :=
        match snd (maybeGetAssumedRange (assumptions a) anchor) with
        | Some r => Some r
        | None => getMaxRange anchor
        end in
      withCells a (snd (join (cells a) anchor range))
  | _ => a
  end.

Definition setAllToEntryStates (a : t) (lattices : list Value) : t :=
  fold_left setToEntryState lattices a.

End TritonIntegerRangeAnalysis.

(** ** The region-successor driver *)

(** One predecessor of the program point: the operands it forwards to the
    successor ([None] when the predecessor is neither the branch itself nor
    a region terminator) and the successor inputs recorded for it. *)
Record Predecessor : Type := mkPredecessor {
  successorOperands : option (list Value);
  successorInputs : list Value
}.

Section Driver.

Import TritonIntegerRangeAnalysis.

(** [visitNonControlFlowArguments] is inherited from MLIR's integer range
    analysis and is not under src/: it is given the branch, whether the
    point is a block start, [firstIndex], the number of inputs and the
    cells' anchors, and updates cells only. *)
Variable visitNonControlFlowArguments :
  Operation -> bool -> nat -> nat -> list Value ->
  gmap N IntegerValueRange -> gmap N IntegerValueRange.

(** The first visit of a loop: the bound starts at the largest [int64_t]
    and the counters of the cells at hand at zero. *)
Definition initializeLoop (a : t) (loop : N) (lattices : list Value) : t :=
  mk (assumptions a)
     (<[loop := int64_max]> (loopTripCounts a))
     (fold_left (fun visits argLat => <[(loop, valueId argLat) := 0]> visits)
                lattices (loopVisits a))
     (cells a).

(** The block "Initialize loop trip counts" for a loop-like branch. *)
Definition updateLoopTripCount (a : t) (branchOp : Operation)
    (loop : LoopLikeOpInterface) (lattices : list Value) : t :=
  let a :=
    if bool_decide (is_Some (loopTripCounts a !! opId branchOp)) then a
    else initializeLoop a (opId branchOp) lattices in
  let loopTripCount := getTotalLoopTripCount (cells a) loop branchOp in
  if loopTripCount <? tripCountOf a (opId branchOp)
  then mk (assumptions a)
          (<[opId branchOp := loopTripCount]> (loopTripCounts a))
          (loopVisits a) (cells a)
  else a.

(** The body of the loop over the zipped operands and cells. *)
Definition visitPair (loop : option N) (a : t) (oper argLat : Value) : t :=
  match loop with
  | Some l =>
      if visitsOf a l argLat >=? tripCountOf a l then a
      else
        let '(changed, cells') :=
          if tripCountOf a l >? kDefaultMaxTripCount
          then join (cells a) argLat (getMaxRange oper)
          else join (cells a) argLat (lookupCell (cells a) oper) in
        if isChange changed
        then mk (assumptions a) (loopTripCounts a)
                (<[(l, valueId argLat) := visitsOf a l argLat + 1]> (loopVisits a))
                cells'
        else withCells a cells'
  | None =>
      withCells a (snd (join (cells a) argLat (lookupCell (cells a) oper)))
  end.

Definition visitPairs (loop : option N) (a : t) (pairs : list (Value * Value)) : t :=
  fold_left (fun a '(oper, argLat) => visitPair loop a oper argLat) pairs a.

(** The loop over the known predecessors; a predecessor without operands
    ends the whole visit with [setAllToEntryStates]. *)
Fixpoint visitPredecessors (isBlockStart : bool) (branchOp : Operation)
    (loop : option N) (lattices : list Value)
    (predecessors : list Predecessor) (a : t) : t :=
  match predecessors with
  | [] => a
  | op :: rest =>
      match successorOperands op with
      | None => setAllToEntryStates a lattices
      | Some operands =>
          let inputs := successorInputs op in
          let '(firstIndex, a) :=
            if bool_decide (length inputs = length lattices) then (0%nat, a)
            else
              let firstIndex :=
                match inputs with
                | front :: _ => getNumber front
                | [] => 0%nat
                end in
              (firstIndex,
               withCells a (visitNonControlFlowArguments branchOp isBlockStart
                              firstIndex (length inputs) lattices (cells a))) in
          let a := visitPairs loop a (zip operands (drop firstIndex lattices)) in
          visitPredecessors isBlockStart branchOp loop lattices rest a
      end
  end.

Definition visitRegionSuccessors (a : t) (isBlockStart : bool)
    (branchOp : Operation) (lattices : list Value)
    (predecessors : list Predecessor) : t :=
  match dynCastLoopLike branchOp with
  | Some loop =>
      let a := updateLoopTripCount a branchOp loop lattices in
      visitPredecessors isBlockStart branchOp (Some (opId branchOp))
        lattices predecessors a
  | None =>
      visitPredecessors isBlockStart branchOp None lattices predecessors a
  end.

End Driver.

(** ** Collecting the assumptions *)

(** An [llvm.intr.assume]: what [getCond().getDefiningOp()] returns, which
    is null for a condition that is a block argument. *)
Record AssumeOp : Type := mkAssume {
  getCondDefiningOp : option Operation
}.

(** The result of a function that may dereference a null pointer. *)
Inductive Outcome (A : Type) : Type :=
| Returned (a : A)
| NullDereference.
Arguments Returned {A} a.
Arguments NullDereference {A}.

(** [SetVector::insert]: an operation is kept once, in insertion order. *)
Definition setVectorInsert (s : list Operation) (op : Operation) : list Operation :=
  if existsb (fun o => (opId o =? opId op)%N) s then s else s ++ [op].

(** The body of the walk for one assume whose condition has a defining
    operation. *)
Definition registerAssumption (filterConstants : bool) (assump : Operation)
    (assumptions : gmap N (list Operation)) : gmap N (list Operation) :=
  fold_left
    (fun assumptions operand =>
       if filterConstants && bool_decide (is_Some (getConstantIntValue operand))
       then assumptions
       else <[valueId operand :=
                setVectorInsert (default [] (assumptions !! valueId operand)) assump]>
              assumptions)
    (getOperands assump) assumptions.

(** [collectAssumptions] over the assumes of the root operation in walk
    order. *)
Fixpoint walkAssumes (assumes : list AssumeOp) (filterConstants : bool)
    (assumptions : gmap N (list Operation)) : Outcome (gmap N (list Operation)) :=
  match assumes with
  | [] => Returned assumptions
  | op :: rest =>
      match getCondDefiningOp op with
      | None => NullDereference
      | Some assump =>
          walkAssumes rest filterConstants
            (registerAssumption filterConstants assump assumptions)
      end
  end.

Definition collectAssumptions (assumes : list AssumeOp) (filterConstants : bool)
  : Outcome (gmap N (list Operation)) :=
  walkAssumes assumes filterConstants ∅.

(** ** Folding comparisons that are statically true *)

Module intrange.

(** Modelled from the spec: [getConstantValue] belongs to MLIR, not
    under src/.  The single value of a degenerate interval of non-zero
    width. *)
Definition getConstantValue (r : ConstantIntRanges.t) : option APInt.t :=
  if APInt.eqb (ConstantIntRanges.umin r) (ConstantIntRanges.umax r)
     && negb (APInt.getBitWidth (ConstantIntRanges.umin r) =? 0)%N
  then Some (ConstantIntRanges.umin r)
  else if APInt.eqb (ConstantIntRanges.smin r) (ConstantIntRanges.smax r)
          && negb (APInt.getBitWidth (ConstantIntRanges.smin r) =? 0)%N
  then Some (ConstantIntRanges.smin r)
  else None.

Definition isStaticallyTrueOrdered (pred : CmpIPredicate.t)
    (lhs rhs : ConstantIntRanges.t) : bool :=
  match pred with
  | CmpIPredicate.sle => APInt.sle (ConstantIntRanges.smax lhs) (ConstantIntRanges.smin rhs)
  | CmpIPredicate.slt => APInt.slt (ConstantIntRanges.smax lhs) (ConstantIntRanges.smin rhs)
  | CmpIPredicate.ule => APInt.ule (ConstantIntRanges.umax lhs) (ConstantIntRanges.umin rhs)
  | CmpIPredicate.ult => APInt.ult (ConstantIntRanges.umax lhs) (ConstantIntRanges.umin rhs)
  | CmpIPredicate.sge => APInt.sge (ConstantIntRanges.smin lhs) (ConstantIntRanges.smax rhs)
  | CmpIPredicate.sgt => APInt.sgt (ConstantIntRanges.smin lhs) (ConstantIntRanges.smax rhs)
  | CmpIPredicate.uge => APInt.uge (ConstantIntRanges.umin lhs) (ConstantIntRanges.umax rhs)
  | CmpIPredicate.ugt => APInt.ugt (ConstantIntRanges.umin lhs) (ConstantIntRanges.umax rhs)
  | _ => false
  end.

(** Modelled from the spec: [isStaticallyTrue] belongs to MLIR's
    [InferIntRangeCommon], not under src/.  The predicate holds for every
    pair of values of the two ranges. *)
Definition isStaticallyTrue (pred : CmpIPredicate.t)
    (lhs rhs : ConstantIntRanges.t) : bool :=
  match pred with
  | CmpIPredicate.eq =>
      match getConstantValue lhs, getConstantValue rhs with
      | Some l, Some r => APInt.eqb l r
      | _, _ => false
      end
  | CmpIPredicate.ne =>
      (isStaticallyTrueOrdered CmpIPredicate.slt lhs rhs || isStaticallyTrueOrdered CmpIPredicate.sgt lhs rhs)
      || (isStaticallyTrueOrdered CmpIPredicate.ult lhs rhs || isStaticallyTrueOrdered CmpIPredicate.ugt lhs rhs)
  | _ => isStaticallyTrueOrdered pred lhs rhs
  end.

Definition invertPredicate (pred : CmpIPredicate.t) : CmpIPredicate.t :=
  match pred with
  | CmpIPredicate.eq => CmpIPredicate.ne | CmpIPredicate.ne => CmpIPredicate.eq
  | CmpIPredicate.slt => CmpIPredicate.sge | CmpIPredicate.sle => CmpIPredicate.sgt | CmpIPredicate.sgt => CmpIPredicate.sle | CmpIPredicate.sge => CmpIPredicate.slt
  | CmpIPredicate.ult => CmpIPredicate.uge | CmpIPredicate.ule => CmpIPredicate.ugt | CmpIPredicate.ugt => CmpIPredicate.ule | CmpIPredicate.uge => CmpIPredicate.ult
  end.

(** Modelled from the spec: [evaluatePred] belongs to MLIR's
    [InferIntRangeCommon], not under src/.  [Some true] or [Some false]
    when the predicate is decided by the ranges, [None] (unknown)
    otherwise. *)
Definition evaluatePred (pred : CmpIPredicate.t)
    (lhs rhs : ConstantIntRanges.t) : option bool :=
  if isStaticallyTrue pred lhs rhs then Some true
  else if isStaticallyTrue (invertPredicate pred) lhs rhs then Some false
  else None.

End intrange.

(** [collectRanges]: the range of a value is dropped when its cell is
    missing, uninitialized, or holds the width-zero sentinel. *)
Definition collectRanges (solver : gmap N IntegerValueRange) (values : list Value)
  : option (list (option ConstantIntRanges.t)) :=
  Some (map (fun val =>
               match solver !! valueId val with
               | Some (Some inferredRange) =>
                   if isEmptyInitializedRange inferredRange then None
                   else Some inferredRange
               | _ => None
               end)
            values).

(** An [arith::CmpIOp] handle. *)
Record arith_CmpIOp : Type := mkCmpI {
  getPredicate : CmpIPredicate.t;
  getLhs : Value;
  getRhs : Value;
  getResult : Value
}.

Definition cmpIIsStaticallyTrue (solver : gmap N IntegerValueRange)
    (cmpOp : arith_CmpIOp) : bool :=
  match collectRanges solver [getLhs cmpOp; getRhs cmpOp] with
  | Some inputRanges =>
      match inputRanges !! 0%nat, inputRanges !! 1%nat with
      | Some (Some r0), Some (Some r1) =>
          default false (intrange.evaluatePred (getPredicate cmpOp) r0 r1)
      | _, _ => false
      end
  | None => false
  end.

Inductive LogicalResult : Type := success | failure.

Section FoldTrueCmpIOp.

(** The program under rewriting and MLIR's [maybeReplaceWithConstant],
    neither under src/: [Some ir'] is a successful replacement of the
    value by a constant, leaving the program [ir']; [None] is a refusal,
    which changes nothing. *)
Variable IR : Type.
Variable maybeReplaceWithConstant :
  gmap N IntegerValueRange -> IR -> Value -> option IR.

Definition isIntegerOrIndex (ty : MType) : bool :=
  match ty with
  | IntegerType _ | IndexType => true
  | _ => false
  end.

(** [FoldTrueCmpIOp::matchAndRewrite]: the result of the pattern and the
    program it leaves. *)
Definition matchAndRewrite (solver : gmap N IntegerValueRange) (ir : IR)
    (cmpOp : arith_CmpIOp) : LogicalResult * IR :=
  if isIntegerOrIndex (getType (getResult cmpOp)) && cmpIIsStaticallyTrue solver cmpOp
  then
    match maybeReplaceWithConstant solver ir (getResult cmpOp) with
    | None => (failure, ir)
    | Some ir' => (success, ir')
    end
  else (failure, ir).

End FoldTrueCmpIOp.

(** The program as far as the rule can change it: the values that have
    been replaced by a literal constant, each with its literal. *)
Definition Replacements : Type := gmap N APInt.t.

(** The literals [true] and [false] of type [i1]. *)
Definition literalTrue : APInt.t := APInt.mk 1 1.

Module dataflow.

(** Modelled from the spec: [mlir::dataflow::maybeReplaceWithConstant] is
    MLIR library code, not under src/.  It is the "mechanism to attempt
    replacing an operation's result with a literal constant, returning
    success/failure" of section 6, by which a transformation can "replace
    a value with a known constant" (section 1).  It is handed the solver
    and the value, and no literal: the value is replaced by the constant
    that the solver's range for it holds; the substitution is refused
    when the surrounding machinery refuses it ([refuses]), and when the
    range of the value is not known or is not a constant. *)
Definition maybeReplaceWithConstant (refuses : Replacements -> Value -> bool)
    (solver : gmap N IntegerValueRange) (ir : Replacements) (value : Value)
  : option Replacements :=
  if refuses ir value then None
  else
    match solver !! valueId value with
    | Some (Some inferredRange) =>
        match intrange.getConstantValue inferredRange with
        | Some constValue => Some (<[valueId value := constValue]> ir)
        | None => None
        end
    | _ => None
    end.

End dataflow.

(** ** Definitions used to state the properties *)

(** The quotient rounded up, as a rational quotient would be. *)
Definition ceilDiv (n d : Z) : Z := - ((- n) / d).

(** The pattern of an [APInt] fits its width. *)
Definition APInt_wf (a : APInt.t) : Prop :=
  0 <= APInt.getZExtValue a < pow2 (APInt.getBitWidth a).

(** The resolved bounds and step of a loop, read as signed numbers, before
    the swap and the replacement of a zero step. *)
Definition resolvedLower (cells : gmap N IntegerValueRange)
    (loop : LoopLikeOpInterface) (iv : Value) : APInt.t :=
  getLoopRangeInfo cells (getStorageBitwidth (getType iv))
    (getSingleLowerBound loop) (Some false) None.

Definition resolvedUpper (cells : gmap N IntegerValueRange)
    (loop : LoopLikeOpInterface) (iv : Value) : APInt.t :=
  getLoopRangeInfo cells (getStorageBitwidth (getType iv))
    (getSingleUpperBound loop) (Some true) None.

Definition resolvedStep (cells : gmap N IntegerValueRange)
    (loop : LoopLikeOpInterface) (iv : Value) : APInt.t :=
  getLoopRangeInfo cells (getStorageBitwidth (getType iv))
    (getSingleStep loop) None
    (Some (APInt.make (getStorageBitwidth (getType iv)) 1 true)).

(** Concrete loops over [i32] with literal bounds and step. *)
Definition i32_literal (k : Z) : option OpFoldResult :=
  Some (OfAttribute (IntegerAttr (APInt.make 32 k true))).

Definition iv32 : Value := mkValue 1 (IntegerType 32) None 0.

Definition literalLoop (lower upper step : Z) : LoopLikeOpInterface :=
  mkLoop (i32_literal lower) (i32_literal upper) (i32_literal step) (Some iv32).

(** The loop-like operations among the ancestors of an operation,
    innermost first. *)
Fixpoint enclosingLoops (op : Operation) : list LoopLikeOpInterface :=
  match op with
  | MkOperation _ _ None => []
  | MkOperation _ _ (Some p) =>
      match dynCastLoopLike p with
      | Some l => l :: enclosingLoops p
      | None => enclosingLoops p
      end
  end.

(** A loop's own trip count, or the sentinel when it is unknown. *)
Definition tripCountOrSentinel (cells : gmap N IntegerValueRange)
    (loop : LoopLikeOpInterface) : Z :=
  match maybeGetTripCount cells loop with
  | Some n => n
  | None => 1024 + 1
  end.

Definition product (l : list Z) : Z := fold_right Z.mul 1 l.

(** The values the accumulator takes while the counts are multiplied in,
    one after the other, starting from [accum]. *)
Fixpoint runningProducts (accum : Z) (counts : list Z) : list Z :=
  match counts with
  | [] => []
  | count :: rest => accum * count :: runningProducts (accum * count) rest
  end.

(** No multiplication of the accumulation leaves [int64_t]. *)
Definition noOverflow (counts : list Z) : Prop :=
  Forall in_int64 (runningProducts 1 counts).

(** The relations of section 4.2; [ne] has none. *)
Inductive Relation : Type := Equal | GreaterEqual | Greater | LessEqual | Less.

Definition relationOf (pred : CmpIPredicate.t) : option Relation :=
  match pred with
  | CmpIPredicate.eq => Some Equal
  | CmpIPredicate.ne => None
  | CmpIPredicate.sge | CmpIPredicate.uge => Some GreaterEqual
  | CmpIPredicate.sgt | CmpIPredicate.ugt => Some Greater
  | CmpIPredicate.sle | CmpIPredicate.ule => Some LessEqual
  | CmpIPredicate.slt | CmpIPredicate.ult => Some Less
  end.

Definition isSignedPredicate (pred : CmpIPredicate.t) : bool :=
  match pred with
  | CmpIPredicate.uge | CmpIPredicate.ugt | CmpIPredicate.ule | CmpIPredicate.ult => false
  | _ => true
  end.

(** The table of section 4.2 in the spec's words: the interval that forces
    the relation between the anchor and the constant [k]. *)
Definition specInterval (rel : Relation) (anchorOnLeft : bool) (k min max : Z)
  : Z * Z :=
  match rel, anchorOnLeft with
  | Equal, _ => (k, k)
  | GreaterEqual, true => (k, max)
  | GreaterEqual, false => (min, k)
  | Greater, true => (k + 1, max)
  | Greater, false => (min, k - 1)
  | LessEqual, true => (min, k)
  | LessEqual, false => (k, max)
  | Less, true => (min, k - 1)
  | Less, false => (k + 1, max)
  end.

(** The extreme values of a width, signed or unsigned. *)
Definition minOf (signed : bool) (w : N) : Z :=
  if signed then - pow2 (w - 1) else 0.
Definition maxOf (signed : bool) (w : N) : Z :=
  if signed then pow2 (w - 1) - 1 else pow2 w - 1.

(** The constant of the comparison, read under the signedness of the
    predicate at the width of the anchor. *)
Definition constantRead (signed : bool) (w : N) (c : Z) : Z :=
  if signed then c else c mod pow2 w.

(** An interval of numbers as a range of [w]-bit patterns. *)
Definition encodeInterval (w : N) (signed : bool) (i : Z * Z) : ConstantIntRanges.t :=
  ConstantIntRanges.range (APInt.trunc w (fst i)) (APInt.trunc w (snd i)) signed.

(** A bound of a range read under a signedness. *)
Definition lowerRead (signed : bool) (r : ConstantIntRanges.t) : Z :=
  if signed then APInt.getSExtValue (ConstantIntRanges.smin r)
  else APInt.getZExtValue (ConstantIntRanges.umin r).
Definition upperRead (signed : bool) (r : ConstantIntRanges.t) : Z :=
  if signed then APInt.getSExtValue (ConstantIntRanges.smax r)
  else APInt.getZExtValue (ConstantIntRanges.umax r).

(** A pattern read under a signedness. *)
Definition readAs (signed : bool) (a : APInt.t) : Z :=
  if signed then APInt.getSExtValue a else APInt.getZExtValue a.

(** The values of the examples: an [i32] value [%x] and [i32] constants. *)
Definition x32 : Value := mkValue 7 (IntegerType 32) None 0.
Definition c32 (k : Z) : Value := mkValue 8 (IntegerType 32) (Some k) 0.
Definition y32 : Value := mkValue 9 (IntegerType 32) None 0.

(** The strict relations whose bound is [apVal + 1]: the anchor above the
    constant. *)
Definition addsOne (rel : Relation) (anchorOnLeft : bool) : bool :=
  match rel, anchorOnLeft with
  | Greater, true | Less, false => true
  | _, _ => false
  end.

(** The values of the examples at eight bits. *)
Definition x8 : Value := mkValue 7 (IntegerType 8) None 0.
Definition c8 (k : Z) : Value := mkValue 8 (IntegerType 8) (Some k) 0.

(** [%x > 127] at eight bits. *)
Definition assume_x8_sgt_127 : Operation :=
  MkOperation 100 (CmpIOp CmpIPredicate.sgt x8 (c8 127)) None.

(** [%x <u 0] at eight bits. *)
Definition assume_x8_ult_0 : Operation :=
  MkOperation 101 (CmpIOp CmpIPredicate.ult x8 (c8 0)) None.

(** The ranges the assumptions on an anchor yield, in registration order;
    an assumption that yields none is passed over. *)
Fixpoint derivedRanges (matching : list Operation) (anchor : Value)
  : list ConstantIntRanges.t :=
  match matching with
  | [] => []
  | assumption :: rest =>
      match snd (maybeGetAssumedRange assumption anchor) with
      | Some r => r :: derivedRanges rest anchor
      | None => derivedRanges rest anchor
      end
  end.

(** Repeated intersection, from the left. *)
Definition intersectAll (start : ConstantIntRanges.t) (rs : list ConstantIntRanges.t)
  : ConstantIntRanges.t :=
  fold_left ConstantIntRanges.intersection rs start.

(** A bit pattern lies within a range: within its unsigned bounds and
    within its signed bounds. *)
Definition contains (r : ConstantIntRanges.t) (v : APInt.t) : Prop :=
  (APInt.getZExtValue (ConstantIntRanges.umin r) <= APInt.getZExtValue v
   /\ APInt.getZExtValue v <= APInt.getZExtValue (ConstantIntRanges.umax r))
  /\ (APInt.getSExtValue (ConstantIntRanges.smin r) <= APInt.getSExtValue v
      /\ APInt.getSExtValue v <= APInt.getSExtValue (ConstantIntRanges.smax r)).

(** The width a range is stored at. *)
Definition widthOf (r : ConstantIntRanges.t) : N :=
  APInt.getBitWidth (ConstantIntRanges.umin r).

(** Two assumptions that contradict each other: [%x >= 10] and [%x <= 5]. *)
Definition contradictoryAssumptions : gmap N (list Operation) :=
  {[ valueId x32 :=
       [MkOperation 100 (CmpIOp CmpIPredicate.sge x32 (c32 10)) None;
        MkOperation 101 (CmpIOp CmpIPredicate.sle x32 (c32 5)) None] ]}.

(** No arguments outside the control flow: the inputs of every predecessor
    are as many as the cells. *)
Definition noNonControlFlowArguments :
  Operation -> bool -> nat -> nat -> list Value ->
  gmap N IntegerValueRange -> gmap N IntegerValueRange :=
  fun _ _ _ _ _ cells => cells.

(** The analysis before anything is visited. *)
Definition emptyAnalysis : TritonIntegerRangeAnalysis.t :=
  TritonIntegerRangeAnalysis.mk ∅ ∅ ∅ ∅.

(** A loop over [i32] from 0 to 2048 by 1 with one loop-carried value:
    [%init] is forwarded to the block argument [%arg]. *)
Definition initValue : Value := mkValue 20 (IntegerType 32) None 0.
Definition iterArg : Value := mkValue 21 (IntegerType 32) None 0.
Definition bigLoopOp : Operation :=
  MkOperation 50 (LoopLikeOp (literalLoop 0 2048 1) [initValue]) None.

(** The loop's trip count already recorded, nothing visited yet. *)
Definition bigLoopRecorded : TritonIntegerRangeAnalysis.t :=
  TritonIntegerRangeAnalysis.mk ∅ {[ 50%N := 2048 ]} ∅ ∅.

(** What happens during one analysis run, as far as the counters can tell:
    the solver either calls [visitRegionSuccessors], or it runs another
    transfer function, which joins a range into the cell of a value. *)
Inductive Event : Type :=
| VisitRegionSuccessors (isBlockStart : bool) (branchOp : Operation)
    (lattices : list Value) (predecessors : list Predecessor)
| OperationJoin (anchor : Value) (range : IntegerValueRange).

Definition step (a : TritonIntegerRangeAnalysis.t) (e : Event)
  : TritonIntegerRangeAnalysis.t :=
  match e with
  | VisitRegionSuccessors isBlockStart branchOp lattices predecessors =>
      visitRegionSuccessors noNonControlFlowArguments a isBlockStart branchOp
        lattices predecessors
  | OperationJoin anchor range =>
      TritonIntegerRangeAnalysis.withCells a
        (snd (join (TritonIntegerRangeAnalysis.cells a) anchor range))
  end.

Definition run (a : TritonIntegerRangeAnalysis.t) (events : list Event)
  : TritonIntegerRangeAnalysis.t :=
  fold_left step events a.

(** A loop over [i32] from 0 to the value [%n] by 1, with one loop-carried
    value; the range of [%n] is not known at first and later found to be
    the constant 0. *)
Definition nValue : Value := mkValue 22 (IntegerType 32) None 0.
Definition loopToN : LoopLikeOpInterface :=
  mkLoop (i32_literal 0) (Some (OfValue nValue)) (i32_literal 1) (Some iv32).
Definition loopToNOp : Operation :=
  MkOperation 51 (LoopLikeOp loopToN [nValue; initValue]) None.
(** Three loops from 0 to [%n] by 1, one inside the other. *)
Definition tripleLoopToNOp : Operation :=
  MkOperation 70 (LoopLikeOp loopToN [])
    (Some (MkOperation 71 (LoopLikeOp loopToN [])
       (Some (MkOperation 72 (LoopLikeOp loopToN []) None)))).

Definition visitLoopToN : Event :=
  VisitRegionSuccessors true loopToNOp [iterArg]
    [mkPredecessor (Some [initValue]) [iterArg]].
Definition nIsZero : Event :=
  OperationJoin nValue (Some (ConstantIntRanges.constant (APInt.make 32 0 true))).

(** A value whose range is known to the solver: its cell exists, is
    initialized, and does not hold the empty sentinel, the range one of
    whose four bounds is of width zero. *)
Definition knownRange (solver : gmap N IntegerValueRange) (v : Value)
    (r : ConstantIntRanges.t) : Prop :=
  solver !! valueId v = Some (Some r)
  /\ APInt.getBitWidth (ConstantIntRanges.umin r) <> 0%N
  /\ APInt.getBitWidth (ConstantIntRanges.umax r) <> 0%N
  /\ APInt.getBitWidth (ConstantIntRanges.smin r) <> 0%N
  /\ APInt.getBitWidth (ConstantIntRanges.smax r) <> 0%N.

(** A loop from 0 to 1024 by 1, inside a plain operation, inside a loop
    without a single induction variable. *)
Definition nestedLoopOp : Operation :=
  MkOperation 60 (LoopLikeOp (literalLoop 0 1024 1) [])
    (Some (MkOperation 61 (OtherOp [])
       (Some (MkOperation 62 (LoopLikeOp (mkLoop None None None None) []) None)))).

(** What a predicate says of two bit patterns. *)
Definition holds (pred : CmpIPredicate.t) (a b : APInt.t) : Prop :=
  match pred with
  | CmpIPredicate.eq => APInt.getZExtValue a = APInt.getZExtValue b
  | CmpIPredicate.ne => APInt.getZExtValue a <> APInt.getZExtValue b
  | CmpIPredicate.slt => APInt.getSExtValue a < APInt.getSExtValue b
  | CmpIPredicate.sle => APInt.getSExtValue a <= APInt.getSExtValue b
  | CmpIPredicate.sgt => APInt.getSExtValue a > APInt.getSExtValue b
  | CmpIPredicate.sge => APInt.getSExtValue a >= APInt.getSExtValue b
  | CmpIPredicate.ult => APInt.getZExtValue a < APInt.getZExtValue b
  | CmpIPredicate.ule => APInt.getZExtValue a <= APInt.getZExtValue b
  | CmpIPredicate.ugt => APInt.getZExtValue a > APInt.getZExtValue b
  | CmpIPredicate.uge => APInt.getZExtValue a >= APInt.getZExtValue b
  end.

(** A well-formed pattern of width [w]. *)
Definition hasWidth (w : N) (a : APInt.t) : Prop :=
  APInt.getBitWidth a = w /\ APInt_wf a.

(** A range all of whose bounds are well-formed patterns of width [w]. *)
Definition rangeHasWidth (w : N) (r : ConstantIntRanges.t) : Prop :=
  hasWidth w (ConstantIntRanges.umin r) /\ hasWidth w (ConstantIntRanges.umax r)
  /\ hasWidth w (ConstantIntRanges.smin r) /\ hasWidth w (ConstantIntRanges.smax r).

(** [%i < 1024] with the range of [%i] solved to [[0, 1023]] or to
    [[0, 2048]]. *)
Definition iValue : Value := mkValue 30 (IntegerType 32) None 0.
Definition c1024 : Value := mkValue 31 (IntegerType 32) (Some 1024) 0.
Definition i_lt_1024 : arith_CmpIOp :=
  mkCmpI CmpIPredicate.slt iValue c1024 (mkValue 32 (IntegerType 1) None 0).
Definition solvedTo (lo hi : Z) : gmap N IntegerValueRange :=
  {[ 30%N := Some (ConstantIntRanges.range (APInt.make 32 lo true)
                     (APInt.make 32 hi true) true);
     31%N := Some (ConstantIntRanges.constant (APInt.make 32 1024 true)) ]}.

(** The same with the range of [%i] solved to [[0, 1023]] and the cell of
    the result of the comparison holding the constant [literal]; and a
    machinery that refuses nothing. *)
Definition solvedWithResult (literal : APInt.t) : gmap N IntegerValueRange :=
  <[32%N := Some (ConstantIntRanges.constant literal)]> (solvedTo 0 1023).
Definition refusesNothing : Replacements -> Value -> bool := fun _ _ => false.


(** ** Further definitions: the other inference rules *)

(** [inferResultRangesPID]: the operation is expected to have one result,
    of integer type (both asserted; [None] stands for a failed assertion).
    [resTyIsSigned] is what [resTy.isSigned()] answers and [max] the
    [uint64_t] handed in. *)
Definition inferResultRangesPID (results : list MType) (resTyIsSigned : bool)
    (max : Z) : option ConstantIntRanges.t :=
  match results with
  | [IntegerType bitWidth] =>
      Some (ConstantIntRanges.range
              (APInt.make bitWidth 0 resTyIsSigned)
              (APInt.make bitWidth max resTyIsSigned)
              resTyIsSigned)
  | _ => None
  end.

(** [inferResultRanges] for a [tt::MakeRangeOp]: the result is a ranked tensor
    whose element type is expected to be an integer type (asserted);
    [getStart] and [getEnd] are the [uint32_t] attributes of the
    operation. *)
Definition inferResultRanges_MakeRangeOp (resTy : MType) (elTyIsSigned : bool)
    (getStart getEnd : Z) : option ConstantIntRanges.t :=
  match resTy with
  | RankedTensorType (IntegerType bitWidth) =>
      Some (ConstantIntRanges.range
              (APInt.make bitWidth getStart elTyIsSigned)
              (APInt.make bitWidth getEnd elTyIsSigned)
              elTyIsSigned)
  | _ => None
  end.

(** [inferResultRanges] for a [tt::GatherOp]: two argument ranges are expected
    (asserted); the result gets the first. *)
Definition inferResultRanges_GatherOp (argRanges : list ConstantIntRanges.t)
  : option ConstantIntRanges.t :=
  match argRanges with
  | [src; _] => Some src
  | _ => None
  end.

(** [inferResultRangesUnaryOpForwardArgRange]: every result gets
    [argRanges[0]], which must exist as soon as there is a result. *)
Definition inferResultRangesUnaryOpForwardArgRange (results : list Value)
    (argRanges : list ConstantIntRanges.t) : option (list ConstantIntRanges.t) :=
  match results, argRanges with
  | [], _ => Some []
  | _, arg0 :: _ => Some (map (fun _ => arg0) results)
  | _, [] => None
  end.

(** [inferResultRangesBinaryOpUnionArgRanges]: two operands and two
    argument ranges are expected (asserted); every result gets the union
    of the two. *)
Definition inferResultRangesBinaryOpUnionArgRanges (numOperands : nat)
    (results : list Value) (argRanges : list ConstantIntRanges.t)
  : option (list ConstantIntRanges.t) :=
  match numOperands, argRanges with
  | 2%nat, [arg0; arg1] =>
      Some (map (fun _ => ConstantIntRanges.rangeUnion arg0 arg1) results)
  | _, _ => None
  end.

(** ** Further definitions: what the properties speak of *)

(** Whether a bound of a loop resolves to something known: a literal
    integer, or a value whose cell is initialized. *)
Definition isResolved (cells : gmap N IntegerValueRange)
    (loopBound : option OpFoldResult) : bool :=
  match loopBound with
  | Some (OfAttribute (IntegerAttr _)) => true
  | Some (OfValue value) =>
      match cells !! valueId value with
      | Some (Some _) => true
      | _ => false
      end
  | _ => false
  end.

(** The two sides of a comparison between the anchor, holding the
    pattern [v], and the constant [K]. *)
Definition onAnchorSide (anchorOnLeft : bool) (v K : APInt.t) : APInt.t * APInt.t :=
  if anchorOnLeft then (v, K) else (K, v).

(** The assumption holds of the pattern [v] of the anchor: for a
    comparison, other than [ne], against a constant that fits the width
    of the anchor, the comparison holds; any other operation says
    nothing. *)
Definition satisfiesAssumption (assumption : Operation) (anchor : Value)
    (v : APInt.t) : Prop :=
  match opView assumption with
  | CmpIOp pred lhs rhs =>
      let anchorOnLeft := Value_eqb lhs anchor in
      let w := getStorageBitwidth (getType anchor) in
      let signed := isSignedPredicate pred in
      match getConstantIntValue (if anchorOnLeft then rhs else lhs), relationOf pred with
      | Some c, Some _ =>
          in_int64 c
          /\ minOf signed w <= constantRead signed w c <= maxOf signed w
          /\ holds pred (fst (onAnchorSide anchorOnLeft v (APInt.make w c signed)))
                        (snd (onAnchorSide anchorOnLeft v (APInt.make w c signed)))
      | _, _ => True
      end
  | _ => True
  end.

(** The body of the loop of [collectAssumptions] over the operands of the
    operation that defines the condition. *)
Definition registerOperand (filterConstants : bool) (assump : Operation)
    (assumptions : gmap N (list Operation)) (operand : Value)
  : gmap N (list Operation) :=
  if filterConstants && bool_decide (is_Some (getConstantIntValue operand))
  then assumptions
  else <[valueId operand :=
           setVectorInsert (default [] (assumptions !! valueId operand)) assump]>
         assumptions.

(** The operand is not passed over by the filter on constants. *)
Definition notFiltered (filterConstants : bool) (operand : Value) : Prop :=
  filterConstants = true -> getConstantIntValue operand = None.

(** The operation is registered against the value of identity [k]. *)
Definition isRegistered (assumptions : gmap N (list Operation)) (k : N)
    (op : Operation) : Prop :=
  exists o, In o (default [] (assumptions !! k)) /\ opId o = opId op.

(** [%x >= 0] and [%x < 1024] registered against [%x]. *)
Definition boundedAssumptions : gmap N (list Operation) :=
  {[ valueId x32 :=
       [MkOperation 100 (CmpIOp CmpIPredicate.sge x32 (c32 0)) None;
        MkOperation 101 (CmpIOp CmpIPredicate.slt x32 (c32 1024)) None] ]}.

(** The two assumes whose conditions are [%x >= 0] and [%x < 1024]. *)
Definition boundedAssumes : list AssumeOp :=
  [mkAssume (Some (MkOperation 100 (CmpIOp CmpIPredicate.sge x32 (c32 0)) None));
   mkAssume (Some (MkOperation 101 (CmpIOp CmpIPredicate.slt x32 (c32 1024)) None))].

(** ** Further definitions: the cells over a visit *)

(** No cell holds the width-zero range. *)
Definition noSentinel (cells : gmap N IntegerValueRange) : Prop :=
  forall k r, cells !! k = Some (Some r) -> widthOf r <> 0%N.

(** Every pattern within the range of a cell of [cells] is within the
    range of the same cell of [cells']. *)
Definition neverNarrowed (cells cells' : gmap N IntegerValueRange) : Prop :=
  forall k r v,
    cells !! k = Some (Some r) -> contains r v ->
    exists r', cells' !! k = Some (Some r') /\ contains r' v.

(** The anchor is not of the integer type of no bits. *)
Definition notZeroWidthInteger (anchor : Value) : Prop :=
  getElementTypeOrSelf (getType anchor) <> IntegerType 0.

(** A loop over [i32] from 0 to 8 by 1 that carries [%init], whose range
    is the constant 5, into [%arg], whose range is the constant 0. *)
Definition smallLoopOp : Operation :=
  MkOperation 52 (LoopLikeOp (literalLoop 0 8 1) [initValue]) None.
Definition smallLoopCells : gmap N IntegerValueRange :=
  {[ valueId initValue := Some (ConstantIntRanges.constant (APInt.make 32 5 true));
     valueId iterArg := Some (ConstantIntRanges.constant (APInt.make 32 0 true)) ]}.
Definition smallLoopAnalysis : TritonIntegerRangeAnalysis.t :=
  TritonIntegerRangeAnalysis.mk ∅ ∅ ∅ smallLoopCells.

(** ** Further definitions: the arguments of a function *)

(** [initializeFuncOp] over the arguments of the function: the cell of an
    argument against which assumptions are registered is joined with the
    range assumed for it. *)
Definition initializeFuncOp (a : TritonIntegerRangeAnalysis.t) (arguments : list Value)
  : TritonIntegerRangeAnalysis.t :=
  fold_left
    (fun a argument =>
       match TritonIntegerRangeAnalysis.lookupAssumptions
               (TritonIntegerRangeAnalysis.assumptions a) argument with
       | [] => a
       | _ =>
           let range :=
             match snd (TritonIntegerRangeAnalysis.maybeGetAssumedRange
                          (TritonIntegerRangeAnalysis.assumptions a) argument) with
             | Some r => Some r
             | None => getMaxRange argument
             end in
           TritonIntegerRangeAnalysis.withCells a
             (snd (join (TritonIntegerRangeAnalysis.cells a) argument range))
       end)
    arguments a.

(** The analysis before anything is visited, with [%x >= 0] and
    [%x < 1024] registered against [%x]. *)
Definition boundedAnalysis : TritonIntegerRangeAnalysis.t :=
  TritonIntegerRangeAnalysis.mk boundedAssumptions ∅ ∅ ∅.

(** ** Further definitions: the transfer function of an operation *)

(** The operations [visitOperation] tells apart: those with a fixed
    range, those that forward or combine the ranges of their operands,
    those that implement [InferIntRangeInterface], and all the others. *)
Inductive OpKind : Type :=
| GetProgramIdOp
| GetNumProgramsOp
| MakeRangeOp (getStart getEnd : Z)
| HistogramOp
| TransOp | SplitOp | BroadcastOp | ReshapeOp | ConvertLayoutOp | SplatOp | ExpandDimsOp
| JoinOp | CatOp
| GatherOp
| InferIntRangeOp
| UnregisteredOp.

(** The operation handed to [visitOperation]: its kind, its operands
    (whose cells are the [operands] of the source) and its results (whose
    cells are the [resultsLattices], in the same order). *)
Record VisitedOperation : Type := mkVisited {
  getKind : OpKind;
  getVisitedOperands : list Value;
  getResults : list Value
}.

(** The ranges of the arguments when all are initialized. *)
Fixpoint getValues (argIntValueRanges : list IntegerValueRange)
  : option (list ConstantIntRanges.t) :=
  match argIntValueRanges with
  | [] => Some []
  | Some r :: rest => option_map (cons r) (getValues rest)
  | None :: _ => None
  end.

Section VisitOperation.

Import TritonIntegerRangeAnalysis.

(** Whether [dyn_cast<OpResult>] succeeds on a value, and what
    [isSigned()] answers for the integer type of a value (of its elements,
    for a tensor). *)
Variable isaOpResult : Value -> bool.
Variable isSigned : Value -> bool.

(** [InferIntRangeInterface::inferResultRangesFromOptional] is not under
    src/: given the operation and the ranges of the arguments, the calls
    it makes to the callback, in order. *)
Variable inferResultRangesFromOptional :
  VisitedOperation -> list IntegerValueRange -> list (Value * IntegerValueRange).

(** The lambda [joinCallback]: nothing for a value that is not an
    operation result; the value must be a result of the operation
    (asserted); the incoming range is narrowed to the range assumed for
    the value, which reads [incomingRange.getValue()] and so needs an
    initialized range; the cell of the value is joined with the outcome.
    [None] stands for a failed assertion. *)
Definition joinCallback (op : VisitedOperation) (a : t) (v : Value)
    (incomingRange : IntegerValueRange) : option t :=
  if negb (isaOpResult v) then Some a
  else if negb (existsb (Value_eqb v) (getResults op)) then None
  else
    match snd (maybeGetAssumedRange (assumptions a) v) with
    | Some maybeRange =>
        match incomingRange with
        | Some incoming =>
            Some (withCells a
                    (snd (join (cells a) v
                            (Some (ConstantIntRanges.intersection incoming maybeRange)))))
        | None => None
        end
    | None => Some (withCells a (snd (join (cells a) v incomingRange)))
    end.

(** The calls of an inference rule to the callback, one after the other. *)
Fixpoint setResultRanges (op : VisitedOperation) (a : t)
    (calls : list (Value * IntegerValueRange)) : option t :=
  match calls with
  | [] => Some a
  | (v, incomingRange) :: rest =>
      match joinCallback op a v incomingRange with
      | Some a => setResultRanges op a rest
      | None => None
      end
  end.

(** The loop "Initialize lattices with assumptions": the first result cell
    that is uninitialized and has assumptions registered against its
    anchor is set to its entry state, and the visit ends there. *)
Fixpoint initializeWithAssumptions (a : t) (resultsLattices : list Value) : option t :=
  match resultsLattices with
  | [] => None
  | resultLattice :: rest =>
      match lookupCell (cells a) resultLattice with
      | Some _ => initializeWithAssumptions a rest
      | None =>
          match lookupAssumptions (assumptions a) resultLattice with
          | [] => initializeWithAssumptions a rest
          | _ => Some (setToEntryState a resultLattice)
          end
      end
  end.

(** The calls of the rules with a fixed range. *)
Definition fixedRangeCalls (op : VisitedOperation)
  : option (list (Value * IntegerValueRange)) :=
  let results := getResults op in
  let onlyResult (range : Value -> option ConstantIntRanges.t) :=
    match results with
    | [result] => option_map (fun r => [(result, Some r)]) (range result)
    | _ => None
    end in
  match getKind op with
  | GetProgramIdOp =>
      onlyResult (fun result =>
        inferResultRangesPID (map getType results) (isSigned result)
          (kDefaultMaxPrograms - 1))
  | GetNumProgramsOp =>
      onlyResult (fun result =>
        inferResultRangesPID (map getType results) (isSigned result)
          kDefaultMaxPrograms)
  | MakeRangeOp getStart getEnd =>
      onlyResult (fun result =>
        inferResultRanges_MakeRangeOp (getType result) (isSigned result) getStart getEnd)
  | HistogramOp =>
      Some (zip results
              (map Some (inferResultRangesMaxNonNegSigned (map getType results))))
  | _ => None
  end.

(** The calls of the rules that forward or combine the ranges of the
    operands. *)
Definition forwardingCalls (op : VisitedOperation)
    (argConstIntRanges : list ConstantIntRanges.t)
  : option (list (Value * IntegerValueRange)) :=
  let results := getResults op in
  match getKind op with
  | TransOp | SplitOp | BroadcastOp | ExpandDimsOp | SplatOp | ReshapeOp
  | ConvertLayoutOp =>
      option_map (fun ranges => zip results (map Some ranges))
        (inferResultRangesUnaryOpForwardArgRange results argConstIntRanges)
  | JoinOp | CatOp =>
      option_map (fun ranges => zip results (map Some ranges))
        (inferResultRangesBinaryOpUnionArgRanges (length (getVisitedOperands op))
           results argConstIntRanges)
  | GatherOp =>
      match results with
      | [result] =>
          option_map (fun r => [(result, Some r)])
            (inferResultRanges_GatherOp argConstIntRanges)
      | _ => None
      end
  | _ => None
  end.

(** [visitOperation]; [None] stands for a failed assertion of the
    function or of a rule it calls. *)
Definition visitOperation (a : t) (op : VisitedOperation) : option t :=
  let resultsLattices := getResults op in
  match initializeWithAssumptions a resultsLattices with
  | Some a => Some a
  | None =>
      let argIntValueRanges := map (lookupCell (cells a)) (getVisitedOperands op) in
      match getKind op with
      | GetProgramIdOp | MakeRangeOp _ _ | HistogramOp | GetNumProgramsOp =>
          match fixedRangeCalls op with
          | Some calls => setResultRanges op a calls
          | None => None
          end
      | TransOp | SplitOp | BroadcastOp | ReshapeOp | ConvertLayoutOp | SplatOp
      | ExpandDimsOp | JoinOp | CatOp | GatherOp =>
          match getValues argIntValueRanges with
          | None => Some (setAllToEntryStates a resultsLattices)
          | Some argConstIntRanges =>
              match forwardingCalls op argConstIntRanges with
              | Some calls => setResultRanges op a calls
              | None => None
              end
          end
      | InferIntRangeOp =>
          setResultRanges op a (inferResultRangesFromOptional op argIntValueRanges)
      | UnregisteredOp => Some (setAllToEntryStates a resultsLattices)
      end
  end.

End VisitOperation.

(** A [tt.get_program_id] whose result is [%x], and a [tt.trans] of
    [%init] whose result is [%arg]; every value at hand is an operation
    result, of signless type, and no operation implements the
    interface. *)
Definition programIdOp : VisitedOperation := mkVisited GetProgramIdOp [] [x32].
Definition transOp : VisitedOperation := mkVisited TransOp [initValue] [iterArg].
Definition allOpResults : Value -> bool := fun _ => true.
Definition signless : Value -> bool := fun _ => false.
Definition noInterface :
  VisitedOperation -> list IntegerValueRange -> list (Value * IntegerValueRange) :=
  fun _ _ => [].

(** The operations whose rule forwards or combines the ranges of the
    operands. *)
Definition isForwarding (kind : OpKind) : bool :=
  match kind with
  | TransOp | SplitOp | BroadcastOp | ReshapeOp | ConvertLayoutOp | SplatOp
  | ExpandDimsOp | JoinOp | CatOp | GatherOp => true
  | _ => false
  end.

(** The pattern [v] is not excluded by what is assumed of the anchor:
    when assumptions are registered against it, the anchor is of a type of
    1 to 64 bits, [v] is a pattern of that width, and [v] satisfies each
    of them. *)
Definition withinAssumptions (asm : gmap N (list Operation)) (anchor : Value)
    (v : APInt.t) : Prop :=
  TritonIntegerRangeAnalysis.lookupAssumptions asm anchor <> [] ->
  (0 < getStorageBitwidth (getType anchor))%N
  /\ (getStorageBitwidth (getType anchor) <= 64)%N
  /\ hasWidth (getStorageBitwidth (getType anchor)) v
  /\ Forall (fun assumption => satisfiesAssumption assumption anchor v)
            (TritonIntegerRangeAnalysis.lookupAssumptions asm anchor).

(** The maximum handed to [inferResultRangesPID] for the two operations
    that use it. *)
Definition maxOfPID (kind : OpKind) : Z :=
  match kind with
  | GetProgramIdOp => kDefaultMaxPrograms - 1
  | _ => kDefaultMaxPrograms
  end.

(** Every predecessor forwards operands, and as many inputs as there are
    cells: no argument lies outside the control flow. *)
Definition forwardsAllCells (lattices : list Value) (predecessor : Predecessor) : Prop :=
  is_Some (successorOperands predecessor)
  /\ length (successorInputs predecessor) = length lattices.

(** A loop over [i32] from 1024 down to 0 by -1 that carries [%init] into
    [%arg]. *)
Definition downLoopOp : Operation :=
  MkOperation 53 (LoopLikeOp (literalLoop 1024 0 (-1)) [initValue]) None.

(** A rewriter that accepts every replacement, on a program of which
    nothing is recorded. *)
Definition acceptReplacement : gmap N IntegerValueRange -> unit -> Value -> option unit :=
  fun _ _ _ => Some tt.

(** * Properties *)

(** ** Arithmetic of the machine integers *)

Lemma pow2_pos (w : N) : 0 < pow2 w.
Proof. unfold pow2. apply Z.pow_pos_nonneg; lia. Qed.

Lemma pow2_double (w : N) : (0 < w)%N -> pow2 w = 2 * pow2 (w - 1).
Proof.
  intros Hw. unfold pow2.
  replace (Z.of_N w) with (Z.succ (Z.of_N (w - 1))) by lia.
  rewrite Z.pow_succ_r by lia. reflexivity.
Qed.

Lemma mod_window (m x q : Z) :
  0 < m -> q * m <= x < (q + 1) * m -> x mod m = x - q * m.
Proof.
  intros Hm Hx. symmetry.
  apply Z.mod_unique_pos with (q := q); lia.
Qed.

Lemma wrap64_id (z : Z) : in_int64 z -> wrap64 z = z.
Proof.
  unfold in_int64, int64_min, int64_max, wrap64. intros Hz.
  rewrite Z.mod_small; lia.
Qed.

Lemma wrap64_mul_l (a b : Z) : wrap64 (wrap64 a * b) = wrap64 (a * b).
Proof.
  unfold wrap64.
  f_equal.
  replace ((((a + 2 ^ 63) mod 2 ^ 64 - 2 ^ 63) * b + 2 ^ 63))
    with ((a + 2 ^ 63) mod 2 ^ 64 * b + (2 ^ 63 - 2 ^ 63 * b)) by ring.
  replace (a * b + 2 ^ 63) with ((a + 2 ^ 63) * b + (2 ^ 63 - 2 ^ 63 * b)) by ring.
  rewrite (Z.add_mod ((a + 2 ^ 63) mod 2 ^ 64 * b)) by lia.
  rewrite (Z.add_mod ((a + 2 ^ 63) * b)) by lia.
  rewrite Z.mul_mod_idemp_l by lia. reflexivity.
Qed.

Lemma quot_of_opp_sign (n d : Z) : 0 <= n -> d < 0 -> Z.quot n d = ceilDiv n d.
Proof.
  intros Hn Hd. unfold ceilDiv.
  replace d with (- (- d)) at 1 by lia.
  rewrite Z.quot_opp_r by lia.
  rewrite Z.quot_div_nonneg by lia.
  f_equal.
  replace (- n) with (- n * 1) by lia.
  replace d with (- (- d)) at 2 by lia.
  replace (- n * 1 / - - d) with (- n / - - d) by (f_equal; lia).
  rewrite Z.div_opp_opp by lia. reflexivity.
Qed.

Lemma quot_pos_ceil (n d : Z) : 0 < n -> 0 < d -> Z.quot (n - 1) d + 1 = ceilDiv n d.
Proof.
  intros Hn Hd. unfold ceilDiv.
  rewrite Z.quot_div_nonneg by lia.
  pose proof (Z.div_mod (n - 1) d ltac:(lia)) as E1.
  pose proof (Z.mod_pos_bound (n - 1) d Hd) as B1.
  assert (E : - n = d * (- ((n - 1) / d) - 1) + (d - 1 - (n - 1) mod d)) by lia.
  assert (Hq : (- n) / d = - ((n - 1) / d) - 1).
  { symmetry. apply Z.div_unique_pos with (r := d - 1 - (n - 1) mod d); lia. }
  lia.
Qed.

(** [divideCeilSigned] is the rounded-up quotient whenever the numerator is
    a non-negative [int64_t] and the denominator is not zero. *)
Lemma divideCeilSigned_ceil (n d : Z) :
  0 <= n -> in_int64 n -> d <> 0 -> divideCeilSigned n d = ceilDiv n d.
Proof.
  intros Hn Hin Hd. unfold divideCeilSigned.
  destruct (Z.eqb_spec n 0) as [->|Hn0].
  { unfold ceilDiv. simpl. rewrite Z.div_0_l by lia. reflexivity. }
  assert (Hnp : 0 < n) by lia.
  destruct (Z.leb_spec 0 n) as [_|?]; [|lia].
  unfold in_int64, int64_min, int64_max in Hin.
  destruct (Z.leb_spec 0 d) as [Hdp|Hdn]; simpl.
  - assert (0 < d) by lia.
    rewrite (wrap64_id (n - 1)) by (unfold in_int64, int64_min, int64_max; lia).
    assert (Hq : 0 <= Z.quot (n - 1) d <= n - 1).
    { rewrite Z.quot_div_nonneg by lia. split.
      - apply Z.div_pos; lia.
      - apply Z.div_le_upper_bound; nia. }
    rewrite (wrap64_id (Z.quot (n - 1) d)) by (unfold in_int64, int64_min, int64_max; lia).
    rewrite wrap64_id by (unfold in_int64, int64_min, int64_max; lia).
    apply quot_pos_ceil; lia.
  - assert (Hq : - n <= Z.quot n d <= 0).
    { replace d with (- (- d)) by lia. rewrite Z.quot_opp_r by lia.
      rewrite Z.quot_div_nonneg by lia.
      assert (0 <= n / - d <= n).
      { split; [apply Z.div_pos; lia | apply Z.div_le_upper_bound; nia]. }
      lia. }
    rewrite wrap64_id by (unfold in_int64, int64_min, int64_max; lia).
    apply quot_of_opp_sign; lia.
Qed.

(** ** Well-formed bit patterns *)

Lemma trunc_wf (w : N) (v : Z) : APInt_wf (APInt.trunc w v).
Proof. unfold APInt_wf, APInt.trunc; simpl. apply Z.mod_pos_bound, pow2_pos. Qed.

Lemma isNegative_sext (a : APInt.t) :
  APInt_wf a -> APInt.isNegative a = (APInt.getSExtValue a <? 0).
Proof.
  unfold APInt_wf, APInt.getSExtValue, APInt.isNegative.
  destruct a as [w v]; simpl. intros Hwf.
  destruct (N.eqb_spec w 0) as [->|Hw]; simpl.
  - change (pow2 0) with 1 in Hwf. destruct (Z.ltb_spec v 0); [lia | reflexivity].
  - rewrite (pow2_double w) in * by lia.
    pose proof (pow2_pos (w - 1)).
    destruct (Z.leb_spec (pow2 (w - 1)) v); symmetry.
    + apply Z.ltb_lt. lia.
    + apply Z.ltb_ge. lia.
Qed.

Lemma isZero_sext (a : APInt.t) :
  APInt_wf a -> APInt.isZero a = (APInt.getSExtValue a =? 0).
Proof.
  unfold APInt_wf, APInt.getSExtValue, APInt.isNegative, APInt.isZero.
  destruct a as [w v]; simpl. intros Hwf.
  destruct (N.eqb_spec w 0) as [->|Hw]; simpl; [reflexivity|].
  rewrite (pow2_double w) in * by lia.
  pose proof (pow2_pos (w - 1)).
  destruct (Z.leb_spec (pow2 (w - 1)) v); [|reflexivity].
  destruct (Z.eqb_spec v 0), (Z.eqb_spec (v - 2 * pow2 (w - 1)) 0); try reflexivity; lia.
Qed.

Lemma pow2_ge_4 (w : N) : (2 <= w)%N -> 4 <= pow2 w.
Proof.
  intros Hw. rewrite (pow2_double w) by lia. rewrite (pow2_double (w - 1)) by lia.
  pose proof (pow2_pos (w - 1 - 1)). lia.
Qed.

(** The default step [{width, 1, isSigned}] reads as one from two bits on. *)
Lemma stepValDefault_one (w : N) :
  (2 <= w)%N -> APInt.getSExtValue (APInt.make w 1 true) = 1.
Proof.
  intros Hw. unfold APInt.make, APInt.trunc, APInt.getSExtValue, APInt.isNegative; simpl.
  pose proof (pow2_ge_4 w Hw) as H4.
  rewrite (wrap64_id 1) by (unfold in_int64, int64_min, int64_max; lia).
  rewrite Z.mod_small by lia.
  destruct (N.eqb_spec w 0); [lia|]. simpl.
  rewrite (pow2_double w) in H4 by lia.
  destruct (Z.leb_spec (pow2 (w - 1)) 1); [lia | reflexivity].
Qed.

(** ** Trip counts *)

(** C4 (as amended): with a single induction variable (of at least two
    bits) and resolved bounds and step (the step's pattern fitting its
    width, the difference of the bounds fitting [int64_t]), a negative step
    swaps lower and upper, a zero step counts as one, and then the trip
    count is the rounded-up quotient of [upper - lower] by the step, sign
    included, when [upper >= lower], and unknown otherwise. *)
Theorem maybeGetTripCount_formula
    (cells : gmap N IntegerValueRange) (loop : LoopLikeOpInterface) (iv : Value) :
  let lower := APInt.getSExtValue (resolvedLower cells loop iv) in
  let upper := APInt.getSExtValue (resolvedUpper cells loop iv) in
  let step := APInt.getSExtValue (resolvedStep cells loop iv) in
  getSingleInductionVar loop = Some iv ->
  (2 <= getStorageBitwidth (getType iv))%N ->
  APInt_wf (resolvedStep cells loop iv) ->
  in_int64 (upper - lower) -> in_int64 (lower - upper) ->
  maybeGetTripCount cells loop =
    let '(lo, hi) := if step <? 0 then (upper, lower) else (lower, upper) in
    let s := if step =? 0 then 1 else step in
    if lo <=? hi then Some (ceilDiv (hi - lo) s) else None.
Proof.
  intros lower upper step Hiv Hw Hwf Hul Hlu.
  unfold maybeGetTripCount. rewrite Hiv. unfold resolvedBounds.
  fold (resolvedLower cells loop iv) (resolvedUpper cells loop iv)
       (resolvedStep cells loop iv).
  rewrite (isNegative_sext _ Hwf), (isZero_sext _ Hwf). fold step.
  assert (Hs : APInt.getSExtValue
                 (if step =? 0 then APInt.make (getStorageBitwidth (getType iv)) 1 true
                  else resolvedStep cells loop iv)
               = (if step =? 0 then 1 else step)).
  { destruct (Z.eqb_spec step 0); [apply stepValDefault_one; exact Hw | reflexivity]. }
  assert (Hs0 : (if step =? 0 then 1 else step) <> 0).
  { destruct (Z.eqb_spec step 0); lia. }
  destruct (step <? 0); unfold APInt.sge, APInt.sle; fold lower upper; rewrite Hs.
  - destruct (Z.leb_spec upper lower); [|reflexivity].
    f_equal. rewrite wrap64_id by assumption.
    apply divideCeilSigned_ceil; [lia | assumption | assumption].
  - destruct (Z.leb_spec lower upper); [|reflexivity].
    f_equal. rewrite wrap64_id by assumption.
    apply divideCeilSigned_ceil; [lia | assumption | assumption].
Qed.

Lemma maybeGetTripCount_formula_witness :
  maybeGetTripCount ∅ (literalLoop 0 1024 1) = Some 1024
  /\ maybeGetTripCount ∅ (literalLoop 0 1024 0) = Some 1024
  /\ maybeGetTripCount ∅ (literalLoop 1024 0 (-1)) = Some (-1024).
Proof.
  split; [|split].
  - rewrite (maybeGetTripCount_formula ∅ (literalLoop 0 1024 1) iv32);
      [reflexivity | reflexivity | vm_compute; discriminate
      | split; vm_compute; (reflexivity || discriminate)
      | split; vm_compute; discriminate | split; vm_compute; discriminate].
  - rewrite (maybeGetTripCount_formula ∅ (literalLoop 0 1024 0) iv32);
      [reflexivity | reflexivity | vm_compute; discriminate
      | split; vm_compute; (reflexivity || discriminate)
      | split; vm_compute; discriminate | split; vm_compute; discriminate].
  - rewrite (maybeGetTripCount_formula ∅ (literalLoop 1024 0 (-1)) iv32);
      [reflexivity | reflexivity | vm_compute; discriminate
      | split; vm_compute; (reflexivity || discriminate)
      | split; vm_compute; discriminate | split; vm_compute; discriminate].
Defined.

(** C4 (as stated) fails: with lower 0, upper 1024 and step -1 the swap
    leaves upper below lower and no trip count is returned; with the bounds
    written the other way round the count is -1024, not 1024. *)
Lemma maybeGetTripCount_negative_step_counterexample :
  maybeGetTripCount ∅ (literalLoop 0 1024 (-1)) = None
  /\ maybeGetTripCount ∅ (literalLoop 0 1024 (-1)) <> Some 1024
  /\ maybeGetTripCount ∅ (literalLoop 1024 0 (-1)) = Some (-1024)
  /\ maybeGetTripCount ∅ (literalLoop 0 1024 1) = Some 1024.
Proof. split; [|split; [|split]]; try reflexivity. discriminate. Qed.

(** ** Total trip counts *)

Lemma Operation_parent_ind (P : Operation -> Prop) :
  (forall i v, P (MkOperation i v None)) ->
  (forall i v p, P p -> P (MkOperation i v (Some p))) ->
  forall op, P op.
Proof.
  intros Htop Hparent. fix IH 1.
  intros [i v [p|]]; [apply Hparent, IH | apply Htop].
Qed.

Lemma getEnclosingLoops_app (op : Operation) :
  forall ops, getEnclosingLoops op ops = ops ++ enclosingLoops op.
Proof.
  induction op as [i v | i v p IH] using Operation_parent_ind; intros ops; simpl.
  - rewrite app_nil_r. reflexivity.
  - rewrite IH. destruct (dynCastLoopLike p); [rewrite <- app_assoc|]; reflexivity.
Qed.

Lemma accumulate_product (cells : gmap N IntegerValueRange)
    (loops : list LoopLikeOpInterface) :
  forall accum,
    fold_left (fun accum loop =>
                 wrap64 (accum * default (kDefaultMaxTripCount + 1)
                                         (maybeGetTripCount cells loop)))
              loops (wrap64 accum)
    = wrap64 (accum * product (map (tripCountOrSentinel cells) loops)).
Proof.
  induction loops as [|l loops IH]; intros accum; simpl.
  - f_equal. lia.
  - rewrite wrap64_mul_l, IH. f_equal.
    unfold tripCountOrSentinel, kDefaultMaxTripCount.
    destruct (maybeGetTripCount cells l); simpl; ring.
Qed.

Lemma accumulate_exact (cells : gmap N IntegerValueRange)
    (loops : list LoopLikeOpInterface) :
  forall accum,
    Forall in_int64 (runningProducts accum (map (tripCountOrSentinel cells) loops)) ->
    fold_left (fun accum loop =>
                 wrap64 (accum * default (kDefaultMaxTripCount + 1)
                                         (maybeGetTripCount cells loop)))
              loops accum
    = accum * product (map (tripCountOrSentinel cells) loops).
Proof.
  induction loops as [|l loops IH]; intros accum Hfit; cbn [map product fold_right fold_left].
  - lia.
  - cbn [map runningProducts] in Hfit. inversion Hfit as [|? ? Hhere Hrest]; subst.
    assert (E : default (kDefaultMaxTripCount + 1) (maybeGetTripCount cells l)
                = tripCountOrSentinel cells l).
    { unfold tripCountOrSentinel, kDefaultMaxTripCount.
      destruct (maybeGetTripCount cells l); reflexivity. }
    rewrite E, (wrap64_id _ Hhere), (IH _ Hrest). unfold product. ring.
Qed.

(** C9 (as amended): the total trip count of a loop is accumulated in an
    [int64_t], from 1, by multiplying in the loop's own trip count and
    then that of every enclosing loop found by walking the parents
    outwards, an unknown one counting as 1025; it is the product of these
    counts whenever no multiplication of the accumulation leaves
    [int64_t]. *)
Theorem getTotalLoopTripCount_product
    (cells : gmap N IntegerValueRange) (loop : LoopLikeOpInterface)
    (loopOp : Operation) :
  let counts := map (tripCountOrSentinel cells) (loop :: enclosingLoops loopOp) in
  noOverflow counts ->
  getTotalLoopTripCount cells loop loopOp = product counts.
Proof.
  intros counts Hfit. unfold getTotalLoopTripCount. rewrite getEnclosingLoops_app.
  change ([loop] ++ enclosingLoops loopOp) with (loop :: enclosingLoops loopOp).
  rewrite (accumulate_exact cells (loop :: enclosingLoops loopOp) 1 Hfit).
  fold counts. lia.
Qed.

(** A loop of 1024 iterations inside a loop whose trip count is unknown:
    1024 * 1025. *)
Lemma getTotalLoopTripCount_product_witness :
  getTotalLoopTripCount ∅ (literalLoop 0 1024 1) nestedLoopOp = 1024 * 1025.
Proof.
  apply (getTotalLoopTripCount_product ∅ (literalLoop 0 1024 1) nestedLoopOp).
  repeat constructor; vm_compute; discriminate.
Defined.

(** C9 (as stated) fails: three nested loops over [i32] whose upper bound
    is unknown count 2147483647 iterations each, and the product of the
    three counts is not an [int64_t]: whatever is returned is not the
    product. *)
Lemma total_trip_count_overflow_counterexample :
  map (tripCountOrSentinel ∅) (loopToN :: enclosingLoops tripleLoopToNOp)
  = [2147483647; 2147483647; 2147483647]
  /\ ~ in_int64 (product (map (tripCountOrSentinel ∅)
                            (loopToN :: enclosingLoops tripleLoopToNOp)))
  /\ getTotalLoopTripCount ∅ loopToN tripleLoopToNOp
     <> product (map (tripCountOrSentinel ∅) (loopToN :: enclosingLoops tripleLoopToNOp)).
Proof.
  split; [vm_compute; reflexivity|]. split.
  - intros [_ H]. vm_compute in H. apply H. reflexivity.
  - vm_compute. discriminate.
Qed.

(** ** The range of a histogram *)

Lemma isNegative_zero (w : N) : APInt.isNegative (APInt.mk w 0) = false.
Proof.
  unfold APInt.isNegative; simpl. pose proof (pow2_pos (w - 1)).
  destruct (Z.leb_spec (pow2 (w - 1)) 0); [lia|]. apply andb_false_r.
Qed.

Lemma isNegative_all_ones (w : N) :
  (0 < w)%N -> APInt.isNegative (APInt.mk w (pow2 w - 1)) = true.
Proof.
  intros Hw. unfold APInt.isNegative; simpl.
  rewrite (pow2_double w Hw). pose proof (pow2_pos (w - 1)).
  destruct (N.eqb_spec w 0); [lia|]. simpl. apply Z.leb_le. lia.
Qed.

(** C1 (what the code computes): for every result of storage width
    [w > 0] of a histogram, the range set is unsigned [[0, 2^w - 1]] and
    signed [[0, -1]]: the upper signed bound is the all-ones pattern, which
    reads as -1 and never as [2^(w-1) - 1]. *)
Theorem inferResultRangesMaxNonNegSigned_bounds (resultType : MType) :
  let w := getStorageBitwidth resultType in
  (0 < w)%N ->
  exists r,
    inferResultRangesMaxNonNegSigned [resultType] = [r]
    /\ APInt.getSExtValue (ConstantIntRanges.smin r) = 0
    /\ APInt.getSExtValue (ConstantIntRanges.smax r) = -1
    /\ APInt.getZExtValue (ConstantIntRanges.umin r) = 0
    /\ APInt.getZExtValue (ConstantIntRanges.umax r) = pow2 w - 1
    /\ APInt.getSExtValue (ConstantIntRanges.smax r) <> pow2 (w - 1) - 1.
Proof.
  intros w Hw. eexists. split; [reflexivity|]. fold w.
  unfold APInt.sext, APInt.getZero, APInt.getMaxValue. simpl APInt.getBitWidth.
  rewrite N.eqb_refl.
  unfold ConstantIntRanges.fromSigned, APInt.isNonNegative.
  rewrite isNegative_zero, (isNegative_all_ones w Hw). simpl.
  unfold APInt.getSExtValue.
  rewrite isNegative_zero, (isNegative_all_ones w Hw). simpl.
  pose proof (pow2_pos (w - 1)). repeat split; lia.
Qed.

Lemma inferResultRangesMaxNonNegSigned_bounds_witness :
  exists r,
    inferResultRangesMaxNonNegSigned [RankedTensorType (IntegerType 32)] = [r]
    /\ APInt.getSExtValue (ConstantIntRanges.smin r) = 0
    /\ APInt.getSExtValue (ConstantIntRanges.smax r) = -1
    /\ APInt.getZExtValue (ConstantIntRanges.umin r) = 0
    /\ APInt.getZExtValue (ConstantIntRanges.umax r) = 4294967295
    /\ APInt.getSExtValue (ConstantIntRanges.smax r) <> 2147483647.
Proof.
  apply (inferResultRangesMaxNonNegSigned_bounds (RankedTensorType (IntegerType 32))).
  reflexivity.
Defined.

(** ** One assumption against an anchor *)

Lemma trunc_signed_min (w : N) :
  (0 < w)%N -> APInt.trunc w (minOf true w) = APInt.getSignedMinValue w.
Proof.
  intros Hw. unfold APInt.trunc, APInt.getSignedMinValue, minOf. f_equal.
  rewrite (pow2_double w Hw). pose proof (pow2_pos (w - 1)).
  rewrite (mod_window _ _ (-1)); lia.
Qed.

Lemma trunc_signed_max (w : N) :
  (0 < w)%N -> APInt.trunc w (maxOf true w) = APInt.getSignedMaxValue w.
Proof.
  intros Hw. unfold APInt.trunc, APInt.getSignedMaxValue, maxOf. f_equal.
  rewrite (pow2_double w Hw). pose proof (pow2_pos (w - 1)).
  rewrite Z.mod_small; lia.
Qed.

Lemma trunc_unsigned_min (w : N) : APInt.trunc w (minOf false w) = APInt.getMinValue w.
Proof.
  unfold APInt.trunc, APInt.getMinValue, minOf. f_equal.
Qed.

Lemma trunc_unsigned_max (w : N) : APInt.trunc w (maxOf false w) = APInt.getMaxValue w.
Proof.
  unfold APInt.trunc, APInt.getMaxValue, maxOf. f_equal.
  pose proof (pow2_pos w). rewrite Z.mod_small; lia.
Qed.

Lemma trunc_min (signed : bool) (w : N) :
  (0 < w)%N ->
  APInt.trunc w (minOf signed w) =
    if signed then APInt.getSignedMinValue w else APInt.getMinValue w.
Proof.
  destruct signed; intros Hw; [apply trunc_signed_min, Hw | apply trunc_unsigned_min].
Qed.

Lemma trunc_max (signed : bool) (w : N) :
  (0 < w)%N ->
  APInt.trunc w (maxOf signed w) =
    if signed then APInt.getSignedMaxValue w else APInt.getMaxValue w.
Proof.
  destruct signed; intros Hw; [apply trunc_signed_max, Hw | apply trunc_unsigned_max].
Qed.

Lemma trunc_add (w : N) (k d : Z) :
  APInt.add (APInt.trunc w k) d = APInt.trunc w (k + d).
Proof.
  unfold APInt.add, APInt.trunc; simpl. f_equal.
  apply Z.add_mod_idemp_l. pose proof (pow2_pos w). lia.
Qed.

Lemma trunc_sub (w : N) (k d : Z) :
  APInt.sub (APInt.trunc w k) d = APInt.trunc w (k - d).
Proof.
  unfold APInt.sub, APInt.trunc; simpl. f_equal.
  apply Zminus_mod_idemp_l.
Qed.

Lemma trunc_mod (w : N) (k : Z) : APInt.trunc w (k mod pow2 w) = APInt.trunc w k.
Proof.
  unfold APInt.trunc. f_equal. apply Z.mod_mod. pose proof (pow2_pos w). lia.
Qed.

Lemma pow2_divides_64 (w : N) : (w <= 64)%N -> 2 ^ 64 = pow2 w * 2 ^ (64 - Z.of_N w).
Proof.
  intros Hw. unfold pow2. rewrite <- Z.pow_add_r by lia. f_equal. lia.
Qed.

(** The constructor [{bitWidth, constValue, isSigned}] keeps the low bits of
    the constant. *)
Lemma make_constant (w : N) (c : Z) (signed : bool) :
  (w <= 64)%N -> in_int64 c ->
  APInt.make w c signed = APInt.trunc w (constantRead signed w c).
Proof.
  intros Hw Hc. unfold APInt.make, constantRead. destruct signed.
  - rewrite wrap64_id by exact Hc. reflexivity.
  - rewrite trunc_mod. unfold APInt.trunc. f_equal.
    rewrite (pow2_divides_64 w Hw).
    pose proof (pow2_pos w).
    assert (0 < 2 ^ (64 - Z.of_N w)) by (apply Z.pow_pos_nonneg; lia).
    rewrite Z.rem_mul_r by lia.
    rewrite Z.mul_comm, Z.mod_add by lia. apply Z.mod_mod. lia.
Qed.

(** The equation behind the table: with a constant opposite the anchor and
    a predicate other than [ne], the range returned is the spec's interval
    reduced to the width of the anchor. *)
Lemma maybeGetAssumedRange_encoded
    (loc : N) (parent : option Operation) (pred : CmpIPredicate.t)
    (lhs rhs anchor : Value) (c : Z) (rel : Relation) :
  let w := getStorageBitwidth (getType anchor) in
  let signed := isSignedPredicate pred in
  let anchorOnLeft := Value_eqb lhs anchor in
  (0 < w)%N -> (w <= 64)%N -> in_int64 c ->
  getConstantIntValue (if anchorOnLeft then rhs else lhs) = Some c ->
  relationOf pred = Some rel ->
  maybeGetAssumedRange (MkOperation loc (CmpIOp pred lhs rhs) parent) anchor =
    ([], Some (encodeInterval w signed
                 (specInterval rel anchorOnLeft (constantRead signed w c)
                    (minOf signed w) (maxOf signed w)))).
Proof.
  intros w signed anchorOnLeft Hw Hw64 Hc Hconst Hrel.
  unfold maybeGetAssumedRange. cbn [opView].
  fold anchorOnLeft. rewrite Hconst. fold w.
  change (match pred with
          | CmpIPredicate.uge | CmpIPredicate.ugt | CmpIPredicate.ule
          | CmpIPredicate.ult => false
          | _ => true
          end) with signed.
  rewrite (make_constant w c signed Hw64 Hc).
  rewrite <- (trunc_min signed w Hw), <- (trunc_max signed w Hw).
  rewrite trunc_add, trunc_sub.
  unfold encodeInterval.
  destruct pred; simpl in Hrel; inversion Hrel; subst rel;
    destruct anchorOnLeft; cbn [specInterval fst snd]; try reflexivity.
  - unfold ConstantIntRanges.range, ConstantIntRanges.fromSigned,
      ConstantIntRanges.constant. simpl.
    rewrite eqb_reflx. unfold APInt.ugt. destruct (APInt.ult _ _); reflexivity.
  - unfold ConstantIntRanges.range, ConstantIntRanges.fromSigned,
      ConstantIntRanges.constant. simpl.
    rewrite eqb_reflx. unfold APInt.ugt. destruct (APInt.ult _ _); reflexivity.
Qed.

Lemma lowerRead_encode (w : N) (signed : bool) (i : Z * Z) :
  lowerRead signed (encodeInterval w signed i) = readAs signed (APInt.trunc w (fst i)).
Proof.
  unfold lowerRead, encodeInterval, readAs, ConstantIntRanges.range,
    ConstantIntRanges.fromSigned, ConstantIntRanges.fromUnsigned.
  destruct signed; destruct (Bool.eqb _ _); reflexivity.
Qed.

Lemma upperRead_encode (w : N) (signed : bool) (i : Z * Z) :
  upperRead signed (encodeInterval w signed i) = readAs signed (APInt.trunc w (snd i)).
Proof.
  unfold upperRead, encodeInterval, readAs, ConstantIntRanges.range,
    ConstantIntRanges.fromSigned, ConstantIntRanges.fromUnsigned.
  destruct signed; destruct (Bool.eqb _ _); reflexivity.
Qed.

(** A number within the extremes of the width reads back from its
    pattern. *)
Lemma readAs_trunc (w : N) (signed : bool) (z : Z) :
  (0 < w)%N -> minOf signed w <= z <= maxOf signed w ->
  readAs signed (APInt.trunc w z) = z.
Proof.
  intros Hw. unfold minOf, maxOf, readAs, APInt.getSExtValue, APInt.isNegative,
    APInt.trunc. simpl.
  pose proof (pow2_pos (w - 1)) as HP. rewrite (pow2_double w Hw).
  destruct signed; intros Hz.
  - destruct (N.eqb_spec w 0); [lia|]. simpl.
    destruct (Z_lt_le_dec z 0) as [Hneg|Hpos].
    + rewrite (mod_window _ _ (-1)) by lia.
      destruct (Z.leb_spec (pow2 (w - 1)) (z - -1 * (2 * pow2 (w - 1)))); lia.
    + rewrite Z.mod_small by lia.
      destruct (Z.leb_spec (pow2 (w - 1)) z); lia.
  - apply Z.mod_small. lia.
Qed.

Lemma trunc_max_plus_one (w : N) (signed : bool) :
  (0 < w)%N -> APInt.trunc w (maxOf signed w + 1) = APInt.trunc w (minOf signed w).
Proof.
  intros Hw. unfold APInt.trunc, maxOf, minOf. f_equal.
  pose proof (pow2_pos (w - 1)) as HP. rewrite (pow2_double w Hw).
  destruct signed.
  - rewrite Z.mod_small by lia. rewrite (mod_window _ _ (-1)); lia.
  - rewrite (mod_window _ _ 1) by lia. rewrite Z.mod_small; lia.
Qed.

Lemma trunc_min_minus_one (w : N) (signed : bool) :
  (0 < w)%N -> APInt.trunc w (minOf signed w - 1) = APInt.trunc w (maxOf signed w).
Proof.
  intros Hw. unfold APInt.trunc, maxOf, minOf. f_equal.
  pose proof (pow2_pos (w - 1)) as HP. rewrite (pow2_double w Hw).
  destruct signed.
  - rewrite (mod_window _ _ (-1)) by lia. rewrite Z.mod_small; lia.
  - rewrite (mod_window _ _ (-1)) by lia. rewrite Z.mod_small; lia.
Qed.

(** From extreme to extreme is the full range of the width. *)
Lemma encodeInterval_full (w : N) (signed : bool) :
  (0 < w)%N ->
  encodeInterval w signed (minOf signed w, maxOf signed w) = ConstantIntRanges.maxRange w.
Proof.
  intros Hw. unfold encodeInterval. cbn [fst snd].
  rewrite (trunc_min signed w Hw), (trunc_max signed w Hw).
  assert (Hmin : APInt.isNegative (APInt.mk w (pow2 (w - 1))) = true).
  { unfold APInt.isNegative; simpl. destruct (N.eqb_spec w 0); [lia|]. simpl.
    apply Z.leb_le. lia. }
  assert (Hmax : APInt.isNegative (APInt.mk w (pow2 (w - 1) - 1)) = false).
  { unfold APInt.isNegative; simpl. destruct (N.eqb_spec w 0); [lia|]. simpl.
    apply Z.leb_gt. lia. }
  destruct signed;
    unfold ConstantIntRanges.maxRange, ConstantIntRanges.range,
      ConstantIntRanges.fromSigned, ConstantIntRanges.fromUnsigned,
      APInt.isNonNegative, APInt.getZero, APInt.getMaxValue, APInt.getMinValue,
      APInt.getSignedMinValue, APInt.getSignedMaxValue;
    rewrite ?Hmin, ?Hmax, ?isNegative_zero, ?(isNegative_all_ones w Hw);
    reflexivity.
Qed.

(** C8 (as amended): for an assumption with a constant on one side and the
    anchor, of 1 to 64 bits, on the other, with [k] the constant read at
    the width of the anchor under the signedness of the predicate, the
    range returned is built from the two bounds of the table of section
    4.2, each taken modulo [2^w], between the unsigned extremes for an
    unsigned predicate and the signed ones for a signed predicate; a bound
    of the range reads back as the table's number whenever that number
    lies within the extremes of the width; with no constant opposite the
    anchor no range is derived. *)
Theorem maybeGetAssumedRange_table
    (loc : N) (parent : option Operation) (pred : CmpIPredicate.t)
    (lhs rhs anchor : Value) :
  let w := getStorageBitwidth (getType anchor) in
  let signed := isSignedPredicate pred in
  let anchorOnLeft := Value_eqb lhs anchor in
  let assumption := MkOperation loc (CmpIOp pred lhs rhs) parent in
  (0 < w)%N -> (w <= 64)%N ->
  (forall c rel,
      getConstantIntValue (if anchorOnLeft then rhs else lhs) = Some c ->
      in_int64 c ->
      relationOf pred = Some rel ->
      let k := constantRead signed w c in
      let i := specInterval rel anchorOnLeft k (minOf signed w) (maxOf signed w) in
      maybeGetAssumedRange assumption anchor = ([], Some (encodeInterval w signed i))
      /\ (minOf signed w <= fst i <= maxOf signed w ->
          lowerRead signed (encodeInterval w signed i) = fst i)
      /\ (minOf signed w <= snd i <= maxOf signed w ->
          upperRead signed (encodeInterval w signed i) = snd i))
  /\ (getConstantIntValue (if anchorOnLeft then rhs else lhs) = None ->
      maybeGetAssumedRange assumption anchor = ([], None)).
Proof.
  intros w signed anchorOnLeft assumption Hw Hw64. split.
  - intros c rel Hconst Hc Hrel k i. split; [|split].
    + apply maybeGetAssumedRange_encoded; assumption.
    + intros Hi. rewrite lowerRead_encode. apply readAs_trunc; assumption.
    + intros Hi. rewrite upperRead_encode. apply readAs_trunc; assumption.
  - intros Hnone. unfold assumption, maybeGetAssumedRange. cbn [opView].
    fold anchorOnLeft. rewrite Hnone. reflexivity.
Qed.

(** [%x >= 5] gives [[5, signed max]]; with two non-constant operands
    nothing is derived. *)
Lemma maybeGetAssumedRange_table_witness :
  (exists r,
      maybeGetAssumedRange
        (MkOperation 100 (CmpIOp CmpIPredicate.sge x32 (c32 5)) None) x32 = ([], Some r)
      /\ lowerRead true r = 5 /\ upperRead true r = 2147483647)
  /\ maybeGetAssumedRange
       (MkOperation 100 (CmpIOp CmpIPredicate.sge x32 y32) None) x32 = ([], None).
Proof.
  pose proof (maybeGetAssumedRange_table 100 None CmpIPredicate.sge x32 (c32 5) x32
                ltac:(reflexivity) ltac:(vm_compute; discriminate)) as [Hc _].
  pose proof (maybeGetAssumedRange_table 100 None CmpIPredicate.sge x32 y32 x32
                ltac:(reflexivity) ltac:(vm_compute; discriminate)) as [_ Hn].
  split.
  - destruct (Hc 5 GreaterEqual eq_refl
                ltac:(split; vm_compute; discriminate) eq_refl) as (E & Hlo & Hhi).
    eexists. split; [exact E|]. split.
    + apply Hlo. split; vm_compute; discriminate.
    + apply Hhi. split; vm_compute; discriminate.
  - apply Hn. reflexivity.
Defined.

(** C8 (as stated) fails: for [%x > 2147483647] at 32 bits the table gives
    the interval from 2147483648 to 2147483647, and the range returned
    runs from -2147483648 to 2147483647. *)
Lemma maybeGetAssumedRange_table_extreme_counterexample :
  specInterval Greater true 2147483647 (minOf true 32) (maxOf true 32)
  = (2147483648, 2147483647)
  /\ exists r,
       maybeGetAssumedRange
         (MkOperation 100 (CmpIOp CmpIPredicate.sgt x32 (c32 2147483647)) None) x32
       = ([], Some r)
       /\ lowerRead true r = -2147483648
       /\ upperRead true r = 2147483647
       /\ lowerRead true r <> 2147483648.
Proof.
  split; [reflexivity|].
  eexists. split; [reflexivity|]. split; [reflexivity|]. split; [reflexivity|].
  vm_compute. discriminate.
Qed.

(** ** The bounds [apVal + 1] and [apVal - 1] *)

Lemma encodeInterval_ext (w : N) (signed : bool) (lo lo' hi hi' : Z) :
  APInt.trunc w lo = APInt.trunc w lo' -> APInt.trunc w hi = APInt.trunc w hi' ->
  encodeInterval w signed (lo, hi) = encodeInterval w signed (lo', hi').
Proof. unfold encodeInterval; cbn [fst snd]. intros -> ->. reflexivity. Qed.

(** C6 (as amended): [apVal + 1] and [apVal - 1] are computed at the width
    of the anchor, modulo [2^w].  For a strict predicate and a constant [k]
    within the extremes of the width, the derived bound is [k + 1] (or
    [k - 1]) exactly when that number is still within the extremes; at
    [k = max] the bound [k + 1] wraps to [min], at [k = min] the bound
    [k - 1] wraps to [max], and the range derived is then the full range of
    the width. *)
Theorem maybeGetAssumedRange_strict_bound
    (loc : N) (parent : option Operation) (pred : CmpIPredicate.t)
    (lhs rhs anchor : Value) (c : Z) (rel : Relation) :
  let w := getStorageBitwidth (getType anchor) in
  let signed := isSignedPredicate pred in
  let anchorOnLeft := Value_eqb lhs anchor in
  let k := constantRead signed w c in
  let min := minOf signed w in
  let max := maxOf signed w in
  (0 < w)%N -> (w <= 64)%N -> in_int64 c -> min <= k <= max ->
  getConstantIntValue (if anchorOnLeft then rhs else lhs) = Some c ->
  relationOf pred = Some rel -> rel = Greater \/ rel = Less ->
  exists r,
    maybeGetAssumedRange (MkOperation loc (CmpIOp pred lhs rhs) parent) anchor
      = ([], Some r)
    /\ if addsOne rel anchorOnLeft
       then lowerRead signed r = (if k =? max then min else k + 1)
            /\ upperRead signed r = max
            /\ (k = max -> r = ConstantIntRanges.maxRange w)
       else lowerRead signed r = min
            /\ upperRead signed r = (if k =? min then max else k - 1)
            /\ (k = min -> r = ConstantIntRanges.maxRange w).
Proof.
  intros w signed anchorOnLeft k min max Hw Hw64 Hc Hk Hconst Hrel Hstrict.
  eexists. split.
  { apply maybeGetAssumedRange_encoded; eassumption. }
  fold w signed anchorOnLeft k min max.
  assert (Hmm : min <= max).
  { lia. }
  assert (Hmin : readAs signed (APInt.trunc w min) = min).
  { apply readAs_trunc; [exact Hw | fold min max; lia]. }
  assert (Hmax : readAs signed (APInt.trunc w max) = max).
  { apply readAs_trunc; [exact Hw | fold min max; lia]. }
  assert (Hplus : readAs signed (APInt.trunc w (k + 1)) = (if k =? max then min else k + 1)).
  { destruct (Z.eqb_spec k max) as [->|Hne].
    - unfold max. rewrite (trunc_max_plus_one w signed Hw). exact Hmin.
    - apply readAs_trunc; [exact Hw | fold min max; lia]. }
  assert (Hminus : readAs signed (APInt.trunc w (k - 1)) = (if k =? min then max else k - 1)).
  { destruct (Z.eqb_spec k min) as [->|Hne].
    - unfold min. rewrite (trunc_min_minus_one w signed Hw). exact Hmax.
    - apply readAs_trunc; [exact Hw | fold min max; lia]. }
  rewrite lowerRead_encode, upperRead_encode.
  destruct Hstrict as [-> | ->]; destruct anchorOnLeft; cbn [addsOne specInterval fst snd];
    (split; [assumption | split; [assumption|]]); intros ->.
  - rewrite <- (encodeInterval_full w signed Hw).
    apply encodeInterval_ext; [apply trunc_max_plus_one, Hw | reflexivity].
  - rewrite <- (encodeInterval_full w signed Hw).
    apply encodeInterval_ext; [reflexivity | apply trunc_min_minus_one, Hw].
  - rewrite <- (encodeInterval_full w signed Hw).
    apply encodeInterval_ext; [reflexivity | apply trunc_min_minus_one, Hw].
  - rewrite <- (encodeInterval_full w signed Hw).
    apply encodeInterval_ext; [apply trunc_max_plus_one, Hw | reflexivity].
Qed.

(** [%x > 127] at eight bits: the lower bound wraps to -128 and the range
    is the full one. *)
Lemma maybeGetAssumedRange_strict_bound_witness :
  exists r,
    maybeGetAssumedRange assume_x8_sgt_127 x8 = ([], Some r)
    /\ lowerRead true r = -128
    /\ upperRead true r = 127
    /\ r = ConstantIntRanges.maxRange 8.
Proof.
  destruct (maybeGetAssumedRange_strict_bound 100 None CmpIPredicate.sgt x8 (c8 127) x8
              127 Greater
              ltac:(reflexivity) ltac:(vm_compute; discriminate)
              ltac:(split; vm_compute; discriminate)
              ltac:(split; vm_compute; discriminate)
              eq_refl eq_refl (or_introl eq_refl)) as (r & E & Hlo & Hhi & Hfull).
  exists r. split; [exact E|]. split; [exact Hlo|]. split; [exact Hhi|].
  apply Hfull. reflexivity.
Defined.

(** C6 (as stated) fails: it is not so that for every width and every
    constant within the signed extremes the bound derived from [k + 1]
    reads [k + 1], nor that the bound derived from [k - 1] reads [k - 1]
    for every unsigned constant. *)
Lemma apVal_plus_minus_one_wraps_counterexample :
  (exists r,
      maybeGetAssumedRange assume_x8_sgt_127 x8 = ([], Some r)
      /\ lowerRead true r = -128 /\ lowerRead true r <> 127 + 1)
  /\ (exists r,
         maybeGetAssumedRange assume_x8_ult_0 x8 = ([], Some r)
         /\ upperRead false r = 255 /\ upperRead false r <> 0 - 1).
Proof.
  split; eexists; (split; [reflexivity|]); split; try reflexivity; vm_compute; discriminate.
Qed.

(** ** Several assumptions on one anchor *)

Lemma member_fold (matching : list Operation) (anchor : Value) :
  forall remarks start,
    snd (fold_left
           (fun '(remarks, constIntRange) assumption =>
              let '(rs, constIntRange_) := maybeGetAssumedRange assumption anchor in
              (remarks ++ rs,
               match constIntRange_ with
               | Some r => ConstantIntRanges.intersection constIntRange r
               | None => constIntRange
               end))
           matching (remarks, start))
    = intersectAll start (derivedRanges matching anchor).
Proof.
  induction matching as [|a matching IH]; intros remarks start; [reflexivity|].
  cbn [fold_left derivedRanges].
  destruct (maybeGetAssumedRange a anchor) as [rs [r|]]; cbn [snd];
    rewrite IH; reflexivity.
Qed.

Lemma member_value (asm : gmap N (list Operation)) (anchor : Value) :
  snd (TritonIntegerRangeAnalysis.maybeGetAssumedRange asm anchor) =
    match TritonIntegerRangeAnalysis.lookupAssumptions asm anchor with
    | [] => None
    | matching =>
        Some (intersectAll
                (ConstantIntRanges.maxRange (getStorageBitwidth (getType anchor)))
                (derivedRanges matching anchor))
    end.
Proof.
  unfold TritonIntegerRangeAnalysis.maybeGetAssumedRange.
  destruct (TritonIntegerRangeAnalysis.lookupAssumptions asm anchor) as [|a l] eqn:E;
    [reflexivity|].
  rewrite <- (member_fold (a :: l) anchor [] _).
  destruct (fold_left _ (a :: l) _) as [rs r]. reflexivity.
Qed.

Lemma widthOf_range (a b : APInt.t) (signed : bool) (w : N) :
  APInt.getBitWidth a = w -> APInt.getBitWidth b = w ->
  widthOf (ConstantIntRanges.range a b signed) = w.
Proof.
  intros Ha Hb.
  unfold widthOf, ConstantIntRanges.range, ConstantIntRanges.fromSigned,
    ConstantIntRanges.fromUnsigned.
  destruct signed; destruct (Bool.eqb _ _); simpl; try assumption.
  destruct (APInt.ult a b); assumption.
Qed.

Lemma widthOf_maxRange (w : N) : widthOf (ConstantIntRanges.maxRange w) = w.
Proof.
  unfold ConstantIntRanges.maxRange.
  apply (widthOf_range _ _ false); reflexivity.
Qed.

(** Every range derived from an assumption is stored at the width of the
    anchor. *)
Lemma widthOf_derived (assumption : Operation) (anchor : Value) (r : ConstantIntRanges.t) :
  snd (maybeGetAssumedRange assumption anchor) = Some r ->
  widthOf r = getStorageBitwidth (getType anchor).
Proof.
  unfold maybeGetAssumedRange.
  destruct (opView assumption) as [pred lhs rhs| |]; [|discriminate..].
  destruct (getConstantIntValue _) as [c|]; [|discriminate].
  destruct pred, (Value_eqb lhs anchor); cbn [snd]; intros E;
    try discriminate E; inversion E; subst r;
    first [ apply (widthOf_range _ _ true); reflexivity
          | apply (widthOf_range _ _ false); reflexivity
          | reflexivity ].
Qed.

(** On ranges of non-zero width, intersection is intersection of the sets
    of patterns. *)
Lemma contains_intersection (a b : ConstantIntRanges.t) (v : APInt.t) :
  widthOf a <> 0%N -> widthOf b <> 0%N ->
  contains (ConstantIntRanges.intersection a b) v <-> contains a v /\ contains b v.
Proof.
  unfold widthOf, ConstantIntRanges.intersection. intros Ha Hb.
  destruct (N.eqb_spec (APInt.getBitWidth (ConstantIntRanges.umin a)) 0); [contradiction|].
  destruct (N.eqb_spec (APInt.getBitWidth (ConstantIntRanges.umin b)) 0); [contradiction|].
  unfold contains, APInt.ugt, APInt.ult, APInt.sgt, APInt.slt; simpl.
  repeat match goal with |- context [if ?x <? ?y then _ else _] =>
    destruct (Z.ltb_spec x y) end; lia.
Qed.

Lemma widthOf_intersection (a b : ConstantIntRanges.t) (w : N) :
  w <> 0%N -> widthOf a = w -> widthOf b = w ->
  widthOf (ConstantIntRanges.intersection a b) = w.
Proof.
  unfold widthOf, ConstantIntRanges.intersection. intros Hw Ha Hb.
  rewrite Ha, Hb. destruct (N.eqb_spec w 0); [contradiction|]. simpl.
  destruct (APInt.ugt _ _); assumption.
Qed.

Lemma contains_intersectAll (w : N) (rs : list ConstantIntRanges.t) (v : APInt.t) :
  w <> 0%N -> Forall (fun r => widthOf r = w) rs ->
  forall start, widthOf start = w ->
    contains (intersectAll start rs) v <->
    contains start v /\ Forall (fun r => contains r v) rs.
Proof.
  intros Hw Hrs. induction Hrs as [|r rs Hr Hrs IH]; intros start Hstart; simpl.
  - split; [intros H; split; [exact H | constructor] | intros [H _]; exact H].
  - rewrite IH by (apply widthOf_intersection; assumption).
    rewrite contains_intersection by congruence.
    split.
    + intros [[H1 H2] H3]. split; [exact H1 | constructor; assumption].
    + intros [H1 H2]. inversion H2; subst. tauto.
Qed.

Lemma Forall_widthOf_derived (matching : list Operation) (anchor : Value) :
  Forall (fun r => widthOf r = getStorageBitwidth (getType anchor))
         (derivedRanges matching anchor).
Proof.
  induction matching as [|a matching IH]; [constructor|].
  cbn [derivedRanges].
  destruct (snd (maybeGetAssumedRange a anchor)) as [r|] eqn:E; [|exact IH].
  constructor; [eapply widthOf_derived; exact E | exact IH].
Qed.

(** ** The visit counters of the driver *)

Section DriverProperties.

Import TritonIntegerRangeAnalysis.

Lemma visitsOf_insert_same (a : t) (l : N) (c c' : Value) (n : Z)
    (trips : gmap N Z) (cs : gmap N IntegerValueRange) :
  valueId c' = valueId c ->
  visitsOf (mk (assumptions a) trips (<[(l, valueId c) := n]> (loopVisits a)) cs) l c' = n.
Proof.
  intros E. unfold visitsOf; simpl. rewrite E, lookup_insert_eq. reflexivity.
Qed.

Lemma visitsOf_insert_other (a : t) (l : N) (c c' : Value) (n : Z)
    (trips : gmap N Z) (cs : gmap N IntegerValueRange) :
  valueId c' <> valueId c ->
  visitsOf (mk (assumptions a) trips (<[(l, valueId c) := n]> (loopVisits a)) cs) l c'
  = visitsOf a l c'.
Proof.
  intros E. unfold visitsOf; simpl. rewrite lookup_insert_ne; [reflexivity|].
  intros H. inversion H. congruence.
Qed.

(** C2 (as amended): for a pair attributable to a loop whose recorded trip
    count exceeds 1024, the pair is skipped when the counter of the cell
    has reached the recorded trip count; otherwise the cell is joined with
    the max-range of the operand, and the counter is incremented exactly
    when that join changed the cell. *)
Theorem visitPair_widening (a : t) (l : N) (oper argLat : Value) :
  let a' := visitPair (Some l) a oper argLat in
  let joined := join (cells a) argLat (getMaxRange oper) in
  tripCountOf a l > kDefaultMaxTripCount ->
  if visitsOf a l argLat >=? tripCountOf a l
  then a' = a
  else cells a' = snd joined
       /\ visitsOf a' l argLat
          = visitsOf a l argLat + (if isChange (fst joined) then 1 else 0)
       /\ tripCountOf a' l = tripCountOf a l.
Proof.
  intros a' joined Hbig. unfold a', visitPair.
  destruct (visitsOf a l argLat >=? tripCountOf a l); [reflexivity|].
  destruct (Z.gtb_spec (tripCountOf a l) kDefaultMaxTripCount) as [_|?]; [|lia].
  fold joined. destruct joined as [[|] cells']; cbn [isChange fst snd].
  - split; [reflexivity|]. split; [|reflexivity].
    unfold visitsOf, withCells. simpl. lia.
  - split; [reflexivity|]. split; [|reflexivity].
    apply visitsOf_insert_same. reflexivity.
Qed.

Lemma visitPair_widening_witness :
  let a' := visitPair (Some 50%N) bigLoopRecorded initValue iterArg in
  lookupCell (cells a') iterArg = getMaxRange initValue
  /\ visitsOf a' 50 iterArg = visitsOf bigLoopRecorded 50 iterArg + 1.
Proof.
  pose proof (visitPair_widening bigLoopRecorded 50 initValue iterArg
                ltac:(vm_compute; reflexivity)) as H.
  cbv zeta in H.
  assert (E : (visitsOf bigLoopRecorded 50 iterArg >=? tripCountOf bigLoopRecorded 50)
              = false)
    by (vm_compute; reflexivity).
  rewrite E in H. destruct H as (Hc & Hv & _).
  split.
  - rewrite Hc. vm_compute. reflexivity.
  - rewrite Hv. vm_compute. reflexivity.
Defined.

(** C2 (as stated) fails: the first visit of the loop records the trip
    count 2048, joins the cell of [%arg] with the max-range, and the join,
    which changes the cell, increments the counter from 0 to 1. *)
Lemma widening_increments_counter_counterexample :
  let a' :=
    visitRegionSuccessors noNonControlFlowArguments emptyAnalysis true bigLoopOp
      [iterArg] [mkPredecessor (Some [initValue]) [iterArg]] in
  tripCountOf a' (opId bigLoopOp) = 2048
  /\ lookupCell (cells emptyAnalysis) iterArg = None
  /\ lookupCell (cells a') iterArg = getMaxRange initValue
  /\ visitsOf emptyAnalysis (opId bigLoopOp) iterArg = 0
  /\ visitsOf a' (opId bigLoopOp) iterArg = 1.
Proof. vm_compute. repeat split. Qed.

Lemma visitPair_loopTripCounts (loop : option N) (a : t) (oper argLat : Value) :
  loopTripCounts (visitPair loop a oper argLat) = loopTripCounts a.
Proof.
  unfold visitPair. destruct loop as [l|]; [|reflexivity].
  destruct (visitsOf a l argLat >=? tripCountOf a l); [reflexivity|].
  destruct (tripCountOf a l >? kDefaultMaxTripCount);
    destruct (join _ _ _) as [[|] cells']; reflexivity.
Qed.

(** A pair moves a counter by at most one, and only from below the
    recorded trip count. *)
Lemma visitPair_visits (a : t) (l : N) (oper argLat c : Value) :
  visitsOf (visitPair (Some l) a oper argLat) l c
  <= Z.max (visitsOf a l c) (tripCountOf a l).
Proof.
  unfold visitPair.
  destruct (Z.geb_spec (visitsOf a l argLat) (tripCountOf a l)) as [Hge|Hlt]; [lia|].
  assert (Hstep :
    forall cells', visitsOf (mk (assumptions a) (loopTripCounts a)
                        (<[(l, valueId argLat) := visitsOf a l argLat + 1]> (loopVisits a))
                        cells') l c
                   <= Z.max (visitsOf a l c) (tripCountOf a l)).
  { intros cells'. destruct (N.eq_dec (valueId c) (valueId argLat)) as [E|E].
    - rewrite visitsOf_insert_same by exact E.
      unfold visitsOf in *. rewrite E. lia.
    - rewrite visitsOf_insert_other by exact E. lia. }
  destruct (tripCountOf a l >? kDefaultMaxTripCount);
    destruct (join _ _ _) as [[|] cells']; cbn [isChange];
    try apply Hstep; unfold visitsOf, withCells; simpl; lia.
Qed.

Lemma visitPairs_loopTripCounts (loop : option N) (pairs : list (Value * Value)) :
  forall a, loopTripCounts (visitPairs loop a pairs) = loopTripCounts a.
Proof.
  induction pairs as [|[oper argLat] pairs IH]; intros a; [reflexivity|].
  unfold visitPairs in *. cbn [fold_left]. rewrite IH.
  apply visitPair_loopTripCounts.
Qed.

Lemma visitPairs_visits (l : N) (c : Value) (pairs : list (Value * Value)) :
  forall a,
    visitsOf (visitPairs (Some l) a pairs) l c
    <= Z.max (visitsOf a l c) (tripCountOf a l).
Proof.
  induction pairs as [|[oper argLat] pairs IH]; intros a.
  - unfold visitPairs; simpl. lia.
  - unfold visitPairs in *. cbn [fold_left].
    specialize (IH (visitPair (Some l) a oper argLat)).
    pose proof (visitPair_visits a l oper argLat c) as H1.
    assert (H2 : tripCountOf (visitPair (Some l) a oper argLat) l = tripCountOf a l).
    { unfold tripCountOf. rewrite visitPair_loopTripCounts. reflexivity. }
    lia.
Qed.

Lemma setAllToEntryStates_counters (lattices : list Value) :
  forall a,
    loopTripCounts (setAllToEntryStates a lattices) = loopTripCounts a
    /\ loopVisits (setAllToEntryStates a lattices) = loopVisits a.
Proof.
  induction lattices as [|v lattices IH]; intros a; [split; reflexivity|].
  unfold setAllToEntryStates in *. cbn [fold_left].
  destruct (IH (setToEntryState a v)) as [H1 H2]. rewrite H1, H2.
  unfold setToEntryState. destruct (getElementTypeOrSelf (getType v)); split; reflexivity.
Qed.

Section DriverCounters.

Variable visitNonControlFlowArguments :
  Operation -> bool -> nat -> nat -> list Value ->
  gmap N IntegerValueRange -> gmap N IntegerValueRange.

Lemma visitPredecessors_loopTripCounts (isBlockStart : bool) (branchOp : Operation)
    (loop : option N) (lattices : list Value) (predecessors : list Predecessor) :
  forall a,
    loopTripCounts (visitPredecessors visitNonControlFlowArguments isBlockStart
                      branchOp loop lattices predecessors a)
    = loopTripCounts a.
Proof.
  induction predecessors as [|op rest IH]; intros a; [reflexivity|].
  cbn [visitPredecessors].
  destruct (successorOperands op) as [operands|];
    [|apply setAllToEntryStates_counters].
  destruct (bool_decide _); rewrite IH, visitPairs_loopTripCounts; reflexivity.
Qed.

Lemma visitPredecessors_visits (isBlockStart : bool) (branchOp : Operation)
    (l : N) (c : Value) (lattices : list Value) (predecessors : list Predecessor) :
  forall a,
    visitsOf (visitPredecessors visitNonControlFlowArguments isBlockStart
                branchOp (Some l) lattices predecessors a) l c
    <= Z.max (visitsOf a l c) (tripCountOf a l).
Proof.
  induction predecessors as [|op rest IH]; intros a.
  - simpl. lia.
  - cbn [visitPredecessors].
    destruct (successorOperands op) as [operands|].
    + destruct (bool_decide _).
      * etransitivity; [apply IH|].
        pose proof (visitPairs_visits l c (zip operands (drop 0 lattices)) a).
        unfold tripCountOf in *. rewrite visitPairs_loopTripCounts. lia.
      * etransitivity; [apply IH|].
        match goal with |- context [visitPairs (Some l) ?s ?p] =>
          pose proof (visitPairs_visits l c p s) as H;
          unfold tripCountOf in *; rewrite (visitPairs_loopTripCounts (Some l) p s)
        end.
        unfold visitsOf, withCells in *. simpl in *. lia.
    + destruct (setAllToEntryStates_counters lattices a) as [_ H2].
      unfold visitsOf. rewrite H2. lia.
Qed.

(** The first visit of a loop leaves a counter where it was or sets it
    to zero. *)
Lemma initializeLoop_visits (a : t) (l : N) (lattices : list Value) (c : Value) :
  visitsOf (initializeLoop a l lattices) l c = 0
  \/ visitsOf (initializeLoop a l lattices) l c = visitsOf a l c.
Proof.
  unfold initializeLoop, visitsOf. simpl.
  generalize (loopVisits a) as visits. induction lattices as [|v lattices IH]; intros visits.
  - right. reflexivity.
  - cbn [fold_left]. destruct (IH (<[(l, valueId v) := 0]> visits)) as [H|H]; [left; exact H|].
    rewrite H. destruct (N.eq_dec (valueId c) (valueId v)) as [E|E].
    + left. rewrite E, lookup_insert_eq. reflexivity.
    + right. rewrite lookup_insert_ne; [reflexivity|]. intros X; inversion X; congruence.
Qed.

(** The bound recorded after the trip-count block: the smaller of the
    bound recorded before (the largest [int64_t] on the first visit) and
    the estimate of this visit. *)
Lemma updateLoopTripCount_bound (a : t) (branchOp : Operation)
    (loop : LoopLikeOpInterface) (lattices : list Value) :
  tripCountOf (updateLoopTripCount a branchOp loop lattices) (opId branchOp)
  = Z.min (match loopTripCounts a !! opId branchOp with
           | Some bound => bound
           | None => int64_max
           end)
          (getTotalLoopTripCount (cells a) loop branchOp).
Proof.
  unfold updateLoopTripCount, tripCountOf.
  destruct (loopTripCounts a !! opId branchOp) as [bound|] eqn:E.
  - rewrite bool_decide_true by eauto.
    rewrite E. cbn [default from_option id].
    destruct (Z.ltb_spec (getTotalLoopTripCount (cells a) loop branchOp) bound);
      cbn [loopTripCounts]; rewrite ?lookup_insert_eq, ?E; cbn [default from_option id]; lia.
  - rewrite bool_decide_false by (intros [? ?]; discriminate).
    unfold initializeLoop. cbn [loopTripCounts cells].
    rewrite lookup_insert_eq. cbn [default from_option id].
    destruct (Z.ltb_spec (getTotalLoopTripCount (cells a) loop branchOp) int64_max);
      cbn [loopTripCounts]; rewrite ?lookup_insert_eq; cbn [default from_option id]; lia.
Qed.

Lemma updateLoopTripCount_visits (a : t) (branchOp : Operation)
    (loop : LoopLikeOpInterface) (lattices : list Value) (c : Value) :
  0 <= visitsOf a (opId branchOp) c ->
  visitsOf (updateLoopTripCount a branchOp loop lattices) (opId branchOp) c
  <= visitsOf a (opId branchOp) c.
Proof.
  intros Hpos. unfold updateLoopTripCount.
  assert (H : visitsOf (if bool_decide (is_Some (loopTripCounts a !! opId branchOp))
                        then a else initializeLoop a (opId branchOp) lattices)
                       (opId branchOp) c <= visitsOf a (opId branchOp) c).
  { destruct (bool_decide _); [lia|].
    destruct (initializeLoop_visits a (opId branchOp) lattices c) as [E|E]; rewrite E; lia. }
  destruct (bool_decide _);
    match goal with |- context [if ?b then _ else _] => destruct b end;
    exact H.
Qed.

(** C7 (as amended): in one visit of a loop-like branch, the recorded
    trip-count bound becomes the smaller of the bound recorded before and
    the estimate of this visit, so it only shrinks; a counter is only
    incremented from below the bound recorded by this visit, so after
    the visit it is at most the larger of its value before and that
    bound; and a pair whose counter has reached the bound leaves the
    analysis as it is: no join is performed for it. *)
Theorem visitRegionSuccessors_counters (a : t) (isBlockStart : bool)
    (branchOp : Operation) (loop : LoopLikeOpInterface)
    (lattices : list Value) (predecessors : list Predecessor) :
  let l := opId branchOp in
  let a' := visitRegionSuccessors visitNonControlFlowArguments a isBlockStart
              branchOp lattices predecessors in
  dynCastLoopLike branchOp = Some loop ->
  tripCountOf a' l
  = Z.min (match loopTripCounts a !! l with
           | Some bound => bound
           | None => int64_max
           end)
          (getTotalLoopTripCount (cells a) loop branchOp)
  /\ (forall c, 0 <= visitsOf a l c ->
                visitsOf a' l c <= Z.max (visitsOf a l c) (tripCountOf a' l))
  /\ (forall s oper c, visitsOf s l c >= tripCountOf s l ->
                       visitPair (Some l) s oper c = s).
Proof.
  intros l a' Hloop. unfold a', visitRegionSuccessors. rewrite Hloop.
  assert (Hb : tripCountOf
                 (visitPredecessors visitNonControlFlowArguments isBlockStart branchOp
                    (Some (opId branchOp)) lattices predecessors
                    (updateLoopTripCount a branchOp loop lattices)) l
               = tripCountOf (updateLoopTripCount a branchOp loop lattices) l).
  { unfold tripCountOf. rewrite visitPredecessors_loopTripCounts. reflexivity. }
  split; [|split].
  - rewrite Hb. apply updateLoopTripCount_bound.
  - intros c Hpos. rewrite Hb.
    pose proof (visitPredecessors_visits isBlockStart branchOp l c lattices predecessors
                  (updateLoopTripCount a branchOp loop lattices)) as H1.
    pose proof (updateLoopTripCount_visits a branchOp loop lattices c Hpos) as H2.
    unfold l in *. lia.
  - intros s oper c Hge. unfold visitPair.
    destruct (Z.geb_spec (visitsOf s l c) (tripCountOf s l)); [reflexivity | lia].
Qed.

End DriverCounters.

Lemma visitRegionSuccessors_counters_witness :
  let a' :=
    visitRegionSuccessors noNonControlFlowArguments emptyAnalysis true bigLoopOp
      [iterArg] [mkPredecessor (Some [initValue]) [iterArg]] in
  tripCountOf a' 50 = 2048
  /\ visitsOf a' 50 iterArg <= Z.max 0 2048.
Proof.
  destruct (visitRegionSuccessors_counters noNonControlFlowArguments emptyAnalysis true
              bigLoopOp (literalLoop 0 2048 1) [iterArg]
              [mkPredecessor (Some [initValue]) [iterArg]] eq_refl)
    as (Hb & Hv & _).
  cbv zeta. split.
  - change (opId bigLoopOp) with 50%N in Hb. rewrite Hb. vm_compute. reflexivity.
  - change (opId bigLoopOp) with 50%N in Hv, Hb.
    specialize (Hv iterArg ltac:(vm_compute; discriminate)).
    rewrite Hb in Hv.
    assert (E : Z.max (visitsOf emptyAnalysis 50 iterArg)
                  (Z.min (match loopTripCounts emptyAnalysis !! 50%N with
                          | Some bound => bound
                          | None => int64_max
                          end)
                     (getTotalLoopTripCount (cells emptyAnalysis)
                        (literalLoop 0 2048 1) bigLoopOp))
                = Z.max 0 2048) by (vm_compute; reflexivity).
    rewrite E in Hv. exact Hv.
Defined.

(** C7 (as stated) fails: the first visit records the bound 2147483647 and
    the widening join raises the counter of [%arg] to 1; once [%n] is known
    to be 0 the next visit re-estimates the bound to 0, below the
    counter. *)
Lemma counter_exceeds_shrunk_bound_counterexample :
  let a1 := run emptyAnalysis [visitLoopToN] in
  let a3 := run emptyAnalysis [visitLoopToN; nIsZero; visitLoopToN] in
  tripCountOf a1 51 = 2147483647
  /\ visitsOf a1 51 iterArg = 1
  /\ tripCountOf a3 51 = 0
  /\ visitsOf a3 51 iterArg = 1
  /\ ~ (visitsOf a3 51 iterArg <= tripCountOf a3 51).
Proof. vm_compute. repeat split. intros H. apply H. reflexivity. Qed.

End DriverProperties.

(** ** Assumes whose condition is not a comparison *)

Lemma walkAssumes_null (assumes : list AssumeOp) (filterConstants : bool) :
  In (mkAssume None) assumes ->
  forall assumptions, walkAssumes assumes filterConstants assumptions = NullDereference.
Proof.
  induction assumes as [|op rest IH]; intros Hin assumptions; [contradiction|].
  cbn [walkAssumes]. destruct Hin as [->|Hin]; [reflexivity|].
  destruct (getCondDefiningOp op); [apply IH, Hin | reflexivity].
Qed.

(** C5 (what the code does): as soon as one assume of the program has a
    condition without a defining operation, collecting the assumptions
    dereferences the null pointer [getDefiningOp] returned; nothing is
    ignored and no remark is emitted. *)
Theorem collectAssumptions_null_condition
    (assumes : list AssumeOp) (filterConstants : bool) :
  In (mkAssume None) assumes ->
  collectAssumptions assumes filterConstants = NullDereference.
Proof. intros Hin. apply walkAssumes_null, Hin. Qed.

Lemma collectAssumptions_null_condition_witness :
  collectAssumptions [mkAssume None] true = NullDereference
  /\ collectAssumptions [mkAssume None] false = NullDereference.
Proof.
  split; apply collectAssumptions_null_condition; left; reflexivity.
Defined.

(** A condition defined by an operation that is not a comparison is
    registered like any other; when its range is asked for, a remark is
    emitted and no range is derived. *)
Lemma maybeGetAssumedRange_unsupported_operation (assumption : Operation) (anchor : Value) :
  (forall pred lhs rhs, opView assumption <> CmpIOp pred lhs rhs) ->
  maybeGetAssumedRange assumption anchor
  = ([remark (opId assumption) "unsupported assumption operation"], None).
Proof.
  intros Hview. unfold maybeGetAssumedRange.
  destruct (opView assumption) as [pred lhs rhs| |]; [|reflexivity..].
  exfalso. apply (Hview pred lhs rhs). reflexivity.
Qed.

(** ** Folding comparisons that are statically true *)

Lemma sext_of_zext (w : N) (a : APInt.t) :
  hasWidth w a ->
  APInt.getSExtValue a =
    if APInt.isNegative a then APInt.getZExtValue a - pow2 w else APInt.getZExtValue a.
Proof. intros [<- _]. reflexivity. Qed.

(** Patterns of one width are equal as unsigned numbers exactly when they
    are equal as signed numbers. *)
Lemma zext_eq_iff_sext_eq (w : N) (a b : APInt.t) :
  hasWidth w a -> hasWidth w b ->
  APInt.getZExtValue a = APInt.getZExtValue b <->
  APInt.getSExtValue a = APInt.getSExtValue b.
Proof.
  intros [Ha Hwa] [Hb Hwb].
  unfold APInt.getSExtValue, APInt.isNegative, APInt_wf in *.
  rewrite Ha, Hb in *.
  destruct (N.eqb_spec w 0) as [->|Hw]; cbn [negb andb]; [reflexivity|].
  rewrite (pow2_double w) in * by lia. pose proof (pow2_pos (w - 1)).
  destruct (Z.leb_spec (pow2 (w - 1)) (APInt.getZExtValue a)),
           (Z.leb_spec (pow2 (w - 1)) (APInt.getZExtValue b)); lia.
Qed.

Lemma isStaticallyTrueOrdered_sound (pred : CmpIPredicate.t)
    (lhs rhs : ConstantIntRanges.t) (a b : APInt.t) :
  intrange.isStaticallyTrueOrdered pred lhs rhs = true ->
  contains lhs a -> contains rhs b -> holds pred a b.
Proof.
  unfold contains, holds, intrange.isStaticallyTrueOrdered,
    APInt.sle, APInt.slt, APInt.ule, APInt.ult, APInt.sge, APInt.sgt,
    APInt.uge, APInt.ugt, APInt.sle, APInt.slt, APInt.ule, APInt.ult.
  destruct pred; intros H; try discriminate H;
    first [apply Z.leb_le in H | apply Z.ltb_lt in H]; lia.
Qed.

Lemma getConstantValue_sound (w : N) (r : ConstantIntRanges.t) (l a : APInt.t) :
  rangeHasWidth w r -> hasWidth w a ->
  intrange.getConstantValue r = Some l -> contains r a ->
  hasWidth w l /\ APInt.getZExtValue a = APInt.getZExtValue l.
Proof.
  intros (Hu1 & Hu2 & Hs1 & Hs2) Ha. unfold intrange.getConstantValue, APInt.eqb.
  intros Hc [[Hz1 Hz2] [Hx1 Hx2]].
  destruct (APInt.eq_dec (ConstantIntRanges.umin r) (ConstantIntRanges.umax r)) as [E|E];
    cbn [andb] in Hc.
  - destruct (negb _); [|clear E].
    + inversion Hc; subst l. split; [exact Hu1|]. rewrite <- E in Hz2. lia.
    + destruct (APInt.eq_dec (ConstantIntRanges.smin r) (ConstantIntRanges.smax r)) as [E|E];
        cbn [andb] in Hc; [|discriminate].
      destruct (negb _); [|discriminate]. inversion Hc; subst l.
      split; [exact Hs1|]. apply (zext_eq_iff_sext_eq w); try assumption.
      rewrite <- E in Hx2. lia.
  - destruct (APInt.eq_dec (ConstantIntRanges.smin r) (ConstantIntRanges.smax r)) as [E'|E'];
      cbn [andb] in Hc; [|discriminate].
    destruct (negb _); [|discriminate]. inversion Hc; subst l.
    split; [exact Hs1|]. apply (zext_eq_iff_sext_eq w); try assumption.
    rewrite <- E' in Hx2. lia.
Qed.

(** A definite [true] of [evaluatePred] holds for every pair of patterns of
    the two ranges. *)
Lemma evaluatePred_true_sound (w : N) (pred : CmpIPredicate.t)
    (lhs rhs : ConstantIntRanges.t) (a b : APInt.t) :
  rangeHasWidth w lhs -> rangeHasWidth w rhs -> hasWidth w a -> hasWidth w b ->
  intrange.evaluatePred pred lhs rhs = Some true ->
  contains lhs a -> contains rhs b -> holds pred a b.
Proof.
  intros Hl Hr Ha Hb. unfold intrange.evaluatePred.
  destruct (intrange.isStaticallyTrue pred lhs rhs) eqn:Ht;
    [intros _
    | destruct (intrange.isStaticallyTrue (intrange.invertPredicate pred) lhs rhs);
      intros H; discriminate H].
  intros Hca Hcb.
  destruct pred; try (apply (isStaticallyTrueOrdered_sound _ lhs rhs); assumption).
  - unfold intrange.isStaticallyTrue in Ht.
    destruct (intrange.getConstantValue lhs) as [l|] eqn:El; [|discriminate].
    destruct (intrange.getConstantValue rhs) as [r|] eqn:Er; [|discriminate].
    unfold APInt.eqb in Ht. destruct (APInt.eq_dec l r) as [->|]; [|discriminate].
    destruct (getConstantValue_sound w lhs r a Hl Ha El Hca) as [_ H1].
    destruct (getConstantValue_sound w rhs r b Hr Hb Er Hcb) as [_ H2].
    unfold holds. lia.
  - unfold intrange.isStaticallyTrue in Ht.
    pose proof (zext_eq_iff_sext_eq w a b Ha Hb) as Hzs.
    apply orb_true_iff in Ht. destruct Ht as [Ht|Ht];
      apply orb_true_iff in Ht; destruct Ht as [Ht|Ht];
      pose proof (isStaticallyTrueOrdered_sound _ lhs rhs a b Ht Hca Hcb) as Hh;
      unfold holds in *; lia.
Qed.

(** [%i < 1024] is statically true when [%i] lies in [[0, 1023]] and not
    when it lies in [[0, 2048]]. *)
Example cmpIIsStaticallyTrue_i_lt_1024 :
  cmpIIsStaticallyTrue (solvedTo 0 1023) i_lt_1024 = true
  /\ cmpIIsStaticallyTrue (solvedTo 0 2048) i_lt_1024 = false.
Proof. split; vm_compute; reflexivity. Qed.

Lemma isEmptyInitializedRange_false (r : ConstantIntRanges.t) :
  isEmptyInitializedRange r = false <->
  APInt.getBitWidth (ConstantIntRanges.umin r) <> 0%N
  /\ APInt.getBitWidth (ConstantIntRanges.umax r) <> 0%N
  /\ APInt.getBitWidth (ConstantIntRanges.smin r) <> 0%N
  /\ APInt.getBitWidth (ConstantIntRanges.smax r) <> 0%N.
Proof.
  unfold isEmptyInitializedRange.
  destruct (N.eqb_spec (APInt.getBitWidth (ConstantIntRanges.umin r)) 0);
    destruct (N.eqb_spec (APInt.getBitWidth (ConstantIntRanges.umax r)) 0);
    destruct (N.eqb_spec (APInt.getBitWidth (ConstantIntRanges.smin r)) 0);
    destruct (N.eqb_spec (APInt.getBitWidth (ConstantIntRanges.smax r)) 0);
    cbn [orb]; split; try discriminate; try tauto; intros _; tauto.
Qed.

Lemma cmpIIsStaticallyTrue_iff (solver : gmap N IntegerValueRange)
    (cmpOp : arith_CmpIOp) :
  cmpIIsStaticallyTrue solver cmpOp = true <->
  exists r0 r1,
    knownRange solver (getLhs cmpOp) r0
    /\ knownRange solver (getRhs cmpOp) r1
    /\ intrange.evaluatePred (getPredicate cmpOp) r0 r1 = Some true.
Proof.
  unfold cmpIIsStaticallyTrue, collectRanges, knownRange. cbn [map lookup list_lookup].
  split.
  - destruct (solver !! valueId (getLhs cmpOp)) as [[r0|]|]; try discriminate.
    destruct (isEmptyInitializedRange r0) eqn:E0; try discriminate.
    destruct (solver !! valueId (getRhs cmpOp)) as [[r1|]|]; try discriminate.
    destruct (isEmptyInitializedRange r1) eqn:E1; try discriminate.
    destruct (intrange.evaluatePred _ r0 r1) as [[|]|] eqn:Ep; try discriminate.
    intros _. exists r0, r1. apply isEmptyInitializedRange_false in E0, E1.
    split; [split; [reflexivity | exact E0]|].
    split; [split; [reflexivity | exact E1]|]. exact Ep.
  - intros (r0 & r1 & [H0 E0] & [H1 E1] & Hp).
    apply isEmptyInitializedRange_false in E0, E1.
    rewrite H0, E0, H1, E1, Hp. reflexivity.
Qed.

Section FoldTrueCmpIOpProperties.

Variable refuses : Replacements -> Value -> bool.


End FoldTrueCmpIOpProperties.

(** [%i < 1024] with [%i] within [[0, 1023]], when the cell of the result
    holds [true]: the result is replaced by [true]. *)
Example matchAndRewrite_i_lt_1024 :
  matchAndRewrite Replacements (dataflow.maybeReplaceWithConstant refusesNothing)
    (solvedWithResult literalTrue) ∅ i_lt_1024
  = (success, {[ valueId (getResult i_lt_1024) := literalTrue ]}).
Proof. vm_compute. reflexivity. Qed.


(** * Further properties *)

(** ** Trip counts without information *)

Lemma getLoopRangeInfo_unresolved (cells : gmap N IntegerValueRange) (width : N)
    (loopBound : option OpFoldResult) (getUpper : option bool)
    (defaultVal : option APInt.t) :
  isResolved cells loopBound = false ->
  getLoopRangeInfo cells width loopBound getUpper defaultVal =
    match defaultVal with
    | Some d => d
    | None => if bool_decide (is_Some getUpper)
              then APInt.getSignedMaxValue width
              else APInt.getSignedMinValue width
    end.
Proof.
  unfold isResolved, getLoopRangeInfo.
  destruct loopBound as [[[bound|]|value]|]; try discriminate; try reflexivity.
  destruct (cells !! valueId value) as [[r|]|]; try discriminate; reflexivity.
Qed.

(** X1: a loop with a single induction variable (of at least two bits)
    none of whose bounds and step resolves has the trip count 0: both
    bounds fall back to the signed maximum of the width. *)
Theorem maybeGetTripCount_unresolved
    (cells : gmap N IntegerValueRange) (loop : LoopLikeOpInterface) (iv : Value) :
  getSingleInductionVar loop = Some iv ->
  (2 <= getStorageBitwidth (getType iv))%N ->
  isResolved cells (getSingleLowerBound loop) = false ->
  isResolved cells (getSingleUpperBound loop) = false ->
  isResolved cells (getSingleStep loop) = false ->
  maybeGetTripCount cells loop = Some 0.
Proof.
  intros Hiv Hw Hl Hu Hs. unfold maybeGetTripCount, resolvedBounds. rewrite Hiv.
  rewrite (getLoopRangeInfo_unresolved _ _ _ _ _ Hl),
          (getLoopRangeInfo_unresolved _ _ _ _ _ Hu),
          (getLoopRangeInfo_unresolved _ _ _ _ _ Hs).
  cbn [bool_decide decide_rel].
  set (w := getStorageBitwidth (getType iv)) in *.
  assert (Hone : APInt.getSExtValue (APInt.make w 1 true) = 1)
    by (apply stepValDefault_one, Hw).
  assert (Hwf : APInt_wf (APInt.make w 1 true)) by apply trunc_wf.
  rewrite (isNegative_sext _ Hwf), (isZero_sext _ Hwf), Hone. cbn [Z.ltb Z.eqb Z.compare].
  rewrite bool_decide_true by eauto.
  unfold APInt.sge, APInt.sle. rewrite Z.leb_refl, Z.sub_diag.
  reflexivity.
Qed.

Lemma maybeGetTripCount_unresolved_witness :
  maybeGetTripCount ∅ (mkLoop None (Some (OfValue nValue)) None (Some iv32)) = Some 0.
Proof.
  apply (maybeGetTripCount_unresolved ∅ _ iv32); [reflexivity | | reflexivity..].
  vm_compute. discriminate.
Defined.

Lemma ceilDiv_bounds_pos (n s : Z) :
  0 <= n -> 0 < s -> 0 <= ceilDiv n s <= n /\ (ceilDiv n s = 0 <-> n = 0).
Proof.
  intros Hn Hs. unfold ceilDiv.
  pose proof (Z.div_mod (- n) s ltac:(lia)) as E.
  pose proof (Z.mod_pos_bound (- n) s Hs) as B.
  split; [split|split]; nia.
Qed.

Lemma ceilDiv_bounds_neg (n s : Z) :
  0 <= n -> s < 0 -> - n <= ceilDiv n s <= 0.
Proof.
  intros Hn Hs. unfold ceilDiv.
  pose proof (Z.div_mod (- n) s ltac:(lia)) as E.
  pose proof (Z.mod_neg_bound (- n) s Hs) as B.
  split; nia.
Qed.

(** X2: a known trip count has the sign of the step.  With a step that
    is not negative, the loop's lower bound is at most its upper bound
    and the count lies between 0 and [upper - lower], being 0 exactly when
    the bounds meet; with a negative step the upper bound is at most the
    lower one and the count lies between [upper - lower] and 0. *)
Theorem maybeGetTripCount_sign
    (cells : gmap N IntegerValueRange) (loop : LoopLikeOpInterface) (iv : Value)
    (n : Z) :
  let lower := APInt.getSExtValue (resolvedLower cells loop iv) in
  let upper := APInt.getSExtValue (resolvedUpper cells loop iv) in
  let step := APInt.getSExtValue (resolvedStep cells loop iv) in
  getSingleInductionVar loop = Some iv ->
  (2 <= getStorageBitwidth (getType iv))%N ->
  APInt_wf (resolvedStep cells loop iv) ->
  in_int64 (upper - lower) -> in_int64 (lower - upper) ->
  maybeGetTripCount cells loop = Some n ->
  (0 <= step -> lower <= upper /\ 0 <= n <= upper - lower /\ (n = 0 <-> upper = lower))
  /\ (step < 0 -> upper <= lower /\ upper - lower <= n <= 0).
Proof.
  intros lower upper step Hiv Hw Hwf Hul Hlu.
  unfold maybeGetTripCount. rewrite Hiv. unfold resolvedBounds.
  fold (resolvedLower cells loop iv) (resolvedUpper cells loop iv)
       (resolvedStep cells loop iv).
  rewrite (isNegative_sext _ Hwf), (isZero_sext _ Hwf). fold step.
  assert (Hs : APInt.getSExtValue
                 (if step =? 0 then APInt.make (getStorageBitwidth (getType iv)) 1 true
                  else resolvedStep cells loop iv)
               = (if step =? 0 then 1 else step)).
  { destruct (Z.eqb_spec step 0); [apply stepValDefault_one; exact Hw | reflexivity]. }
  destruct (Z.ltb_spec step 0) as [Hneg|Hpos];
    unfold APInt.sge, APInt.sle; fold lower upper; rewrite Hs.
  - destruct (Z.leb_spec upper lower) as [Hle|]; [|discriminate].
    intros E. inversion E as [En]. clear E.
    rewrite wrap64_id by assumption.
    destruct (Z.eqb_spec step 0); [lia|].
    rewrite divideCeilSigned_ceil by (assumption || lia).
    pose proof (ceilDiv_bounds_neg (lower - upper) step ltac:(lia) Hneg).
    split; [lia|]. intros _. lia.
  - destruct (Z.leb_spec lower upper) as [Hle|]; [|discriminate].
    intros E. inversion E as [En]. clear E.
    rewrite wrap64_id by assumption.
    assert (Hsp : 0 < (if step =? 0 then 1 else step))
      by (destruct (Z.eqb_spec step 0); lia).
    rewrite divideCeilSigned_ceil by (assumption || lia).
    pose proof (ceilDiv_bounds_pos (upper - lower) _ ltac:(lia) Hsp) as [Hb Hz].
    split; [|lia]. intros _. split; [lia|]. split; [lia|].
    rewrite Hz. lia.
Qed.

(** From 0 to 5 by 2: three iterations. *)
Lemma maybeGetTripCount_sign_witness :
  maybeGetTripCount ∅ (literalLoop 0 5 2) = Some 3
  /\ 0 <= 5 /\ 0 <= 3 <= 5 - 0 /\ (3 = 0 <-> 5 = 0).
Proof.
  split; [reflexivity|].
  apply (maybeGetTripCount_sign ∅ (literalLoop 0 5 2) iv32 3);
    [reflexivity | vm_compute; discriminate
    | split; vm_compute; (reflexivity || discriminate)
    | split; vm_compute; discriminate | split; vm_compute; discriminate
    | reflexivity | vm_compute; discriminate].
Defined.

(** ** The fixed-range rules *)

Lemma make_small (w : N) (z : Z) (signed : bool) :
  (0 < w)%N -> (w <= 64)%N -> 0 <= z < pow2 (w - 1) ->
  APInt.make w z signed = APInt.mk w z.
Proof.
  intros Hw Hw64 Hz.
  assert (Hp : pow2 (w - 1) <= 2 ^ 63).
  { unfold pow2. apply Z.pow_le_mono_r; lia. }
  rewrite make_constant by (assumption || (unfold in_int64, int64_min, int64_max; lia)).
  unfold APInt.trunc, constantRead. f_equal.
  rewrite (pow2_double w Hw). destruct signed; rewrite ?Z.mod_mod by lia;
    apply Z.mod_small; lia.
Qed.

(** A range built from two non-negative numbers below [2^(w-1)], the
    lower first, reads as these numbers in the unsigned and in the signed
    view, whichever view it was built from. *)
Lemma range_small (w : N) (lo hi : Z) (signed : bool) :
  (0 < w)%N -> (w <= 64)%N -> 0 <= lo <= hi -> hi < pow2 (w - 1) ->
  let r := ConstantIntRanges.range (APInt.make w lo signed) (APInt.make w hi signed) signed in
  APInt.getZExtValue (ConstantIntRanges.umin r) = lo
  /\ APInt.getZExtValue (ConstantIntRanges.umax r) = hi
  /\ APInt.getSExtValue (ConstantIntRanges.smin r) = lo
  /\ APInt.getSExtValue (ConstantIntRanges.smax r) = hi.
Proof.
  intros Hw Hw64 Hlo Hhi.
  rewrite !make_small by (assumption || lia).
  assert (Hn : forall z, 0 <= z < pow2 (w - 1) -> APInt.isNegative (APInt.mk w z) = false).
  { intros z Hz. unfold APInt.isNegative; simpl.
    destruct (Z.leb_spec (pow2 (w - 1)) z); [lia|]. apply andb_false_r. }
  assert (Hs : forall z, 0 <= z < pow2 (w - 1) -> APInt.getSExtValue (APInt.mk w z) = z).
  { intros z Hz. unfold APInt.getSExtValue. rewrite Hn by exact Hz. reflexivity. }
  unfold ConstantIntRanges.range, ConstantIntRanges.fromSigned,
    ConstantIntRanges.fromUnsigned, APInt.isNonNegative.
  rewrite !Hn by lia. cbn [negb Bool.eqb].
  unfold APInt.ult, APInt.ugt, APInt.ult, APInt.slt, APInt.sgt, APInt.slt.
  rewrite !Hs by lia. cbn [APInt.getZExtValue].
  destruct signed; cbn [ConstantIntRanges.umin ConstantIntRanges.umax
                        ConstantIntRanges.smin ConstantIntRanges.smax];
    destruct (Z.ltb_spec lo hi), (Z.ltb_spec hi lo);
    cbn [APInt.getZExtValue]; rewrite ?Hs by lia; cbn [APInt.getZExtValue];
    repeat split; lia.
Qed.

(** X3: for an operation with one result of integer type of at most 64
    bits and a maximum below [2^(w-1)], [inferResultRangesPID] sets the
    range from 0 to that maximum, in the unsigned and in the signed view,
    whatever the signedness of the type. *)
Theorem inferResultRangesPID_range (w : N) (resTyIsSigned : bool) (max : Z) :
  (0 < w)%N -> (w <= 64)%N -> 0 <= max < pow2 (w - 1) ->
  exists r,
    inferResultRangesPID [IntegerType w] resTyIsSigned max = Some r
    /\ APInt.getZExtValue (ConstantIntRanges.umin r) = 0
    /\ APInt.getZExtValue (ConstantIntRanges.umax r) = max
    /\ APInt.getSExtValue (ConstantIntRanges.smin r) = 0
    /\ APInt.getSExtValue (ConstantIntRanges.smax r) = max.
Proof.
  intros Hw Hw64 Hmax. eexists. split; [reflexivity|].
  apply (range_small w 0 max resTyIsSigned); (assumption || lia).
Qed.

(** A program id lies between 0 and 65535 and a number of programs between
    0 and 65536. *)
Lemma inferResultRangesPID_range_witness :
  (exists r,
      inferResultRangesPID [IntegerType 32] false (kDefaultMaxPrograms - 1) = Some r
      /\ APInt.getZExtValue (ConstantIntRanges.umin r) = 0
      /\ APInt.getZExtValue (ConstantIntRanges.umax r) = 65535
      /\ APInt.getSExtValue (ConstantIntRanges.smin r) = 0
      /\ APInt.getSExtValue (ConstantIntRanges.smax r) = 65535)
  /\ (exists r,
         inferResultRangesPID [IntegerType 32] false kDefaultMaxPrograms = Some r
         /\ APInt.getZExtValue (ConstantIntRanges.umin r) = 0
         /\ APInt.getZExtValue (ConstantIntRanges.umax r) = 65536
         /\ APInt.getSExtValue (ConstantIntRanges.smin r) = 0
         /\ APInt.getSExtValue (ConstantIntRanges.smax r) = 65536).
Proof.
  split.
  - apply (inferResultRangesPID_range 32 false (kDefaultMaxPrograms - 1));
      [reflexivity | vm_compute; discriminate | split; vm_compute; (reflexivity || discriminate)].
  - apply (inferResultRangesPID_range 32 false kDefaultMaxPrograms);
      [reflexivity | vm_compute; discriminate | split; vm_compute; (reflexivity || discriminate)].
Defined.

(** X4: for a [make_range] whose result is a tensor of integers of at most
    64 bits, with [0 <= start <= end < 2^(w-1)], the range set runs from
    [start] to [end], the end included, in both views. *)
Theorem inferResultRanges_MakeRangeOp_range
    (w : N) (elTyIsSigned : bool) (getStart getEnd : Z) :
  (0 < w)%N -> (w <= 64)%N -> 0 <= getStart <= getEnd -> getEnd < pow2 (w - 1) ->
  exists r,
    inferResultRanges_MakeRangeOp (RankedTensorType (IntegerType w)) elTyIsSigned
      getStart getEnd = Some r
    /\ APInt.getZExtValue (ConstantIntRanges.umin r) = getStart
    /\ APInt.getZExtValue (ConstantIntRanges.umax r) = getEnd
    /\ APInt.getSExtValue (ConstantIntRanges.smin r) = getStart
    /\ APInt.getSExtValue (ConstantIntRanges.smax r) = getEnd.
Proof.
  intros Hw Hw64 Hs He. eexists. split; [reflexivity|].
  apply (range_small w getStart getEnd elTyIsSigned); assumption.
Qed.

Lemma inferResultRanges_MakeRangeOp_range_witness :
  exists r,
    inferResultRanges_MakeRangeOp (RankedTensorType (IntegerType 32)) false 0 1024 = Some r
    /\ APInt.getZExtValue (ConstantIntRanges.umin r) = 0
    /\ APInt.getZExtValue (ConstantIntRanges.umax r) = 1024
    /\ APInt.getSExtValue (ConstantIntRanges.smin r) = 0
    /\ APInt.getSExtValue (ConstantIntRanges.smax r) = 1024.
Proof.
  apply (inferResultRanges_MakeRangeOp_range 32 false 0 1024);
    [reflexivity | vm_compute; discriminate | split; vm_compute; discriminate
    | vm_compute; reflexivity].
Defined.

(** The union of two ranges of non-zero width holds every pattern of
    either. *)
Lemma contains_rangeUnion (a b : ConstantIntRanges.t) (v : APInt.t) :
  widthOf a <> 0%N -> widthOf b <> 0%N ->
  contains a v \/ contains b v -> contains (ConstantIntRanges.rangeUnion a b) v.
Proof.
  unfold widthOf, ConstantIntRanges.rangeUnion. intros Ha Hb.
  destruct (N.eqb_spec (APInt.getBitWidth (ConstantIntRanges.umin a)) 0); [contradiction|].
  destruct (N.eqb_spec (APInt.getBitWidth (ConstantIntRanges.umin b)) 0); [contradiction|].
  unfold contains, APInt.ugt, APInt.ult, APInt.sgt, APInt.slt; simpl.
  repeat match goal with |- context [if ?x <? ?y then _ else _] =>
    destruct (Z.ltb_spec x y) end; lia.
Qed.

(** X5: the rule for the operations that combine two operands ([join],
    [cat]) sets, for every result, a range that holds every pattern of
    the range of either operand. *)
Theorem inferResultRangesBinaryOpUnionArgRanges_covers
    (numOperands : nat) (results : list Value)
    (argRanges ranges : list ConstantIntRanges.t) :
  inferResultRangesBinaryOpUnionArgRanges numOperands results argRanges = Some ranges ->
  exists arg0 arg1,
    argRanges = [arg0; arg1]
    /\ length ranges = length results
    /\ (widthOf arg0 <> 0%N -> widthOf arg1 <> 0%N ->
        Forall (fun r => forall v, contains arg0 v \/ contains arg1 v -> contains r v)
               ranges).
Proof.
  unfold inferResultRangesBinaryOpUnionArgRanges.
  destruct numOperands as [|[|[|?]]]; try discriminate.
  destruct argRanges as [|arg0 [|arg1 [|? ?]]]; try discriminate.
  intros E. inversion E; subst ranges. exists arg0, arg1.
  split; [reflexivity|]. split; [apply length_map|].
  intros H0 H1. apply Forall_forall. intros r Hr.
  apply list_elem_of_In, in_map_iff in Hr. destruct Hr as (_ & <- & _).
  intros v. apply contains_rangeUnion; assumption.
Qed.

Lemma inferResultRangesBinaryOpUnionArgRanges_covers_witness :
  exists arg0 arg1,
    [ConstantIntRanges.maxRange 8; ConstantIntRanges.constant (APInt.mk 8 3)] = [arg0; arg1]
    /\ length [ConstantIntRanges.rangeUnion (ConstantIntRanges.maxRange 8)
                 (ConstantIntRanges.constant (APInt.mk 8 3))] = length [x8]
    /\ (widthOf arg0 <> 0%N -> widthOf arg1 <> 0%N ->
        Forall (fun r => forall v, contains arg0 v \/ contains arg1 v -> contains r v)
          [ConstantIntRanges.rangeUnion (ConstantIntRanges.maxRange 8)
             (ConstantIntRanges.constant (APInt.mk 8 3))]).
Proof.
  apply (inferResultRangesBinaryOpUnionArgRanges_covers 2 [x8]
           [ConstantIntRanges.maxRange 8; ConstantIntRanges.constant (APInt.mk 8 3)]).
  reflexivity.
Defined.

(** ** Soundness of the ranges derived from assumptions *)

Lemma readAs_bounds (w : N) (signed : bool) (v : APInt.t) :
  (0 < w)%N -> hasWidth w v ->
  minOf signed w <= readAs signed v <= maxOf signed w.
Proof.
  intros Hw [Hv Hwf]. unfold APInt_wf in Hwf. rewrite Hv in Hwf.
  unfold readAs, minOf, maxOf, APInt.getSExtValue, APInt.isNegative. rewrite Hv.
  rewrite (pow2_double w Hw) in *. pose proof (pow2_pos (w - 1)).
  destruct signed; [|lia].
  destruct (N.eqb_spec w 0); [lia|]. cbn [negb andb].
  destruct (Z.leb_spec (pow2 (w - 1)) (APInt.getZExtValue v)); lia.
Qed.

Lemma sext_mk_cases (w : N) (z : Z) :
  (0 < w)%N -> 0 <= z < pow2 w ->
  (z < pow2 (w - 1)
   /\ APInt.getSExtValue (APInt.mk w z) = z
   /\ APInt.isNegative (APInt.mk w z) = false)
  \/ (pow2 (w - 1) <= z
      /\ APInt.getSExtValue (APInt.mk w z) = z - pow2 w
      /\ APInt.isNegative (APInt.mk w z) = true).
Proof.
  intros Hw Hz. unfold APInt.getSExtValue, APInt.isNegative. cbn [APInt.getBitWidth APInt.getZExtValue].
  destruct (N.eqb_spec w 0); [lia|]. cbn [negb andb].
  destruct (Z.leb_spec (pow2 (w - 1)) z); [right | left]; repeat split; lia.
Qed.

(** A pattern between the bounds a range was built from, read under the
    signedness it was built with, lies within the range. *)
Lemma contains_range (w : N) (signed : bool) (lo hi v : APInt.t) :
  (0 < w)%N -> hasWidth w lo -> hasWidth w hi -> hasWidth w v ->
  readAs signed lo <= readAs signed v <= readAs signed hi ->
  contains (ConstantIntRanges.range lo hi signed) v.
Proof.
  intros Hw [Hlo Hwlo] [Hhi Hwhi] [Hv Hwv].
  destruct lo as [wl zl], hi as [wh zh], v as [wv zv]. simpl in Hlo, Hhi, Hv. subst wl wh wv.
  unfold APInt_wf in *; cbn [APInt.getBitWidth APInt.getZExtValue] in *.
  pose proof (pow2_pos (w - 1)) as HP. pose proof (pow2_double w Hw) as HD.
  destruct (sext_mk_cases w zl Hw Hwlo) as [(Cl & El & Nl)|(Cl & El & Nl)];
  destruct (sext_mk_cases w zh Hw Hwhi) as [(Ch & Eh & Nh)|(Ch & Eh & Nh)];
  destruct (sext_mk_cases w zv Hw Hwv) as [(Cv & Ev & Nv)|(Cv & Ev & Nv)];
  destruct (sext_mk_cases w (pow2 (w - 1)) Hw ltac:(lia)) as [(? & _)|(_ & Em & _)]; try lia;
  destruct (sext_mk_cases w (pow2 (w - 1) - 1) Hw ltac:(lia)) as [(_ & EM & _)|(? & _)]; try lia;
  unfold contains, ConstantIntRanges.range, ConstantIntRanges.fromSigned,
    ConstantIntRanges.fromUnsigned, readAs, APInt.isNonNegative,
    APInt.ult, APInt.ugt, APInt.ult, APInt.slt, APInt.sgt, APInt.slt,
    APInt.getMinValue, APInt.getMaxValue, APInt.getSignedMinValue,
    APInt.getSignedMaxValue;
  cbn [APInt.getBitWidth APInt.getZExtValue];
  rewrite ?Nl, ?Nh, ?El, ?Eh, ?Ev; cbn [negb Bool.eqb];
  destruct signed; intros Hb;
  repeat match goal with
    | |- context [if ?x <? ?y then _ else _] => destruct (Z.ltb_spec x y)
    end;
  cbn [ConstantIntRanges.umin ConstantIntRanges.umax ConstantIntRanges.smin
       ConstantIntRanges.smax APInt.getZExtValue];
  rewrite ?El, ?Eh, ?Ev, ?Em, ?EM; cbn [APInt.getZExtValue]; lia.
Qed.

Lemma hasWidth_trunc (w : N) (z : Z) : hasWidth w (APInt.trunc w z).
Proof. split; [reflexivity | apply trunc_wf]. Qed.

Lemma contains_encodeInterval (w : N) (signed : bool) (lo hi : Z) (v : APInt.t) :
  (0 < w)%N -> hasWidth w v ->
  readAs signed (APInt.trunc w lo) <= readAs signed v <= readAs signed (APInt.trunc w hi) ->
  contains (encodeInterval w signed (lo, hi)) v.
Proof.
  intros Hw Hv Hb. unfold encodeInterval. cbn [fst snd].
  apply (contains_range w); try assumption; apply hasWidth_trunc.
Qed.

(** The max-range of a width holds every pattern of that width. *)
Lemma contains_maxRange (w : N) (v : APInt.t) :
  (0 < w)%N -> hasWidth w v -> contains (ConstantIntRanges.maxRange w) v.
Proof.
  intros Hw Hv. rewrite <- (encodeInterval_full w false Hw).
  apply contains_encodeInterval; try assumption.
  rewrite !readAs_trunc by (try assumption; unfold minOf, maxOf; pose proof (pow2_pos w); lia).
  apply readAs_bounds; assumption.
Qed.

(** ** The intersection of the ranges derived for one anchor *)

(** C3 (as amended): when assumptions are registered against the anchor,
    the range returned is the repeated intersection, starting from the
    max-range of the anchor's width, of the ranges derived from them, as
    it stands: it holds exactly the patterns of the max-range that lie in
    every one of these ranges, so when no pattern lies in all of them it
    holds none and is not the max-range; a range is always returned. *)
Theorem maybeGetAssumedRange_intersection
    (asm : gmap N (list Operation)) (anchor : Value) :
  let matching := TritonIntegerRangeAnalysis.lookupAssumptions asm anchor in
  let w := getStorageBitwidth (getType anchor) in
  matching <> [] -> (0 < w)%N ->
  exists r,
    snd (TritonIntegerRangeAnalysis.maybeGetAssumedRange asm anchor) = Some r
    /\ r = intersectAll (ConstantIntRanges.maxRange w) (derivedRanges matching anchor)
    /\ (forall v,
          contains r v <->
          contains (ConstantIntRanges.maxRange w) v
          /\ Forall (fun d => contains d v) (derivedRanges matching anchor))
    /\ ((forall v, ~ Forall (fun d => contains d v) (derivedRanges matching anchor)) ->
        (forall v, ~ contains r v) /\ r <> ConstantIntRanges.maxRange w).
Proof.
  intros matching w Hne Hw.
  assert (Hiff : forall v,
             contains (intersectAll (ConstantIntRanges.maxRange w)
                         (derivedRanges matching anchor)) v <->
             contains (ConstantIntRanges.maxRange w) v
             /\ Forall (fun d => contains d v) (derivedRanges matching anchor)).
  { intros v. apply (contains_intersectAll w).
    - lia.
    - apply Forall_widthOf_derived.
    - apply widthOf_maxRange. }
  eexists. split; [|split; [reflexivity|split]].
  - rewrite member_value. fold matching.
    destruct matching; [contradiction | reflexivity].
  - exact Hiff.
  - intros Hnone.
    assert (Hempty : forall v, ~ contains (intersectAll (ConstantIntRanges.maxRange w)
                                            (derivedRanges matching anchor)) v).
    { intros v Hv. apply Hiff in Hv. exact (Hnone v (proj2 Hv)). }
    split; [exact Hempty|]. intros E.
    apply (Hempty (APInt.mk w 0)). rewrite E.
    apply contains_maxRange; [exact Hw|].
    split; [reflexivity|]. unfold APInt_wf. cbn [APInt.getZExtValue APInt.getBitWidth].
    pose proof (pow2_pos w). lia.
Qed.

(** [%x >= 10] and [%x <= 5] at 32 bits: no pattern lies in both derived
    ranges, and the range returned holds none and is not the max-range. *)
Lemma maybeGetAssumedRange_intersection_witness :
  exists r,
    snd (TritonIntegerRangeAnalysis.maybeGetAssumedRange contradictoryAssumptions x32)
      = Some r
    /\ (forall v, ~ contains r v)
    /\ r <> ConstantIntRanges.maxRange 32.
Proof.
  destruct (maybeGetAssumedRange_intersection contradictoryAssumptions x32
              ltac:(vm_compute; discriminate) ltac:(reflexivity))
    as (r & E & Hr & Hin & Hempty).
  exists r. split; [exact E|].
  apply Hempty. intros v Hall.
  let l := eval vm_compute in
    (derivedRanges
       (TritonIntegerRangeAnalysis.lookupAssumptions contradictoryAssumptions x32) x32) in
  change (derivedRanges _ x32) with l in Hall.
  inversion Hall as [|d1 l1 [_ [H1 _]] Hall1]; subst.
  inversion Hall1 as [|d2 l2 [_ [_ H2]] _]; subst.
  cbn [ConstantIntRanges.smin ConstantIntRanges.smax] in H1, H2.
  change (APInt.getSExtValue (APInt.mk 32 10)) with 10 in H1.
  change (APInt.getSExtValue (APInt.mk 32 5)) with 5 in H2.
  lia.
Defined.

(** C3 (as stated) fails: for [%x >= 10] and [%x <= 5] the range returned
    has its signed lower bound 10 above its signed upper bound 5; it is
    not the max-range. *)
Lemma contradictory_assumptions_counterexample :
  exists r,
    snd (TritonIntegerRangeAnalysis.maybeGetAssumedRange contradictoryAssumptions x32)
      = Some r
    /\ lowerRead true r = 10
    /\ upperRead true r = 5
    /\ r <> ConstantIntRanges.maxRange 32.
Proof.
  eexists. split; [reflexivity|]. split; [reflexivity|]. split; [reflexivity|].
  vm_compute. discriminate.
Qed.

(** What a predicate says of the anchor's pattern and the constant, in
    terms of the two numbers read under the predicate's signedness. *)
Lemma holds_reading (w : N) (pred : CmpIPredicate.t) (a b : APInt.t) :
  hasWidth w a -> hasWidth w b ->
  let signed := isSignedPredicate pred in
  let x := readAs signed a in
  let y := readAs signed b in
  holds pred a b <->
  match pred with
  | CmpIPredicate.eq => x = y
  | CmpIPredicate.ne => x <> y
  | CmpIPredicate.slt | CmpIPredicate.ult => x < y
  | CmpIPredicate.sle | CmpIPredicate.ule => x <= y
  | CmpIPredicate.sgt | CmpIPredicate.ugt => x > y
  | CmpIPredicate.sge | CmpIPredicate.uge => x >= y
  end.
Proof.
  intros Ha Hb. pose proof (zext_eq_iff_sext_eq w a b Ha Hb) as Hzs.
  destruct pred; cbn [isSignedPredicate holds readAs]; try reflexivity; tauto.
Qed.

(** Every pattern that makes the assumed comparison true lies within the
    interval of the table, reduced to the width of the anchor. *)
Lemma encodeInterval_contains_satisfying
    (w : N) (pred : CmpIPredicate.t) (anchorOnLeft : bool) (c : Z)
    (rel : Relation) (v : APInt.t) :
  let signed := isSignedPredicate pred in
  let K := APInt.make w c signed in
  (0 < w)%N -> (w <= 64)%N -> in_int64 c ->
  minOf signed w <= constantRead signed w c <= maxOf signed w ->
  relationOf pred = Some rel ->
  hasWidth w v ->
  holds pred (fst (onAnchorSide anchorOnLeft v K)) (snd (onAnchorSide anchorOnLeft v K)) ->
  contains (encodeInterval w signed
              (specInterval rel anchorOnLeft (constantRead signed w c)
                 (minOf signed w) (maxOf signed w))) v.
Proof.
  intros signed K Hw Hw64 Hc Hk Hrel Hv Hholds.
  set (k := constantRead signed w c) in *.
  assert (HK : K = APInt.trunc w k) by (apply make_constant; assumption).
  assert (HKw : hasWidth w K) by (rewrite HK; apply hasWidth_trunc).
  assert (HKr : readAs signed K = k) by (rewrite HK; apply readAs_trunc; assumption).
  pose proof (readAs_bounds w signed v Hw Hv) as Hx.
  set (x := readAs signed v) in *.
  set (min := minOf signed w) in *. set (max := maxOf signed w) in *.
  assert (Hread : forall z, min <= z <= max -> readAs signed (APInt.trunc w z) = z).
  { intros z Hz. apply readAs_trunc; assumption. }
  assert (Hrelx :
    match rel, anchorOnLeft with
    | Equal, _ => x = k
    | GreaterEqual, true | LessEqual, false => x >= k
    | Greater, true | Less, false => x > k
    | LessEqual, true | GreaterEqual, false => x <= k
    | Less, true | Greater, false => x < k
    end).
  { unfold onAnchorSide in Hholds.
    destruct anchorOnLeft; cbn [fst snd] in Hholds;
      [apply (holds_reading w pred v K Hv HKw) in Hholds
      |apply (holds_reading w pred K v HKw Hv) in Hholds];
      cbv zeta in Hholds; fold signed in Hholds; fold x in Hholds; rewrite HKr in Hholds;
      destruct pred; cbn in Hrel; inversion Hrel; subst rel; cbn in Hholds |- *; lia. }
  destruct (specInterval rel anchorOnLeft k min max) as [lo hi] eqn:Ei.
  apply contains_encodeInterval; [assumption | assumption |]. fold x.
  destruct rel, anchorOnLeft; cbn [specInterval] in Ei; inversion Ei; subst lo hi;
    rewrite !Hread by lia; lia.
Qed.

Lemma contains_reads (signed : bool) (r : ConstantIntRanges.t) (v : APInt.t) :
  contains r v -> lowerRead signed r <= readAs signed v <= upperRead signed r.
Proof.
  unfold contains, lowerRead, upperRead, readAs. destruct signed; lia.
Qed.

(** X6: the range derived from an assumption holds every pattern of the
    anchor for which the assumed comparison is true: for a comparison
    other than [ne] between the anchor and a constant that fits the
    anchor's width, every pattern [v] of that width that makes the
    comparison true lies within the range returned; and when the bounds of
    the table's interval lie within the extremes of the width (nothing
    wraps), the range holds no other pattern. *)
Theorem maybeGetAssumedRange_sound
    (loc : N) (parent : option Operation) (pred : CmpIPredicate.t)
    (lhs rhs anchor : Value) (c : Z) (rel : Relation) (v : APInt.t) :
  let w := getStorageBitwidth (getType anchor) in
  let signed := isSignedPredicate pred in
  let anchorOnLeft := Value_eqb lhs anchor in
  let K := APInt.make w c signed in
  let satisfied :=
    holds pred (fst (onAnchorSide anchorOnLeft v K)) (snd (onAnchorSide anchorOnLeft v K)) in
  let i := specInterval rel anchorOnLeft (constantRead signed w c)
             (minOf signed w) (maxOf signed w) in
  (0 < w)%N -> (w <= 64)%N -> in_int64 c ->
  minOf signed w <= constantRead signed w c <= maxOf signed w ->
  getConstantIntValue (if anchorOnLeft then rhs else lhs) = Some c ->
  relationOf pred = Some rel ->
  hasWidth w v ->
  exists r,
    maybeGetAssumedRange (MkOperation loc (CmpIOp pred lhs rhs) parent) anchor
      = ([], Some r)
    /\ (satisfied -> contains r v)
    /\ (minOf signed w <= fst i <= maxOf signed w ->
        minOf signed w <= snd i <= maxOf signed w ->
        contains r v -> satisfied).
Proof.
  intros w signed anchorOnLeft K satisfied i Hw Hw64 Hc Hk Hconst Hrel Hv.
  eexists. split; [apply maybeGetAssumedRange_encoded; eassumption|].
  fold w signed anchorOnLeft i. split.
  - intros Hs. apply encodeInterval_contains_satisfying; assumption.
  - intros Hlo Hhi Hin. apply (contains_reads signed) in Hin.
    rewrite lowerRead_encode, upperRead_encode in Hin.
    rewrite !readAs_trunc in Hin by assumption.
    set (k := constantRead signed w c) in *.
    assert (HK : K = APInt.trunc w k) by (apply make_constant; assumption).
    assert (HKw : hasWidth w K) by (rewrite HK; apply hasWidth_trunc).
    assert (HKr : readAs signed K = k) by (rewrite HK; apply readAs_trunc; assumption).
    unfold satisfied, onAnchorSide.
    destruct anchorOnLeft; cbn [fst snd];
      [apply (holds_reading w pred v K Hv HKw) | apply (holds_reading w pred K v HKw Hv)];
      cbv zeta; fold signed; rewrite HKr;
      unfold i in Hin; destruct pred; cbn in Hrel; inversion Hrel; subst rel;
      cbn [specInterval fst snd] in Hin; lia.
Qed.

(** [%x >= 5] at 32 bits: the pattern 7 satisfies it and lies within the
    derived range. *)
Lemma maybeGetAssumedRange_sound_witness :
  exists r,
    maybeGetAssumedRange
      (MkOperation 100 (CmpIOp CmpIPredicate.sge x32 (c32 5)) None) x32 = ([], Some r)
    /\ contains r (APInt.mk 32 7).
Proof.
  destruct (maybeGetAssumedRange_sound 100 None CmpIPredicate.sge x32 (c32 5) x32 5
              GreaterEqual (APInt.mk 32 7)
              ltac:(reflexivity) ltac:(vm_compute; discriminate)
              ltac:(split; vm_compute; discriminate)
              ltac:(split; vm_compute; discriminate) eq_refl eq_refl
              ltac:(split; [reflexivity | split; vm_compute; (reflexivity || discriminate)]))
    as (r & E & Hs & _).
  exists r. split; [exact E|]. apply Hs. vm_compute. discriminate.
Defined.

Lemma derived_contains_satisfying (assumption : Operation) (anchor : Value)
    (v : APInt.t) (r : ConstantIntRanges.t) :
  let w := getStorageBitwidth (getType anchor) in
  (0 < w)%N -> (w <= 64)%N -> hasWidth w v ->
  satisfiesAssumption assumption anchor v ->
  snd (maybeGetAssumedRange assumption anchor) = Some r ->
  contains r v.
Proof.
  intros w Hw Hw64 Hv. destruct assumption as [loc view parent].
  unfold satisfiesAssumption. cbn [opView].
  destruct view as [pred lhs rhs| |];
    [|intros _; unfold maybeGetAssumedRange; cbn [opView snd]; discriminate..].
  cbv zeta. fold w.
  destruct (getConstantIntValue (if Value_eqb lhs anchor then rhs else lhs)) as [c|] eqn:Ec.
  - destruct (relationOf pred) as [rel|] eqn:Er.
    + intros (Hc & Hk & Hh).
      rewrite (maybeGetAssumedRange_encoded loc parent pred lhs rhs anchor c rel)
        by assumption.
      cbn [snd]. intros E. inversion E; subst r.
      apply encodeInterval_contains_satisfying; assumption.
    + intros _. unfold maybeGetAssumedRange. cbn [opView]. rewrite Ec.
      destruct pred; try discriminate Er. cbn [snd]. discriminate.
  - intros _. unfold maybeGetAssumedRange. cbn [opView]. rewrite Ec. cbn [snd]. discriminate.
Qed.

Lemma derivedRanges_contain_satisfying (matching : list Operation) (anchor : Value)
    (v : APInt.t) :
  let w := getStorageBitwidth (getType anchor) in
  (0 < w)%N -> (w <= 64)%N -> hasWidth w v ->
  Forall (fun assumption => satisfiesAssumption assumption anchor v) matching ->
  contains (intersectAll (ConstantIntRanges.maxRange w) (derivedRanges matching anchor)) v.
Proof.
  intros w Hw Hw64 Hv Hall.
  apply (contains_intersectAll w); [lia | apply Forall_widthOf_derived | apply widthOf_maxRange |].
  split; [apply contains_maxRange; assumption|].
  induction Hall as [|a' l' Ha _ IH]; [constructor|].
  cbn [derivedRanges].
  destruct (snd (maybeGetAssumedRange a' anchor)) as [r|] eqn:E; [|exact IH].
  constructor; [|exact IH].
  apply (derived_contains_satisfying a' anchor v r); assumption.
Qed.

(** X7: when assumptions are registered against an anchor, every pattern
    of the anchor's width that satisfies all of them lies within the range
    the analysis assumes for the anchor. *)
Theorem maybeGetAssumedRange_member_sound
    (asm : gmap N (list Operation)) (anchor : Value) (v : APInt.t) :
  let matching := TritonIntegerRangeAnalysis.lookupAssumptions asm anchor in
  let w := getStorageBitwidth (getType anchor) in
  matching <> [] -> (0 < w)%N -> (w <= 64)%N -> hasWidth w v ->
  Forall (fun assumption => satisfiesAssumption assumption anchor v) matching ->
  exists r,
    snd (TritonIntegerRangeAnalysis.maybeGetAssumedRange asm anchor) = Some r
    /\ contains r v.
Proof.
  intros matching w Hne Hw Hw64 Hv Hall.
  rewrite member_value. fold matching w.
  destruct matching as [|a l] eqn:Em; [contradiction|]. rewrite <- Em in *.
  eexists. split; [reflexivity|].
  apply derivedRanges_contain_satisfying; assumption.
Qed.

(** [%x >= 0] and [%x < 1024] at 32 bits: the pattern 7 satisfies both. *)
Lemma maybeGetAssumedRange_member_sound_witness :
  exists r,
    snd (TritonIntegerRangeAnalysis.maybeGetAssumedRange boundedAssumptions x32) = Some r
    /\ contains r (APInt.mk 32 7).
Proof.
  apply (maybeGetAssumedRange_member_sound boundedAssumptions x32 (APInt.mk 32 7)).
  - vm_compute. discriminate.
  - reflexivity.
  - vm_compute. discriminate.
  - split; [reflexivity | split; vm_compute; (reflexivity || discriminate)].
  - repeat constructor; vm_compute; discriminate.
Defined.

(** ** The index built by [collectAssumptions] *)

Lemma registerAssumption_fold (filterConstants : bool) (assump : Operation)
    (assumptions : gmap N (list Operation)) :
  registerAssumption filterConstants assump assumptions
  = fold_left (registerOperand filterConstants assump) (getOperands assump) assumptions.
Proof. reflexivity. Qed.

Lemma setVectorInsert_In (s : list Operation) (op o : Operation) :
  In o (setVectorInsert s op) -> In o s \/ o = op.
Proof.
  unfold setVectorInsert. destruct (existsb _ s); [left; assumption|].
  intros H. apply in_app_or in H. destruct H as [H|[H|[]]]; [left | right]; auto.
Qed.

Lemma setVectorInsert_keeps (s : list Operation) (op o : Operation) :
  In o s -> In o (setVectorInsert s op).
Proof.
  unfold setVectorInsert. destruct (existsb _ s); [auto|]. intros H. apply in_or_app. auto.
Qed.

Lemma setVectorInsert_has (s : list Operation) (op : Operation) :
  exists o, In o (setVectorInsert s op) /\ opId o = opId op.
Proof.
  unfold setVectorInsert. destruct (existsb _ s) eqn:E.
  - apply existsb_exists in E. destruct E as (o & Ho & He).
    exists o. split; [exact Ho | apply N.eqb_eq, He].
  - exists op. split; [apply in_or_app; right; left|]; reflexivity.
Qed.

Lemma setVectorInsert_NoDup (s : list Operation) (op : Operation) :
  NoDup (map opId s) -> NoDup (map opId (setVectorInsert s op)).
Proof.
  unfold setVectorInsert. destruct (existsb _ s) eqn:E; [auto|].
  intros Hnd. rewrite map_app. cbn [map].
  apply NoDup_app. split; [exact Hnd|]. split; [|apply NoDup_singleton].
  intros i Hi Hop. apply list_elem_of_singleton in Hop. subst i.
  apply list_elem_of_In, in_map_iff in Hi. destruct Hi as (o & Ho & Hin).
  assert (existsb (fun o => (opId o =? opId op)%N) s = true) as Hex.
  { apply existsb_exists. exists o. split; [exact Hin | apply N.eqb_eq, Ho]. }
  congruence.
Qed.

(** What is found under a key after one operand was handled: what was
    there before, or the operation being registered, under the key of an
    operand that the filter lets through. *)
Lemma registerOperand_lookup (filterConstants : bool) (assump : Operation)
    (assumptions : gmap N (list Operation)) (operand : Value)
    (k : N) (o : Operation) :
  In o (default [] (registerOperand filterConstants assump assumptions operand !! k)) ->
  In o (default [] (assumptions !! k))
  \/ (o = assump /\ k = valueId operand /\ notFiltered filterConstants operand).
Proof.
  unfold registerOperand, notFiltered.
  destruct filterConstants; cbn [andb].
  - destruct (getConstantIntValue operand) as [c|] eqn:Ec.
    + rewrite bool_decide_true by eauto. auto.
    + rewrite bool_decide_false by (intros [? ?]; discriminate).
      destruct (decide (valueId operand = k)) as [<-|Hne].
      * rewrite lookup_insert_eq. cbn [default from_option id].
        intros H. apply setVectorInsert_In in H. destruct H; [left | right]; auto.
      * rewrite lookup_insert_ne by exact Hne. auto.
  - destruct (decide (valueId operand = k)) as [<-|Hne].
    + rewrite lookup_insert_eq. cbn [default from_option id].
      intros H. apply setVectorInsert_In in H.
      destruct H; [left; assumption | right]. split; [assumption|].
      split; [reflexivity | discriminate].
    + rewrite lookup_insert_ne by exact Hne. auto.
Qed.

Lemma registerOperand_keeps (filterConstants : bool) (assump : Operation)
    (assumptions : gmap N (list Operation)) (operand : Value)
    (k : N) (o : Operation) :
  In o (default [] (assumptions !! k)) ->
  In o (default [] (registerOperand filterConstants assump assumptions operand !! k)).
Proof.
  unfold registerOperand.
  destruct (filterConstants && _); [auto|].
  destruct (decide (valueId operand = k)) as [<-|Hne].
  - rewrite lookup_insert_eq. cbn [default from_option id]. apply setVectorInsert_keeps.
  - rewrite lookup_insert_ne by exact Hne. auto.
Qed.

Lemma registerOperand_registers (filterConstants : bool) (assump : Operation)
    (assumptions : gmap N (list Operation)) (operand : Value) :
  notFiltered filterConstants operand ->
  isRegistered (registerOperand filterConstants assump assumptions operand)
    (valueId operand) assump.
Proof.
  unfold registerOperand, notFiltered, isRegistered. intros Hnf.
  assert (E : filterConstants && bool_decide (is_Some (getConstantIntValue operand)) = false).
  { destruct filterConstants; [|reflexivity]. rewrite Hnf by reflexivity.
    cbn [andb]. apply bool_decide_false. intros [? ?]; discriminate. }
  rewrite E, lookup_insert_eq. cbn [default from_option id]. apply setVectorInsert_has.
Qed.

Lemma registerOperand_NoDup (filterConstants : bool) (assump : Operation)
    (assumptions : gmap N (list Operation)) (operand : Value) :
  (forall k, NoDup (map opId (default [] (assumptions !! k)))) ->
  forall k, NoDup (map opId (default []
                     (registerOperand filterConstants assump assumptions operand !! k))).
Proof.
  intros Hnd k. unfold registerOperand.
  destruct (filterConstants && _); [apply Hnd|].
  destruct (decide (valueId operand = k)) as [<-|Hne].
  - rewrite lookup_insert_eq. cbn [default from_option id].
    apply setVectorInsert_NoDup, Hnd.
  - rewrite lookup_insert_ne by exact Hne. apply Hnd.
Qed.

(** The same, for all the operands of one defining operation. *)
Lemma registerOperands_lookup (filterConstants : bool) (assump : Operation)
    (operands : list Value) (k : N) (o : Operation) :
  forall assumptions,
    In o (default [] (fold_left (registerOperand filterConstants assump) operands
                        assumptions !! k)) ->
    In o (default [] (assumptions !! k))
    \/ (o = assump
        /\ exists operand, In operand operands /\ k = valueId operand
                           /\ notFiltered filterConstants operand).
Proof.
  induction operands as [|operand operands IH]; intros assumptions; cbn [fold_left]; [auto|].
  intros H. apply IH in H. destruct H as [H|(-> & operand' & Hin & Hk & Hnf)].
  - apply registerOperand_lookup in H. destruct H as [H|(-> & -> & Hnf)]; [left; exact H|].
    right. split; [reflexivity|]. exists operand. split; [left; reflexivity|]. auto.
  - right. split; [reflexivity|]. exists operand'. split; [right; exact Hin|]. auto.
Qed.

Lemma registerOperands_keeps (filterConstants : bool) (assump : Operation)
    (operands : list Value) (k : N) (op : Operation) :
  forall assumptions,
    isRegistered assumptions k op ->
    isRegistered (fold_left (registerOperand filterConstants assump) operands assumptions)
      k op.
Proof.
  induction operands as [|operand operands IH]; intros assumptions; cbn [fold_left]; [auto|].
  intros (o & Ho & Hid). apply IH. exists o. split; [|exact Hid].
  apply registerOperand_keeps, Ho.
Qed.

Lemma registerOperands_registers (filterConstants : bool) (assump : Operation)
    (operands : list Value) (operand : Value) :
  In operand operands -> notFiltered filterConstants operand ->
  forall assumptions,
    isRegistered (fold_left (registerOperand filterConstants assump) operands assumptions)
      (valueId operand) assump.
Proof.
  induction operands as [|operand' operands IH]; intros Hin Hnf assumptions; [contradiction|].
  cbn [fold_left]. destruct Hin as [->|Hin].
  - apply registerOperands_keeps, registerOperand_registers, Hnf.
  - apply IH; assumption.
Qed.

Lemma registerOperands_NoDup (filterConstants : bool) (assump : Operation)
    (operands : list Value) :
  forall assumptions,
    (forall k, NoDup (map opId (default [] (assumptions !! k)))) ->
    forall k, NoDup (map opId (default []
                       (fold_left (registerOperand filterConstants assump) operands
                          assumptions !! k))).
Proof.
  induction operands as [|operand operands IH]; intros assumptions Hnd; cbn [fold_left];
    [exact Hnd|].
  apply IH, registerOperand_NoDup, Hnd.
Qed.

(** The walk over the assumes, from an index of which the properties are
    already known. *)
Lemma walkAssumes_lookup (filterConstants : bool) (assumes : list AssumeOp)
    (k : N) (o : Operation) :
  forall assumptions result,
    walkAssumes assumes filterConstants assumptions = Returned result ->
    In o (default [] (result !! k)) ->
    In o (default [] (assumptions !! k))
    \/ (In (mkAssume (Some o)) assumes
        /\ exists operand, In operand (getOperands o) /\ k = valueId operand
                           /\ notFiltered filterConstants operand).
Proof.
  induction assumes as [|[[assump|]] rest IH]; intros assumptions result; cbn [walkAssumes];
    [intros E; inversion E; subst; auto | | discriminate].
  cbn [getCondDefiningOp]. rewrite registerAssumption_fold. intros E Hin.
  destruct (IH _ _ E Hin) as [H|(Ha & Hop)].
  - apply registerOperands_lookup in H. destruct H as [H|(-> & Hop)]; [left; exact H|].
    right. split; [left; reflexivity | exact Hop].
  - right. split; [right; exact Ha | exact Hop].
Qed.

Lemma walkAssumes_keeps (filterConstants : bool) (assumes : list AssumeOp)
    (k : N) (op : Operation) :
  forall assumptions result,
    walkAssumes assumes filterConstants assumptions = Returned result ->
    isRegistered assumptions k op -> isRegistered result k op.
Proof.
  induction assumes as [|[[assump|]] rest IH]; intros assumptions result; cbn [walkAssumes];
    [intros E; inversion E; subst; auto | | discriminate].
  cbn [getCondDefiningOp]. rewrite registerAssumption_fold. intros E Hr.
  apply (IH _ _ E). apply registerOperands_keeps, Hr.
Qed.

Lemma walkAssumes_registers (filterConstants : bool) (assumes : list AssumeOp)
    (assump : Operation) (operand : Value) :
  In (mkAssume (Some assump)) assumes ->
  In operand (getOperands assump) -> notFiltered filterConstants operand ->
  forall assumptions result,
    walkAssumes assumes filterConstants assumptions = Returned result ->
    isRegistered result (valueId operand) assump.
Proof.
  induction assumes as [|[[assump'|]] rest IH]; intros Ha Hop Hnf assumptions result;
    cbn [walkAssumes]; [contradiction | | discriminate].
  cbn [getCondDefiningOp]. rewrite registerAssumption_fold. intros E.
  destruct Ha as [Ha|Ha].
  - inversion Ha; subst assump'.
    apply (walkAssumes_keeps _ _ _ _ _ _ E).
    apply registerOperands_registers; assumption.
  - apply (IH Ha Hop Hnf _ _ E).
Qed.

Lemma walkAssumes_NoDup (filterConstants : bool) (assumes : list AssumeOp) :
  forall assumptions result,
    walkAssumes assumes filterConstants assumptions = Returned result ->
    (forall k, NoDup (map opId (default [] (assumptions !! k)))) ->
    forall k, NoDup (map opId (default [] (result !! k))).
Proof.
  induction assumes as [|[[assump|]] rest IH]; intros assumptions result; cbn [walkAssumes];
    [intros E; inversion E; subst; auto | | discriminate].
  cbn [getCondDefiningOp]. rewrite registerAssumption_fold. intros E Hnd.
  apply (IH _ _ E). apply registerOperands_NoDup, Hnd.
Qed.

Lemma walkAssumes_returns (filterConstants : bool) (assumes : list AssumeOp) :
  ~ In (mkAssume None) assumes ->
  forall assumptions, exists result,
    walkAssumes assumes filterConstants assumptions = Returned result.
Proof.
  induction assumes as [|[[assump|]] rest IH]; intros Hnone assumptions; cbn [walkAssumes].
  - eauto.
  - cbn [getCondDefiningOp]. apply IH. intros H. apply Hnone. right. exact H.
  - exfalso. apply Hnone. left. reflexivity.
Qed.

(** X8: [collectAssumptions] returns an index exactly when the condition
    of every assume of the program is defined by an operation. *)
Theorem collectAssumptions_returns_iff (assumes : list AssumeOp) (filterConstants : bool) :
  (exists assumptions, collectAssumptions assumes filterConstants = Returned assumptions)
  <-> ~ In (mkAssume None) assumes.
Proof.
  split.
  - intros [assumptions E] Hin. unfold collectAssumptions in E.
    rewrite (walkAssumes_null _ _ Hin) in E. discriminate E.
  - intros Hnone. apply walkAssumes_returns, Hnone.
Qed.

(** X9: what the index returned by [collectAssumptions] holds.  An
    operation found under a value defines the condition of an assume and
    has that value among its operands (a value without a known constant,
    when constants are filtered); and the operation that defines the
    condition of an assume is found under each of its operands (under each
    operand without a known constant, when constants are filtered). *)
Theorem collectAssumptions_registered
    (assumes : list AssumeOp) (filterConstants : bool)
    (assumptions : gmap N (list Operation)) :
  collectAssumptions assumes filterConstants = Returned assumptions ->
  (forall k o,
      In o (default [] (assumptions !! k)) ->
      In (mkAssume (Some o)) assumes
      /\ exists operand, In operand (getOperands o) /\ k = valueId operand
                         /\ notFiltered filterConstants operand)
  /\ (forall assump operand,
         In (mkAssume (Some assump)) assumes ->
         In operand (getOperands assump) -> notFiltered filterConstants operand ->
         isRegistered assumptions (valueId operand) assump).
Proof.
  unfold collectAssumptions. intros E. split.
  - intros k o Hin. destruct (walkAssumes_lookup _ _ _ _ _ _ E Hin) as [H|H]; [|exact H].
    rewrite lookup_empty in H. contradiction.
  - intros assump operand Ha Hop Hnf.
    exact (walkAssumes_registers _ _ _ _ Ha Hop Hnf _ _ E).
Qed.

(** From [%x >= 0] and [%x < 1024], constants filtered: both comparisons
    under [%x], nothing under the constants. *)
Lemma collectAssumptions_registered_witness :
  collectAssumptions boundedAssumes true = Returned boundedAssumptions
  /\ (forall k o,
         In o (default [] (boundedAssumptions !! k)) ->
         In (mkAssume (Some o)) boundedAssumes
         /\ exists operand, In operand (getOperands o) /\ k = valueId operand
                            /\ notFiltered true operand)
  /\ (forall assump operand,
         In (mkAssume (Some assump)) boundedAssumes ->
         In operand (getOperands assump) -> notFiltered true operand ->
         isRegistered boundedAssumptions (valueId operand) assump).
Proof.
  split; [reflexivity|].
  apply (collectAssumptions_registered boundedAssumes true boundedAssumptions).
  reflexivity.
Defined.

(** X10: in the index returned by [collectAssumptions] no operation is
    found twice under the same value, however many assumes share the
    operation that defines their condition and however many times the
    value is an operand of it. *)
Theorem collectAssumptions_no_duplicates
    (assumes : list AssumeOp) (filterConstants : bool)
    (assumptions : gmap N (list Operation)) (k : N) :
  collectAssumptions assumes filterConstants = Returned assumptions ->
  NoDup (map opId (default [] (assumptions !! k))).
Proof.
  unfold collectAssumptions. intros E.
  apply (walkAssumes_NoDup _ _ _ _ E). intros k'. rewrite lookup_empty. constructor.
Qed.

(** The same assume twice: [%x >= 0] is found once under [%x]. *)
Lemma collectAssumptions_no_duplicates_witness :
  collectAssumptions (boundedAssumes ++ boundedAssumes) true = Returned boundedAssumptions
  /\ NoDup (map opId (default [] (boundedAssumptions !! valueId x32))).
Proof.
  split; [reflexivity|].
  apply (collectAssumptions_no_duplicates (boundedAssumes ++ boundedAssumes) true
           boundedAssumptions (valueId x32)).
  reflexivity.
Defined.

(** ** What a visit of the region successors does to the cells *)

Lemma widthOf_rangeUnion (a b : ConstantIntRanges.t) :
  widthOf a <> 0%N -> widthOf b <> 0%N ->
  widthOf (ConstantIntRanges.rangeUnion a b) <> 0%N.
Proof.
  unfold widthOf, ConstantIntRanges.rangeUnion. intros Ha Hb.
  destruct (N.eqb_spec (APInt.getBitWidth (ConstantIntRanges.umin a)) 0); [contradiction|].
  destruct (N.eqb_spec (APInt.getBitWidth (ConstantIntRanges.umin b)) 0); [contradiction|].
  cbn [ConstantIntRanges.umin]. destruct (APInt.ult _ _); assumption.
Qed.

Lemma getMaxRange_maxRange (value : Value) :
  (0 < getStorageBitwidth (getType value))%N ->
  getMaxRange value
  = Some (ConstantIntRanges.maxRange (getStorageBitwidth (getType value))).
Proof.
  intros Hw. unfold getMaxRange.
  destruct (N.eqb_spec (getStorageBitwidth (getType value)) 0) as [E|_]; [lia|].
  f_equal. unfold ConstantIntRanges.maxRange, ConstantIntRanges.fromUnsigned.
  unfold APInt.isNonNegative, APInt.getZero, APInt.getMaxValue.
  rewrite isNegative_zero, isNegative_all_ones by exact Hw. reflexivity.
Qed.

Lemma getMaxRange_width (value : Value) (r : ConstantIntRanges.t) :
  getMaxRange value = Some r -> widthOf r <> 0%N.
Proof.
  unfold getMaxRange.
  destruct (N.eqb_spec (getStorageBitwidth (getType value)) 0) as [|Hne]; [discriminate|].
  intros E. inversion E. exact Hne.
Qed.

(** The cell of the anchor after a join, and the other cells. *)
Lemma join_lookup_same (cells : gmap N IntegerValueRange) (anchor : Value)
    (rhs : IntegerValueRange) :
  lookupCell (snd (join cells anchor rhs)) anchor = joinRange (lookupCell cells anchor) rhs.
Proof.
  unfold join. destruct (IntegerValueRange_eq_dec _ _) as [E|_]; cbn [snd].
  - symmetry. exact E.
  - unfold lookupCell at 1. rewrite lookup_insert_eq. reflexivity.
Qed.

Lemma join_lookup_other (cells : gmap N IntegerValueRange) (anchor : Value)
    (rhs : IntegerValueRange) (k : N) :
  k <> valueId anchor -> snd (join cells anchor rhs) !! k = cells !! k.
Proof.
  intros Hne. unfold join. destruct (IntegerValueRange_eq_dec _ _); cbn [snd];
    [reflexivity|]. apply lookup_insert_ne. congruence.
Qed.

(** A join changes the cell of the anchor only when the cell does not
    already hold the joined range, and then the cell exists. *)
Lemma join_cell (cells : gmap N IntegerValueRange) (anchor : Value)
    (rhs : IntegerValueRange) :
  snd (join cells anchor rhs) !! valueId anchor = cells !! valueId anchor
  \/ snd (join cells anchor rhs) !! valueId anchor
     = Some (joinRange (lookupCell cells anchor) rhs).
Proof.
  unfold join. destruct (IntegerValueRange_eq_dec _ _); cbn [snd]; [left; reflexivity|].
  right. apply lookup_insert_eq.
Qed.

Lemma lookupCell_width (cells : gmap N IntegerValueRange) (oper : Value)
    (r : ConstantIntRanges.t) :
  noSentinel cells -> lookupCell cells oper = Some r -> widthOf r <> 0%N.
Proof.
  intros Hns. unfold lookupCell.
  destruct (cells !! valueId oper) as [[o|]|] eqn:E; try discriminate.
  intros Eo. inversion Eo; subst. apply (Hns _ _ E).
Qed.

Lemma join_grows (cells : gmap N IntegerValueRange) (anchor : Value)
    (rhs : IntegerValueRange) :
  noSentinel cells -> (forall r, rhs = Some r -> widthOf r <> 0%N) ->
  noSentinel (snd (join cells anchor rhs))
  /\ neverNarrowed cells (snd (join cells anchor rhs)).
Proof.
  intros Hns Hrhs.
  assert (Hold : forall r, cells !! valueId anchor = Some (Some r) ->
                           lookupCell cells anchor = Some r).
  { intros r E. unfold lookupCell. rewrite E. reflexivity. }
  split.
  - intros k r. destruct (N.eq_dec k (valueId anchor)) as [->|Hne].
    + destruct (join_cell cells anchor rhs) as [E|E];
        unfold IntegerValueRange in *; rewrite E; [apply Hns|].
      intros Er. inversion Er as [Ej]. clear Er.
      destruct (lookupCell cells anchor) as [old|] eqn:Eo; destruct rhs as [new|];
        cbn [joinRange] in Ej; try discriminate Ej; inversion Ej; subst r.
      * apply widthOf_rangeUnion; [|apply Hrhs; reflexivity].
        exact (lookupCell_width _ _ _ Hns Eo).
      * exact (lookupCell_width _ _ _ Hns Eo).
      * apply Hrhs. reflexivity.
    + pose proof (join_lookup_other cells anchor rhs k Hne) as E.
      unfold IntegerValueRange in *. rewrite E. apply Hns.
  - intros k r v Ek Hc. destruct (N.eq_dec k (valueId anchor)) as [->|Hne].
    + destruct (join_cell cells anchor rhs) as [E|E];
        unfold IntegerValueRange in *; rewrite E; [eauto|].
      rewrite (Hold _ Ek). destruct rhs as [new|]; cbn [joinRange]; [|eauto].
      eexists. split; [reflexivity|].
      apply contains_rangeUnion; [apply (Hns _ _ Ek) | apply Hrhs; reflexivity | left; exact Hc].
    + pose proof (join_lookup_other cells anchor rhs k Hne) as E.
      unfold IntegerValueRange in *. rewrite E. eauto.
Qed.

Lemma neverNarrowed_refl (cells : gmap N IntegerValueRange) : neverNarrowed cells cells.
Proof. intros k r v E Hc. eauto. Qed.

Lemma neverNarrowed_trans (c1 c2 c3 : gmap N IntegerValueRange) :
  neverNarrowed c1 c2 -> neverNarrowed c2 c3 -> neverNarrowed c1 c3.
Proof.
  intros H12 H23 k r v E Hc. destruct (H12 _ _ _ E Hc) as (r' & E' & Hc').
  apply (H23 _ _ _ E' Hc').
Qed.

Lemma widthOf_intersectAll (w : N) (rs : list ConstantIntRanges.t) :
  w <> 0%N -> Forall (fun r => widthOf r = w) rs ->
  forall start, widthOf start = w -> widthOf (intersectAll start rs) = w.
Proof.
  intros Hw Hall. induction Hall as [|r rs Hr _ IH]; intros start Hs; [exact Hs|].
  unfold intersectAll in *. cbn [fold_left]. apply IH.
  apply widthOf_intersection; assumption.
Qed.

(** The range assumed for an anchor of a type of some bits is stored at
    that width. *)
Lemma member_width (asm : gmap N (list Operation)) (anchor : Value)
    (r : ConstantIntRanges.t) :
  (getStorageBitwidth (getType anchor) <> 0)%N ->
  snd (TritonIntegerRangeAnalysis.maybeGetAssumedRange asm anchor) = Some r ->
  widthOf r = getStorageBitwidth (getType anchor).
Proof.
  intros Hw. rewrite member_value.
  destruct (TritonIntegerRangeAnalysis.lookupAssumptions asm anchor) as [|a l];
    [discriminate|].
  intros E. injection E as <-. apply widthOf_intersectAll;
    [exact Hw | exact (Forall_widthOf_derived (a :: l) anchor) | apply widthOf_maxRange].
Qed.

Section DriverCells.

Import TritonIntegerRangeAnalysis.

Lemma visitPair_grows (loop : option N) (a : t) (oper argLat : Value) :
  noSentinel (cells a) ->
  noSentinel (cells (visitPair loop a oper argLat))
  /\ neverNarrowed (cells a) (cells (visitPair loop a oper argLat)).
Proof.
  intros Hns.
  pose proof (join_grows (cells a) argLat (getMaxRange oper) Hns
                (getMaxRange_width oper)) as Hmax.
  pose proof (join_grows (cells a) argLat (lookupCell (cells a) oper) Hns
                (fun r => lookupCell_width (cells a) oper r Hns)) as Hop.
  unfold visitPair. destruct loop as [l|]; [|exact Hop].
  destruct (visitsOf a l argLat >=? tripCountOf a l);
    [split; [exact Hns | apply neverNarrowed_refl]|].
  destruct (tripCountOf a l >? kDefaultMaxTripCount);
    [destruct (join (cells a) argLat (getMaxRange oper)) as [[|] cells']
    |destruct (join (cells a) argLat (lookupCell (cells a) oper)) as [[|] cells']];
    cbn [isChange cells withCells snd] in *; assumption.
Qed.

Lemma visitPairs_grows (loop : option N) (pairs : list (Value * Value)) :
  forall a,
    noSentinel (cells a) ->
    noSentinel (cells (visitPairs loop a pairs))
    /\ neverNarrowed (cells a) (cells (visitPairs loop a pairs)).
Proof.
  induction pairs as [|[oper argLat] pairs IH]; intros a Hns.
  - split; [exact Hns | apply neverNarrowed_refl].
  - unfold visitPairs in *. cbn [fold_left].
    destruct (visitPair_grows loop a oper argLat Hns) as [H1 H2].
    destruct (IH _ H1) as [H3 H4].
    split; [exact H3 | exact (neverNarrowed_trans _ _ _ H2 H4)].
Qed.

Lemma setToEntryState_grows (a : t) (anchor : Value) :
  noSentinel (cells a) -> notZeroWidthInteger anchor ->
  noSentinel (cells (setToEntryState a anchor))
  /\ neverNarrowed (cells a) (cells (setToEntryState a anchor)).
Proof.
  intros Hns Hty. unfold setToEntryState.
  assert (Hw : forall ty, getElementTypeOrSelf (getType anchor) = ty ->
                 match ty with IndexType | IntegerType _ => True | _ => False end ->
                 (getStorageBitwidth (getType anchor) <> 0)%N).
  { intros ty E. unfold getStorageBitwidth. rewrite E.
    destruct ty as [w| | |]; try contradiction; intros _; [|discriminate].
    intros ->. apply Hty. exact E. }
  destruct (getElementTypeOrSelf (getType anchor)) as [w| | |] eqn:E;
    try (split; [exact Hns | apply neverNarrowed_refl]);
    cbn [cells withCells]; apply join_grows; try exact Hns;
    (intros r;
     destruct (snd (maybeGetAssumedRange (assumptions a) anchor)) as [r0|] eqn:Em;
     [intros Er; inversion Er; subst r0;
      rewrite (member_width _ _ _ (Hw _ eq_refl I) Em); apply (Hw _ eq_refl I)
     |apply getMaxRange_width]).
Qed.

Lemma setAllToEntryStates_grows (lattices : list Value) :
  Forall notZeroWidthInteger lattices ->
  forall a,
    noSentinel (cells a) ->
    noSentinel (cells (setAllToEntryStates a lattices))
    /\ neverNarrowed (cells a) (cells (setAllToEntryStates a lattices)).
Proof.
  intros Hall. induction Hall as [|anchor lattices Hty _ IH]; intros a Hns.
  - split; [exact Hns | apply neverNarrowed_refl].
  - unfold setAllToEntryStates in *. cbn [fold_left].
    destruct (setToEntryState_grows a anchor Hns Hty) as [H1 H2].
    destruct (IH _ H1) as [H3 H4].
    split; [exact H3 | exact (neverNarrowed_trans _ _ _ H2 H4)].
Qed.

Lemma updateLoopTripCount_cells (a : t) (branchOp : Operation)
    (loop : LoopLikeOpInterface) (lattices : list Value) :
  cells (updateLoopTripCount a branchOp loop lattices) = cells a
  /\ assumptions (updateLoopTripCount a branchOp loop lattices) = assumptions a.
Proof.
  unfold updateLoopTripCount, initializeLoop.
  destruct (bool_decide _);
    match goal with |- context [if ?b then _ else _] => destruct b end;
    split; reflexivity.
Qed.

(** X11: a pair that is not skipped leaves in the target cell a range that
    holds every value of the operand.  After the widening join (a loop
    whose recorded trip count exceeds 1024) it holds every pattern of the
    operand's width, whether or not the range of the operand is known;
    after the propagating join (no loop, or a recorded trip count of at
    most 1024) it holds every pattern within the operand's own range.
    No cell is supposed to hold the width-zero range. *)
Theorem visitPair_propagates (loop : option N) (a : t) (oper argLat : Value)
    (v : APInt.t) :
  let w := getStorageBitwidth (getType oper) in
  let held :=
    exists r',
      lookupCell (cells (visitPair loop a oper argLat)) argLat = Some r'
      /\ contains r' v in
  (forall l, loop = Some l -> visitsOf a l argLat < tripCountOf a l) ->
  noSentinel (cells a) ->
  ((exists l, loop = Some l /\ tripCountOf a l > kDefaultMaxTripCount) ->
   (0 < w)%N -> hasWidth w v -> held)
  /\ ((forall l, loop = Some l -> tripCountOf a l <= kDefaultMaxTripCount) ->
      forall r, lookupCell (cells a) oper = Some r -> contains r v -> held).
Proof.
  intros w held Hlt Hns.
  assert (Hjoin : forall rhs new,
             rhs = Some new -> widthOf new <> 0%N -> contains new v ->
             exists r', lookupCell (snd (join (cells a) argLat rhs)) argLat = Some r'
                        /\ contains r' v).
  { intros rhs new -> Hwn Hcn. rewrite join_lookup_same.
    destruct (lookupCell (cells a) argLat) as [old|] eqn:Eo; cbn [joinRange];
      eexists; (split; [reflexivity|]); [|exact Hcn].
    apply contains_rangeUnion;
      [exact (lookupCell_width _ _ _ Hns Eo) | exact Hwn | right; exact Hcn]. }
  split.
  - intros (l & -> & Hbig) Hw Hv. specialize (Hlt l eq_refl).
    assert (Hmax : exists r',
               lookupCell (snd (join (cells a) argLat (getMaxRange oper))) argLat = Some r'
               /\ contains r' v).
    { apply (Hjoin _ _ (getMaxRange_maxRange oper Hw)).
      - rewrite widthOf_maxRange. fold w. lia.
      - apply contains_maxRange; assumption. }
    unfold held, visitPair.
    destruct (Z.geb_spec (visitsOf a l argLat) (tripCountOf a l)); [lia|].
    destruct (Z.gtb_spec (tripCountOf a l) kDefaultMaxTripCount); [|lia].
    destruct (join (cells a) argLat (getMaxRange oper)) as [[|] cells'];
      cbn [isChange cells withCells snd] in *; assumption.
  - intros Hsmall r Er Hc.
    assert (Hop : exists r',
               lookupCell (snd (join (cells a) argLat (lookupCell (cells a) oper))) argLat
               = Some r' /\ contains r' v).
    { apply (Hjoin _ _ Er); [exact (lookupCell_width _ _ _ Hns Er) | exact Hc]. }
    unfold held, visitPair. destruct loop as [l|]; [|exact Hop].
    specialize (Hlt l eq_refl). specialize (Hsmall l eq_refl).
    destruct (Z.geb_spec (visitsOf a l argLat) (tripCountOf a l)); [lia|].
    destruct (Z.gtb_spec (tripCountOf a l) kDefaultMaxTripCount); [lia|].
    destruct (join (cells a) argLat (lookupCell (cells a) oper)) as [[|] cells'];
      cbn [isChange cells withCells snd] in *; assumption.
Qed.

(** A loop of recorded trip count 2048 and nothing known of [%init]:
    afterwards the range of [%arg] holds 123456, as every pattern of 32
    bits.  No loop, [%init] known to be 5 and [%arg] known to be 0:
    afterwards the range of [%arg] holds 5. *)
Lemma visitPair_propagates_witness :
  (lookupCell (cells bigLoopRecorded) initValue = None
   /\ exists r',
        lookupCell (cells (visitPair (Some 50%N) bigLoopRecorded initValue iterArg)) iterArg
        = Some r'
        /\ contains r' (APInt.mk 32 123456))
  /\ (exists r',
         lookupCell (cells (visitPair None smallLoopAnalysis initValue iterArg)) iterArg
         = Some r'
         /\ contains r' (APInt.mk 32 5)).
Proof.
  split; [split; [reflexivity|]|].
  - apply (visitPair_propagates (Some 50%N) bigLoopRecorded initValue iterArg
             (APInt.mk 32 123456)).
    + intros l H. injection H as <-. vm_compute. reflexivity.
    + intros k r E. unfold bigLoopRecorded in E. cbn [cells] in E.
      rewrite lookup_empty in E. discriminate E.
    + exists 50%N. split; [reflexivity | vm_compute; reflexivity].
    + reflexivity.
    + split; [reflexivity | split; vm_compute; (reflexivity || discriminate)].
  - apply (visitPair_propagates None smallLoopAnalysis initValue iterArg (APInt.mk 32 5))
      with (r := ConstantIntRanges.constant (APInt.make 32 5 true)).
    + intros l H. discriminate H.
    + intros k r. unfold smallLoopAnalysis, smallLoopCells. cbn [cells].
      intros E. apply lookup_insert_Some in E as [[_ E]|[_ E]];
        [|apply lookup_singleton_Some in E as [_ E]];
        inversion E; vm_compute; discriminate.
    + intros l H. discriminate H.
    + reflexivity.
    + vm_compute. repeat split; discriminate.
Defined.

Section Visit.

Variable visitNonControlFlowArguments :
  Operation -> bool -> nat -> nat -> list Value ->
  gmap N IntegerValueRange -> gmap N IntegerValueRange.

Hypothesis visitNonControlFlowArguments_grows :
  forall branchOp isBlockStart firstIndex size lattices cells,
    noSentinel cells ->
    noSentinel (visitNonControlFlowArguments branchOp isBlockStart firstIndex size
                  lattices cells)
    /\ neverNarrowed cells
         (visitNonControlFlowArguments branchOp isBlockStart firstIndex size
            lattices cells).

Lemma visitPredecessors_grows (isBlockStart : bool) (branchOp : Operation)
    (loop : option N) (lattices : list Value) (predecessors : list Predecessor) :
  Forall notZeroWidthInteger lattices ->
  forall a,
    noSentinel (cells a) ->
    noSentinel (cells (visitPredecessors visitNonControlFlowArguments isBlockStart
                         branchOp loop lattices predecessors a))
    /\ neverNarrowed (cells a)
         (cells (visitPredecessors visitNonControlFlowArguments isBlockStart
                   branchOp loop lattices predecessors a)).
Proof.
  intros Hty. induction predecessors as [|op rest IH]; intros a Hns.
  - split; [exact Hns | apply neverNarrowed_refl].
  - cbn [visitPredecessors].
    destruct (successorOperands op) as [operands|];
      [|apply setAllToEntryStates_grows; assumption].
    destruct (bool_decide _).
    + destruct (visitPairs_grows loop (zip operands (drop 0 lattices)) a Hns) as [H1 H2].
      destruct (IH _ H1) as [H3 H4].
      split; [exact H3 | exact (neverNarrowed_trans _ _ _ H2 H4)].
    + match goal with |- context [visitPairs loop (withCells a ?c) ?p] =>
        assert (Hv : noSentinel c /\ neverNarrowed (cells a) c)
          by (apply visitNonControlFlowArguments_grows; exact Hns);
        destruct Hv as [Hv1 Hv2];
        destruct (visitPairs_grows loop p (withCells a c) Hv1) as [H1 H2]
      end.
      destruct (IH _ H1) as [H3 H4].
      split; [exact H3|].
      exact (neverNarrowed_trans _ _ _ Hv2 (neverNarrowed_trans _ _ _ H2 H4)).
Qed.

(** X12: a visit of the region successors never narrows a cell.  When no
    cell holds the width-zero range, no anchor at hand is of the integer
    type of no bits, and the inherited handling of the arguments outside
    the control flow keeps both, then after the visit every cell still
    holds every pattern it held before, and no cell holds the width-zero
    range. *)
Theorem visitRegionSuccessors_never_narrows (a : t) (isBlockStart : bool)
    (branchOp : Operation) (lattices : list Value) (predecessors : list Predecessor) :
  let a' := visitRegionSuccessors visitNonControlFlowArguments a isBlockStart
              branchOp lattices predecessors in
  noSentinel (cells a) -> Forall notZeroWidthInteger lattices ->
  noSentinel (cells a') /\ neverNarrowed (cells a) (cells a').
Proof.
  intros a' Hns Hty. unfold a', visitRegionSuccessors.
  destruct (dynCastLoopLike branchOp) as [loop|];
    [|apply visitPredecessors_grows; assumption].
  destruct (updateLoopTripCount_cells a branchOp loop lattices) as [Ec _].
  assert (Hns' : noSentinel (cells (updateLoopTripCount a branchOp loop lattices)))
    by (rewrite Ec; exact Hns).
  pose proof (visitPredecessors_grows isBlockStart branchOp (Some (opId branchOp))
                lattices predecessors Hty _ Hns') as H.
  rewrite Ec in H. exact H.
Qed.

End Visit.

Lemma smallLoopCells_noSentinel : noSentinel smallLoopCells.
Proof.
  intros k r. unfold smallLoopCells.
  intros E. apply lookup_insert_Some in E as [[_ E]|[_ E]];
    [|apply lookup_singleton_Some in E as [_ E]];
    inversion E; vm_compute; discriminate.
Qed.

(** The loop from 0 to 8 with [%init] known to be 5 and [%arg] known to be
    0: the visit leaves both ranges at least as wide. *)
Lemma visitRegionSuccessors_never_narrows_witness :
  let a' :=
    visitRegionSuccessors noNonControlFlowArguments smallLoopAnalysis true smallLoopOp
      [iterArg] [mkPredecessor (Some [initValue]) [iterArg]] in
  noSentinel (cells a') /\ neverNarrowed (cells smallLoopAnalysis) (cells a').
Proof.
  apply (visitRegionSuccessors_never_narrows noNonControlFlowArguments).
  - intros ? ? ? ? ? c Hc. split; [exact Hc | apply neverNarrowed_refl].
  - exact smallLoopCells_noSentinel.
  - constructor; [|constructor]. unfold notZeroWidthInteger. simpl. discriminate.
Defined.

(** *** What a visit leaves alone *)

Lemma visitPair_frame (loop : option N) (a : t) (oper argLat : Value) :
  assumptions (visitPair loop a oper argLat) = assumptions a
  /\ (forall l c, loop <> Some l ->
                  loopVisits (visitPair loop a oper argLat) !! (l, c) = loopVisits a !! (l, c)).
Proof.
  unfold visitPair. destruct loop as [l0|]; [|split; reflexivity].
  destruct (visitsOf a l0 argLat >=? tripCountOf a l0); [split; reflexivity|].
  destruct (tripCountOf a l0 >? kDefaultMaxTripCount);
    destruct (join _ _ _) as [[|] cells']; cbn [isChange]; split; try reflexivity;
    intros l c Hne; cbn [loopVisits]; apply lookup_insert_ne; congruence.
Qed.

Lemma visitPairs_frame (loop : option N) (pairs : list (Value * Value)) :
  forall a,
    assumptions (visitPairs loop a pairs) = assumptions a
    /\ (forall l c, loop <> Some l ->
                    loopVisits (visitPairs loop a pairs) !! (l, c) = loopVisits a !! (l, c)).
Proof.
  induction pairs as [|[oper argLat] pairs IH]; intros a; [split; reflexivity|].
  unfold visitPairs in *. cbn [fold_left].
  destruct (IH (visitPair loop a oper argLat)) as [H1 H2].
  destruct (visitPair_frame loop a oper argLat) as [H3 H4].
  split; [congruence|]. intros l c Hne. rewrite H2, H4 by exact Hne. reflexivity.
Qed.

Lemma setAllToEntryStates_assumptions (lattices : list Value) :
  forall a, assumptions (setAllToEntryStates a lattices) = assumptions a.
Proof.
  induction lattices as [|v lattices IH]; intros a; [reflexivity|].
  unfold setAllToEntryStates in *. cbn [fold_left]. rewrite IH.
  unfold setToEntryState. destruct (getElementTypeOrSelf (getType v)); reflexivity.
Qed.

Lemma initializeLoop_frame (a : t) (loop : N) (lattices : list Value) (l : N) (c : N) :
  l <> loop ->
  loopVisits (initializeLoop a loop lattices) !! (l, c) = loopVisits a !! (l, c).
Proof.
  intros Hne. unfold initializeLoop. cbn [loopVisits].
  generalize (loopVisits a) as visits.
  induction lattices as [|v lattices IH]; intros visits; [reflexivity|].
  cbn [fold_left]. rewrite IH. apply lookup_insert_ne. congruence.
Qed.

Section VisitFrame.

Variable visitNonControlFlowArguments :
  Operation -> bool -> nat -> nat -> list Value ->
  gmap N IntegerValueRange -> gmap N IntegerValueRange.

Lemma visitPredecessors_frame (isBlockStart : bool) (branchOp : Operation)
    (loop : option N) (lattices : list Value) (predecessors : list Predecessor) :
  forall a,
    let a' := visitPredecessors visitNonControlFlowArguments isBlockStart
                branchOp loop lattices predecessors a in
    assumptions a' = assumptions a
    /\ (forall l c, loop <> Some l -> loopVisits a' !! (l, c) = loopVisits a !! (l, c)).
Proof.
  induction predecessors as [|op rest IH]; intros a; [split; reflexivity|].
  cbn zeta in *. cbn [visitPredecessors].
  destruct (successorOperands op) as [operands|].
  - destruct (bool_decide _);
      match goal with |- context [visitPairs loop ?s ?p] =>
        destruct (IH (visitPairs loop s p)) as [H1 H2];
        destruct (visitPairs_frame loop p s) as [H3 H4]
      end;
      (split; [rewrite H1, H3; reflexivity|]);
      intros l c Hne; rewrite H2, H4 by exact Hne; reflexivity.
  - split; [apply setAllToEntryStates_assumptions|].
    intros l c _. destruct (setAllToEntryStates_counters lattices a) as [_ E].
    rewrite E. reflexivity.
Qed.

(** X13: what a visit of the region successors leaves alone.  The
    assumptions are never changed; the recorded bound and the counters of
    every other loop stay as they were; and when the branch is not a
    loop, no bound and no counter is changed at all. *)
Theorem visitRegionSuccessors_frame (a : t) (isBlockStart : bool)
    (branchOp : Operation) (lattices : list Value) (predecessors : list Predecessor) :
  let a' := visitRegionSuccessors visitNonControlFlowArguments a isBlockStart
              branchOp lattices predecessors in
  assumptions a' = assumptions a
  /\ (forall l, l <> opId branchOp -> loopTripCounts a' !! l = loopTripCounts a !! l)
  /\ (forall l c, l <> opId branchOp -> loopVisits a' !! (l, c) = loopVisits a !! (l, c))
  /\ (dynCastLoopLike branchOp = None ->
      loopTripCounts a' = loopTripCounts a /\ loopVisits a' = loopVisits a).
Proof.
  intros a'. unfold a', visitRegionSuccessors.
  destruct (dynCastLoopLike branchOp) as [loop|].
  - match goal with |- context [visitPredecessors _ _ _ ?lp _ _ ?s] =>
      destruct (visitPredecessors_frame isBlockStart branchOp lp lattices predecessors s)
        as [H1 H2];
      pose proof (visitPredecessors_loopTripCounts visitNonControlFlowArguments
                    isBlockStart branchOp lp lattices predecessors s) as H3
    end.
    cbn zeta in H1, H2.
    assert (Hu : assumptions (updateLoopTripCount a branchOp loop lattices) = assumptions a
                 /\ (forall l, l <> opId branchOp ->
                        loopTripCounts (updateLoopTripCount a branchOp loop lattices) !! l
                        = loopTripCounts a !! l)
                 /\ (forall l c, l <> opId branchOp ->
                        loopVisits (updateLoopTripCount a branchOp loop lattices) !! (l, c)
                        = loopVisits a !! (l, c))).
    { unfold updateLoopTripCount.
      destruct (bool_decide _);
        match goal with |- context [if ?b then _ else _] => destruct b end;
        (split; [reflexivity|]); split; intros l; intros;
        cbn [loopTripCounts loopVisits initializeLoop];
        rewrite ?lookup_insert_ne by congruence;
        try reflexivity;
        try (apply (initializeLoop_frame a (opId branchOp) lattices); assumption). }
    destruct Hu as (Hu1 & Hu2 & Hu3).
    split; [congruence|]. split; [|split].
    + intros l Hne. rewrite H3. apply Hu2, Hne.
    + intros l c Hne. rewrite H2 by congruence. apply Hu3, Hne.
    + discriminate.
  - destruct (visitPredecessors_frame isBlockStart branchOp None lattices predecessors a)
      as [H1 H2].
    pose proof (visitPredecessors_loopTripCounts visitNonControlFlowArguments
                  isBlockStart branchOp None lattices predecessors a) as H3.
    cbn zeta in H1, H2.
    split; [exact H1|]. split; [intros; rewrite H3; reflexivity|].
    split; [intros; apply H2; discriminate|].
    intros _. split; [exact H3|].
    apply map_eq. intros [l c]. apply H2. discriminate.
Qed.

End VisitFrame.

(** *** The entry state *)

Lemma noSentinel_empty : noSentinel ∅.
Proof. intros k r E. rewrite lookup_empty in E. discriminate E. Qed.

(** What the cell of the anchor holds after it is joined with the range
    assumed for the anchor, or with the max-range when nothing is
    assumed. *)
Lemma entry_join_sound (asm : gmap N (list Operation))
    (cs : gmap N IntegerValueRange) (anchor : Value) (v : APInt.t) :
  let w := getStorageBitwidth (getType anchor) in
  (0 < w)%N -> (w <= 64)%N -> hasWidth w v -> noSentinel cs ->
  Forall (fun assumption => satisfiesAssumption assumption anchor v)
         (lookupAssumptions asm anchor) ->
  exists r,
    lookupCell (snd (join cs anchor
                       match snd (maybeGetAssumedRange asm anchor) with
                       | Some r => Some r
                       | None => getMaxRange anchor
                       end)) anchor = Some r
    /\ contains r v.
Proof.
  intros w Hw Hw64 Hv Hns Hall. rewrite join_lookup_same.
  assert (Hrange : exists new,
             match snd (maybeGetAssumedRange asm anchor) with
             | Some r => Some r
             | None => getMaxRange anchor
             end = Some new /\ widthOf new <> 0%N /\ contains new v).
  { rewrite member_value.
    destruct (lookupAssumptions asm anchor) as [|a0 l] eqn:Em.
    - rewrite (getMaxRange_maxRange anchor Hw). eexists. split; [reflexivity|].
      split; [rewrite widthOf_maxRange; fold w; lia | apply contains_maxRange; assumption].
    - eexists. split; [reflexivity|]. split.
      + rewrite (widthOf_intersectAll w);
          [fold w; lia | lia | exact (Forall_widthOf_derived (a0 :: l) anchor)
          | apply widthOf_maxRange].
      + apply derivedRanges_contain_satisfying; assumption. }
  destruct Hrange as (new & E & Hwn & Hcn).
  unfold IntegerValueRange in *. rewrite E.
  destruct (lookupCell cs anchor) as [old|] eqn:Eo; cbn [joinRange];
    eexists; (split; [reflexivity|]); [|exact Hcn].
  apply contains_rangeUnion;
    [exact (lookupCell_width _ _ _ Hns Eo) | exact Hwn | right; exact Hcn].
Qed.

(** X14: after [setToEntryState], the cell of an anchor of integer or
    index type (of at most 64 bits) holds every pattern of its width that
    satisfies all the assumptions registered against the anchor: every
    pattern of the width when none is registered. *)
Theorem setToEntryState_sound (a : t) (anchor : Value) (v : APInt.t) :
  let w := getStorageBitwidth (getType anchor) in
  (0 < w)%N -> (w <= 64)%N -> hasWidth w v -> noSentinel (cells a) ->
  Forall (fun assumption => satisfiesAssumption assumption anchor v)
         (lookupAssumptions (assumptions a) anchor) ->
  exists r,
    lookupCell (cells (setToEntryState a anchor)) anchor = Some r /\ contains r v.
Proof.
  intros w Hw Hw64 Hv Hns Hall.
  pose proof (entry_join_sound (assumptions a) (cells a) anchor v Hw Hw64 Hv Hns Hall) as H.
  unfold setToEntryState. unfold w, getStorageBitwidth in Hw.
  destruct (getElementTypeOrSelf (getType anchor)); try lia; exact H.
Qed.

(** [%x >= 0] and [%x < 1024] registered against [%x], nothing visited:
    the entry state of [%x] holds 7. *)
Lemma setToEntryState_sound_witness :
  exists r,
    lookupCell (cells (setToEntryState boundedAnalysis x32)) x32 = Some r
    /\ contains r (APInt.mk 32 7).
Proof.
  apply (setToEntryState_sound boundedAnalysis x32 (APInt.mk 32 7)).
  - reflexivity.
  - vm_compute. discriminate.
  - split; [reflexivity | split; vm_compute; (reflexivity || discriminate)].
  - exact noSentinel_empty.
  - repeat constructor; vm_compute; discriminate.
Defined.

(** *** The arguments of a function *)

Lemma initializeFuncOp_assumptions (arguments : list Value) :
  forall a, assumptions (initializeFuncOp a arguments) = assumptions a.
Proof.
  induction arguments as [|argument arguments IH]; intros a; [reflexivity|].
  unfold initializeFuncOp in *. cbn [fold_left]. rewrite IH.
  destruct (lookupAssumptions (assumptions a) argument); reflexivity.
Qed.

Lemma initializeFuncOp_grows (arguments : list Value) :
  forall a,
    Forall (fun argument =>
              lookupAssumptions (assumptions a) argument <> [] ->
              getStorageBitwidth (getType argument) <> 0%N) arguments ->
    noSentinel (cells a) ->
    noSentinel (cells (initializeFuncOp a arguments))
    /\ neverNarrowed (cells a) (cells (initializeFuncOp a arguments)).
Proof.
  induction arguments as [|argument arguments IH]; intros a Hall Hns.
  - split; [exact Hns | apply neverNarrowed_refl].
  - inversion Hall as [|? ? Hw Hrest]; subst.
    unfold initializeFuncOp in *. cbn [fold_left].
    destruct (lookupAssumptions (assumptions a) argument) as [|a0 l] eqn:Em;
      [apply IH; assumption|].
    match goal with |- context [withCells a (snd (join (cells a) argument ?rg))] =>
      destruct (join_grows (cells a) argument rg Hns) as [H1 H2]
    end.
    { intros r. destruct (snd (maybeGetAssumedRange (assumptions a) argument)) as [r0|] eqn:E;
        [|apply getMaxRange_width].
      intros Er. inversion Er; subst r0.
      rewrite (member_width _ _ _ (Hw ltac:(discriminate)) E).
      apply Hw. discriminate. }
    match goal with |- context [fold_left ?f arguments ?s] =>
      destruct (IH s) as [H3 H4]; [exact Hrest | exact H1 |]
    end.
    split; [exact H3 | exact (neverNarrowed_trans _ _ _ H2 H4)].
Qed.

(** X15: after [initializeFuncOp], the cell of an argument against which
    assumptions are registered holds every pattern of the argument's
    width that satisfies all of them. *)
Theorem initializeFuncOp_sound (a : t) (arguments : list Value) (argument : Value)
    (v : APInt.t) :
  let w := getStorageBitwidth (getType argument) in
  let matching := lookupAssumptions (assumptions a) argument in
  In argument arguments -> matching <> [] ->
  (0 < w)%N -> (w <= 64)%N -> hasWidth w v -> noSentinel (cells a) ->
  Forall (fun other =>
            lookupAssumptions (assumptions a) other <> [] ->
            getStorageBitwidth (getType other) <> 0%N) arguments ->
  Forall (fun assumption => satisfiesAssumption assumption argument v) matching ->
  exists r,
    lookupCell (cells (initializeFuncOp a arguments)) argument = Some r /\ contains r v.
Proof.
  intros w matching Hin Hne Hw Hw64 Hv Hns Hwidths Hall. unfold matching in *. clear matching.
  revert a Hne Hns Hwidths Hall.
  induction arguments as [|argument' arguments IH]; intros a Hne Hns Hwidths Hall;
    [contradiction|].
  inversion Hwidths as [|? ? Hw' Hrest]; subst.
  assert (Hstep : noSentinel (cells (initializeFuncOp a [argument']))
                  /\ neverNarrowed (cells a) (cells (initializeFuncOp a [argument']))).
  { apply initializeFuncOp_grows; [constructor; [exact Hw' | constructor] | exact Hns]. }
  destruct Hstep as [Hns1 Hnn1].
  change (initializeFuncOp a (argument' :: arguments))
    with (initializeFuncOp (initializeFuncOp a [argument']) arguments).
  assert (Hasm : assumptions (initializeFuncOp a [argument']) = assumptions a)
    by apply initializeFuncOp_assumptions.
  destruct Hin as [->|Hin].
  - assert (Hhere : exists r, lookupCell (cells (initializeFuncOp a [argument])) argument
                              = Some r /\ contains r v).
    { unfold initializeFuncOp. cbn [fold_left].
      destruct (lookupAssumptions (assumptions a) argument) as [|a0 l] eqn:Em;
        [contradiction|]. cbn [cells withCells].
      apply entry_join_sound; try assumption. rewrite Em. exact Hall. }
    destruct Hhere as (r & Er & Hc).
    destruct (initializeFuncOp_grows arguments (initializeFuncOp a [argument]))
      as [_ Hnn]; [rewrite Hasm; exact Hrest | exact Hns1 |].
    unfold lookupCell in Er.
    destruct (cells (initializeFuncOp a [argument]) !! valueId argument)
      as [[o|]|] eqn:Ec; try discriminate Er.
    injection Er as ->.
    destruct (Hnn _ _ _ Ec Hc) as (r' & Er' & Hc').
    exists r'. split; [|exact Hc']. unfold lookupCell.
    unfold IntegerValueRange in *. rewrite Er'. reflexivity.
  - apply IH; rewrite ?Hasm; assumption.
Qed.

(** A function of the arguments [%y] and [%x], with [%x >= 0] and
    [%x < 1024] registered against [%x]: afterwards the cell of [%x]
    holds 7. *)
Lemma initializeFuncOp_sound_witness :
  exists r,
    lookupCell (cells (initializeFuncOp boundedAnalysis [y32; x32])) x32 = Some r
    /\ contains r (APInt.mk 32 7).
Proof.
  apply (initializeFuncOp_sound boundedAnalysis [y32; x32] x32 (APInt.mk 32 7)).
  - right. left. reflexivity.
  - vm_compute. discriminate.
  - reflexivity.
  - vm_compute. discriminate.
  - split; [reflexivity | split; vm_compute; (reflexivity || discriminate)].
  - exact noSentinel_empty.
  - repeat constructor; intros _; vm_compute; discriminate.
  - repeat constructor; vm_compute; discriminate.
Defined.

(** X16: [initializeFuncOp] leaves alone every cell other than those of
    the arguments against which assumptions are registered: an argument
    without assumptions keeps the cell it had, uninitialized when nothing
    was known of it. *)
Theorem initializeFuncOp_untouched (a : t) (arguments : list Value) (k : N) :
  (forall argument,
      In argument arguments -> valueId argument = k ->
      lookupAssumptions (assumptions a) argument = []) ->
  cells (initializeFuncOp a arguments) !! k = cells a !! k.
Proof.
  revert a. induction arguments as [|argument arguments IH]; intros a Hk; [reflexivity|].
  change (initializeFuncOp a (argument :: arguments))
    with (initializeFuncOp (initializeFuncOp a [argument]) arguments).
  assert (Hasm : assumptions (initializeFuncOp a [argument]) = assumptions a)
    by apply initializeFuncOp_assumptions.
  rewrite IH by (intros arg Hin E; rewrite Hasm; apply Hk; [right; exact Hin | exact E]).
  unfold initializeFuncOp. cbn [fold_left].
  destruct (lookupAssumptions (assumptions a) argument) as [|a0 l] eqn:Em; [reflexivity|].
  cbn [cells withCells]. apply join_lookup_other.
  intros E. rewrite (Hk argument (or_introl eq_refl) (eq_sym E)) in Em. discriminate Em.
Qed.

(** Nothing is registered against [%y]: its cell stays as it was. *)
Lemma initializeFuncOp_untouched_witness :
  cells (initializeFuncOp boundedAnalysis [y32; x32]) !! valueId y32
  = cells boundedAnalysis !! valueId y32.
Proof.
  apply (initializeFuncOp_untouched boundedAnalysis [y32; x32] (valueId y32)).
  intros argument [<-|[<-|[]]]; [reflexivity | vm_compute; discriminate].
Defined.

End DriverCells.

(** ** The transfer function of an operation *)

Lemma widthOf_intersection_nonzero (a b : ConstantIntRanges.t) :
  widthOf a <> 0%N -> widthOf b <> 0%N ->
  widthOf (ConstantIntRanges.intersection a b) <> 0%N.
Proof.
  unfold widthOf, ConstantIntRanges.intersection. intros Ha Hb.
  destruct (N.eqb_spec (APInt.getBitWidth (ConstantIntRanges.umin a)) 0); [contradiction|].
  destruct (N.eqb_spec (APInt.getBitWidth (ConstantIntRanges.umin b)) 0); [contradiction|].
  cbn [ConstantIntRanges.umin]. destruct (APInt.ugt _ _); assumption.
Qed.

Lemma existsb_Value_eqb (v : Value) (results : list Value) :
  existsb (Value_eqb v) results = true <->
  exists result, In result results /\ valueId result = valueId v.
Proof.
  rewrite existsb_exists. unfold Value_eqb.
  split; intros (x & Hin & E); exists x; (split; [exact Hin|]).
  - apply N.eqb_eq in E. congruence.
  - apply N.eqb_eq. congruence.
Qed.

Section VisitOperationProperties.

Import TritonIntegerRangeAnalysis.

Variable isaOpResult : Value -> bool.
Variable isSigned : Value -> bool.
Variable inferResultRangesFromOptional :
  VisitedOperation -> list IntegerValueRange -> list (Value * IntegerValueRange).


Lemma initializeWithAssumptions_none (a : t) (resultsLattices : list Value) :
  (forall anchor, In anchor resultsLattices ->
                  lookupAssumptions (assumptions a) anchor <> [] ->
                  lookupCell (cells a) anchor <> None) ->
  initializeWithAssumptions a resultsLattices = None.
Proof.
  induction resultsLattices as [|resultLattice rest IH]; intros H; [reflexivity|].
  cbn [initializeWithAssumptions].
  rewrite IH by (intros anchor Hin; apply H; right; exact Hin).
  destruct (lookupCell (cells a) resultLattice) as [r|] eqn:Ec; [reflexivity|].
  destruct (lookupAssumptions (assumptions a) resultLattice) as [|a0 l] eqn:Ea;
    [reflexivity|].
  exfalso. apply (H resultLattice); [left; reflexivity | rewrite Ea; discriminate | exact Ec].
Qed.


Lemma initializeWithAssumptions_inv (a a' : t) (resultsLattices : list Value) :
  initializeWithAssumptions a resultsLattices = Some a' ->
  exists first, In first resultsLattices /\ a' = setToEntryState a first.
Proof.
  induction resultsLattices as [|resultLattice rest IH]; [discriminate|].
  cbn [initializeWithAssumptions].
  assert (Hrest : initializeWithAssumptions a rest = Some a' ->
                  exists first, In first (resultLattice :: rest)
                                /\ a' = setToEntryState a first).
  { intros H. destruct (IH H) as (first & H1 & H2). exists first. split; [right|]; assumption. }
  destruct (lookupCell (cells a) resultLattice); [exact Hrest|].
  destruct (lookupAssumptions (assumptions a) resultLattice); [exact Hrest|].
  intros E. injection E as <-. exists resultLattice. split; [left|]; reflexivity.
Qed.

(** *** What the visit of an operation leaves alone *)

Lemma setToEntryState_frame (a : t) (anchor : Value) :
  assumptions (setToEntryState a anchor) = assumptions a
  /\ loopTripCounts (setToEntryState a anchor) = loopTripCounts a
  /\ loopVisits (setToEntryState a anchor) = loopVisits a
  /\ (forall k, k <> valueId anchor ->
                cells (setToEntryState a anchor) !! k = cells a !! k).
Proof.
  unfold setToEntryState.
  destruct (getElementTypeOrSelf (getType anchor));
    (split; [reflexivity|]); (split; [reflexivity|]); (split; [reflexivity|]);
    intros k Hk; try reflexivity; cbn [cells withCells]; apply join_lookup_other, Hk.
Qed.

Lemma setAllToEntryStates_frame (lattices : list Value) :
  forall a,
    assumptions (setAllToEntryStates a lattices) = assumptions a
    /\ loopTripCounts (setAllToEntryStates a lattices) = loopTripCounts a
    /\ loopVisits (setAllToEntryStates a lattices) = loopVisits a
    /\ (forall k, (forall anchor, In anchor lattices -> valueId anchor <> k) ->
                  cells (setAllToEntryStates a lattices) !! k = cells a !! k).
Proof.
  induction lattices as [|anchor lattices IH]; intros a.
  - repeat (split; [reflexivity|]). reflexivity.
  - unfold setAllToEntryStates in *. cbn [fold_left].
    destruct (IH (setToEntryState a anchor)) as (H1 & H2 & H3 & H4).
    destruct (setToEntryState_frame a anchor) as (G1 & G2 & G3 & G4).
    split; [congruence|]. split; [congruence|]. split; [congruence|].
    intros k Hk. rewrite H4 by (intros x Hx; apply Hk; right; exact Hx).
    apply G4. intros E. apply (Hk anchor); [left; reflexivity | congruence].
Qed.

Lemma joinCallback_frame (op : VisitedOperation) (a a' : t) (v : Value)
    (incomingRange : IntegerValueRange) :
  joinCallback isaOpResult op a v incomingRange = Some a' ->
  assumptions a' = assumptions a
  /\ loopTripCounts a' = loopTripCounts a
  /\ loopVisits a' = loopVisits a
  /\ (forall k, (forall result, In result (getResults op) -> valueId result <> k) ->
                cells a' !! k = cells a !! k).
Proof.
  unfold joinCallback. destruct (isaOpResult v); cbn [negb];
    [|intros E; injection E as <-; repeat (split; [reflexivity|]); reflexivity].
  destruct (existsb (Value_eqb v) (getResults op)) eqn:Ex; cbn [negb]; [|discriminate].
  apply existsb_Value_eqb in Ex. destruct Ex as (result & Hin & Hid).
  assert (Hk : forall k, (forall result, In result (getResults op) -> valueId result <> k) ->
                         k <> valueId v).
  { intros k H E. apply (H result Hin). congruence. }
  destruct (snd (maybeGetAssumedRange (assumptions a) v)) as [maybeRange|];
    [destruct incomingRange as [incoming|]; [|discriminate]|];
    intros E; injection E as <-;
    (split; [reflexivity|]); (split; [reflexivity|]); (split; [reflexivity|]);
    intros k H; cbn [cells withCells]; apply join_lookup_other, Hk, H.
Qed.

Lemma setResultRanges_frame (op : VisitedOperation)
    (calls : list (Value * IntegerValueRange)) :
  forall a a',
    setResultRanges isaOpResult op a calls = Some a' ->
    assumptions a' = assumptions a
    /\ loopTripCounts a' = loopTripCounts a
    /\ loopVisits a' = loopVisits a
    /\ (forall k, (forall result, In result (getResults op) -> valueId result <> k) ->
                  cells a' !! k = cells a !! k).
Proof.
  induction calls as [|[v incomingRange] calls IH]; intros a a'; cbn [setResultRanges].
  - intros E; injection E as <-. repeat (split; [reflexivity|]). reflexivity.
  - destruct (joinCallback isaOpResult op a v incomingRange) as [a1|] eqn:E1; [|discriminate].
    intros E. destruct (IH _ _ E) as (H1 & H2 & H3 & H4).
    destruct (joinCallback_frame _ _ _ _ _ E1) as (G1 & G2 & G3 & G4).
    split; [congruence|]. split; [congruence|]. split; [congruence|].
    intros k Hk. rewrite H4 by exact Hk. apply G4, Hk.
Qed.

(** X18: what the visit of an operation leaves alone.  Whatever the
    operation and whatever its interface reports, the visit changes no
    assumption, no recorded bound, no counter, and no cell other than
    those of the results of the operation. *)
Theorem visitOperation_frame (a a' : t) (op : VisitedOperation) :
  visitOperation isaOpResult isSigned inferResultRangesFromOptional a op = Some a' ->
  assumptions a' = assumptions a
  /\ loopTripCounts a' = loopTripCounts a
  /\ loopVisits a' = loopVisits a
  /\ (forall k, (forall result, In result (getResults op) -> valueId result <> k) ->
                cells a' !! k = cells a !! k).
Proof.
  unfold visitOperation.
  destruct (initializeWithAssumptions a (getResults op)) as [a1|] eqn:Ei.
  - intros E; injection E as <-.
    destruct (initializeWithAssumptions_inv _ _ _ Ei) as (first & Hin & ->).
    destruct (setToEntryState_frame a first) as (G1 & G2 & G3 & G4).
    split; [exact G1|]. split; [exact G2|]. split; [exact G3|].
    intros k Hk. apply G4. intros E. apply (Hk first Hin). congruence.
  - assert (Hentry : Some (setAllToEntryStates a (getResults op)) = Some a' ->
              assumptions a' = assumptions a
              /\ loopTripCounts a' = loopTripCounts a
              /\ loopVisits a' = loopVisits a
              /\ (forall k, (forall result, In result (getResults op) ->
                                            valueId result <> k) ->
                            cells a' !! k = cells a !! k)).
    { intros E; injection E as <-. apply setAllToEntryStates_frame. }
    destruct (getKind op);
      try exact Hentry;
      try (destruct (fixedRangeCalls isSigned op) as [calls|]; [|discriminate];
           apply setResultRanges_frame);
      try (destruct (getValues _) as [argConstIntRanges|]; [|exact Hentry];
           destruct (forwardingCalls op argConstIntRanges) as [calls|]; [|discriminate];
           apply setResultRanges_frame).
    apply setResultRanges_frame.
Qed.

(** *** The fixed range of a program id *)

Lemma member_none (asm : gmap N (list Operation)) (anchor : Value) :
  lookupAssumptions asm anchor = [] -> snd (maybeGetAssumedRange asm anchor) = None.
Proof. intros E. rewrite member_value, E. reflexivity. Qed.

(** X19: the visit of a [get_program_id] or a [get_num_programs] whose
    result, of an integer type of [w] bits, is uninitialized and has no
    assumption registered against it, sets the range of the result from 0
    to 65535 (program id) or from 0 to 65536 (number of programs), in the
    unsigned and in the signed view. *)
Theorem visitOperation_program_id (a : t) (op : VisitedOperation) (result : Value)
    (w : N) :
  getKind op = GetProgramIdOp \/ getKind op = GetNumProgramsOp ->
  getResults op = [result] -> getType result = IntegerType w ->
  (0 < w)%N -> (w <= 64)%N -> maxOfPID (getKind op) < pow2 (w - 1) ->
  isaOpResult result = true ->
  lookupCell (cells a) result = None ->
  lookupAssumptions (assumptions a) result = [] ->
  exists a' r,
    visitOperation isaOpResult isSigned inferResultRangesFromOptional a op = Some a'
    /\ lookupCell (cells a') result = Some r
    /\ APInt.getZExtValue (ConstantIntRanges.umin r) = 0
    /\ APInt.getZExtValue (ConstantIntRanges.umax r) = maxOfPID (getKind op)
    /\ APInt.getSExtValue (ConstantIntRanges.smin r) = 0
    /\ APInt.getSExtValue (ConstantIntRanges.smax r) = maxOfPID (getKind op).
Proof.
  intros Hkind Hres Hty Hw Hw64 Hmax Hop Hcell Hasm.
  assert (Hpos : 0 <= maxOfPID (getKind op)).
  { destruct Hkind as [-> | ->]; vm_compute; discriminate. }
  assert (Hcalls : fixedRangeCalls isSigned op
                   = Some [(result,
                            Some (ConstantIntRanges.range
                                    (APInt.make w 0 (isSigned result))
                                    (APInt.make w (maxOfPID (getKind op)) (isSigned result))
                                    (isSigned result)))]).
  { unfold fixedRangeCalls. rewrite Hres. cbn [map]. rewrite Hty.
    destruct Hkind as [-> | ->]; reflexivity. }
  assert (Hvisit : visitOperation isaOpResult isSigned inferResultRangesFromOptional a op
                   = setResultRanges isaOpResult op a
                       [(result,
                         Some (ConstantIntRanges.range
                                 (APInt.make w 0 (isSigned result))
                                 (APInt.make w (maxOfPID (getKind op)) (isSigned result))
                                 (isSigned result)))]).
  { unfold visitOperation.
    rewrite initializeWithAssumptions_none
      by (rewrite Hres; intros anchor [<-|[]] H; contradiction).
    rewrite Hcalls. destruct Hkind as [-> | ->]; reflexivity. }
  rewrite Hvisit. cbn [setResultRanges]. unfold joinCallback.
  rewrite Hop, Hres. cbn [negb existsb]. unfold Value_eqb at 1. rewrite N.eqb_refl.
  cbn [orb negb]. rewrite (member_none _ _ Hasm).
  eexists. eexists. split; [reflexivity|]. cbn [cells withCells].
  rewrite join_lookup_same, Hcell. cbn [joinRange]. split; [reflexivity|].
  apply (range_small w 0 (maxOfPID (getKind op)) (isSigned result)); (assumption || lia).
Qed.

(** *** The rules that forward the ranges of the operands *)

Lemma join_covers (cs : gmap N IntegerValueRange) (anchor : Value)
    (new : ConstantIntRanges.t) (v : APInt.t) :
  noSentinel cs -> widthOf new <> 0%N -> contains new v ->
  exists r', lookupCell (snd (join cs anchor (Some new))) anchor = Some r' /\ contains r' v.
Proof.
  intros Hns Hwn Hcn. rewrite join_lookup_same.
  destruct (lookupCell cs anchor) as [old|] eqn:Eo; cbn [joinRange];
    eexists; (split; [reflexivity|]); [|exact Hcn].
  apply contains_rangeUnion;
    [exact (lookupCell_width _ _ _ Hns Eo) | exact Hwn | right; exact Hcn].
Qed.

Lemma lookupCell_Some (cs : gmap N IntegerValueRange) (anchor : Value)
    (r : ConstantIntRanges.t) :
  lookupCell cs anchor = Some r <-> cs !! valueId anchor = Some (Some r).
Proof.
  unfold lookupCell. unfold IntegerValueRange in *.
  destruct (cs !! valueId anchor) as [[o|]|]; cbn [default from_option id];
    split; intros E; try discriminate E; congruence.
Qed.

Lemma joinCallback_covers (op : VisitedOperation) (a a' : t) (res : Value)
    (x : ConstantIntRanges.t) (v : APInt.t) :
  joinCallback isaOpResult op a res (Some x) = Some a' ->
  isaOpResult res = true ->
  noSentinel (cells a) -> widthOf x <> 0%N -> contains x v ->
  withinAssumptions (assumptions a) res v ->
  (exists r', lookupCell (cells a') res = Some r' /\ contains r' v)
  /\ noSentinel (cells a') /\ neverNarrowed (cells a) (cells a')
  /\ assumptions a' = assumptions a.
Proof.
  unfold joinCallback. intros E Hop Hns Hwx Hcx Hwithin. rewrite Hop in E. cbn [negb] in E.
  destruct (existsb (Value_eqb res) (getResults op)); cbn [negb] in E; [|discriminate E].
  assert (Hjoin : forall new, widthOf new <> 0%N -> contains new v ->
            (exists r', lookupCell (snd (join (cells a) res (Some new))) res = Some r'
                        /\ contains r' v)
            /\ noSentinel (snd (join (cells a) res (Some new)))
            /\ neverNarrowed (cells a) (snd (join (cells a) res (Some new)))).
  { intros new Hwn Hcn. split; [apply join_covers; assumption|].
    apply join_grows; [exact Hns|]. intros r Er. injection Er as <-. exact Hwn. }
  rewrite member_value in E.
  destruct (lookupAssumptions (assumptions a) res) as [|a0 l] eqn:Em.
  - injection E as <-. cbn [cells withCells assumptions].
    destruct (Hjoin x Hwx Hcx) as (H1 & H2 & H3). auto.
  - injection E as <-. cbn [cells withCells assumptions].
    unfold withinAssumptions in Hwithin. rewrite Em in Hwithin.
    destruct Hwithin as (Hw & Hw64 & Hv & Hall); [discriminate|].
    match goal with |- context [ConstantIntRanges.intersection x ?ar] =>
      assert (Hwa : widthOf ar = getStorageBitwidth (getType res))
        by (apply widthOf_intersectAll;
            [lia | exact (Forall_widthOf_derived (a0 :: l) res) | apply widthOf_maxRange]);
      assert (Hca : contains ar v)
        by (apply (derivedRanges_contain_satisfying (a0 :: l) res v); assumption);
      destruct (Hjoin (ConstantIntRanges.intersection x ar)) as (H1 & H2 & H3)
    end.
    + apply widthOf_intersection_nonzero; [exact Hwx | rewrite Hwa; lia].
    + apply contains_intersection; [exact Hwx | rewrite Hwa; lia |].
      split; assumption.
    + auto.
Qed.

Lemma setResultRanges_covers (op : VisitedOperation) (x : ConstantIntRanges.t)
    (v : APInt.t) (results : list Value) :
  widthOf x <> 0%N -> contains x v ->
  forall a a',
    setResultRanges isaOpResult op a (map (fun res => (res, Some x)) results) = Some a' ->
    noSentinel (cells a) ->
    (forall res, In res results ->
                 isaOpResult res = true /\ withinAssumptions (assumptions a) res v) ->
    noSentinel (cells a') /\ neverNarrowed (cells a) (cells a')
    /\ (forall res, In res results ->
                    exists r', lookupCell (cells a') res = Some r' /\ contains r' v).
Proof.
  intros Hwx Hcx. induction results as [|res0 results IH]; intros a a'; cbn [map setResultRanges].
  - intros E Hns _. injection E as <-.
    split; [exact Hns|]. split; [apply neverNarrowed_refl|]. intros res [].
  - destruct (joinCallback isaOpResult op a res0 (Some x)) as [a1|] eqn:E1; [|discriminate].
    intros E Hns Hres.
    destruct (Hres res0 (or_introl eq_refl)) as [Hop0 Hw0].
    destruct (joinCallback_covers _ _ _ _ _ _ E1 Hop0 Hns Hwx Hcx Hw0)
      as ((r1 & Er1 & Hc1) & Hns1 & Hnn1 & Hasm1).
    destruct (IH a1 a' E Hns1) as (Hns' & Hnn' & Hcov).
    { intros res Hin. rewrite Hasm1. apply Hres. right. exact Hin. }
    split; [exact Hns'|]. split; [exact (neverNarrowed_trans _ _ _ Hnn1 Hnn')|].
    intros res [<-|Hin]; [|apply Hcov, Hin].
    apply lookupCell_Some in Er1. destruct (Hnn' _ _ _ Er1 Hc1) as (r' & Er' & Hc').
    exists r'. split; [apply lookupCell_Some, Er' | exact Hc'].
Qed.

Lemma getValues_widths (cs : gmap N IntegerValueRange) (operands : list Value) :
  noSentinel cs ->
  forall argConstIntRanges,
    getValues (map (lookupCell cs) operands) = Some argConstIntRanges ->
    Forall (fun r => widthOf r <> 0%N) argConstIntRanges.
Proof.
  intros Hns. induction operands as [|operand operands IH]; intros args; cbn [map getValues].
  - intros E; injection E as <-. constructor.
  - destruct (lookupCell cs operand) as [r|] eqn:Ec; [|discriminate].
    destruct (getValues (map (lookupCell cs) operands)) as [rest|]; [|discriminate].
    cbn [option_map]. intros E; injection E as <-.
    constructor; [exact (lookupCell_width _ _ _ Hns Ec) | apply IH; reflexivity].
Qed.

Lemma zip_constant (results : list Value) (x : ConstantIntRanges.t) :
  zip results (map Some (map (fun _ : Value => x) results))
  = map (fun res => (res, Some x)) results.
Proof.
  induction results as [|res results IH]; [reflexivity|].
  cbn [map]. cbn. f_equal. exact IH.
Qed.

(** The calls of a forwarding rule: every result is handed one and the
    same range, which is the range of the first operand or its union with
    the range of the second. *)
Lemma forwardingCalls_calls (op : VisitedOperation) (r : ConstantIntRanges.t)
    (rs : list ConstantIntRanges.t) (calls : list (Value * IntegerValueRange)) :
  forwardingCalls op (r :: rs) = Some calls ->
  exists x,
    calls = map (fun res => (res, Some x)) (getResults op)
    /\ (x = r \/ exists r1, rs = [r1] /\ x = ConstantIntRanges.rangeUnion r r1).
Proof.
  unfold forwardingCalls.
  assert (Hunary :
            option_map (fun ranges => zip (getResults op) (map Some ranges))
              (inferResultRangesUnaryOpForwardArgRange (getResults op) (r :: rs))
            = Some calls ->
            exists x,
              calls = map (fun res => (res, Some x)) (getResults op)
              /\ (x = r \/ exists r1, rs = [r1] /\ x = ConstantIntRanges.rangeUnion r r1)).
  { unfold inferResultRangesUnaryOpForwardArgRange.
    destruct (getResults op) as [|res0 results] eqn:Er; cbn [option_map].
    - intros E; injection E as <-. exists r. split; [reflexivity | left; reflexivity].
    - intros E; injection E as <-. exists r. split; [|left; reflexivity].
      apply (zip_constant (res0 :: results) r). }
  assert (Hbinary :
            option_map (fun ranges => zip (getResults op) (map Some ranges))
              (inferResultRangesBinaryOpUnionArgRanges (length (getVisitedOperands op))
                 (getResults op) (r :: rs))
            = Some calls ->
            exists x,
              calls = map (fun res => (res, Some x)) (getResults op)
              /\ (x = r \/ exists r1, rs = [r1] /\ x = ConstantIntRanges.rangeUnion r r1)).
  { unfold inferResultRangesBinaryOpUnionArgRanges.
    destruct (length (getVisitedOperands op)) as [|[|[|n]]]; try discriminate.
    destruct rs as [|r1 [|r2 rs]]; try discriminate.
    cbn [option_map]. intros E; injection E as <-.
    exists (ConstantIntRanges.rangeUnion r r1). split; [apply zip_constant|].
    right. exists r1. split; reflexivity. }
  destruct (getKind op); try discriminate; try exact Hunary; try exact Hbinary.
  destruct (getResults op) as [|result [|result' results]]; try discriminate.
  unfold inferResultRanges_GatherOp. destruct rs as [|r1 [|r2 rs]]; try discriminate.
  cbn [option_map]. intros E; injection E as <-.
  exists r. split; [reflexivity | left; reflexivity].
Qed.

(** X20: the rules that forward the ranges of the operands are sound for
    the first operand.  For a transposition, split, broadcast, reshape,
    layout conversion, splat, dimension expansion, join, concatenation or
    gather whose operands all have a known range, after the visit the
    range of every result holds every pattern that lies within the range
    of the first operand and is not excluded by the assumptions registered
    against the result. *)
Theorem visitOperation_forwards (a a' : t) (op : VisitedOperation)
    (r : ConstantIntRanges.t) (rs : list ConstantIntRanges.t) (v : APInt.t) :
  isForwarding (getKind op) = true ->
  getValues (map (lookupCell (cells a)) (getVisitedOperands op)) = Some (r :: rs) ->
  contains r v -> noSentinel (cells a) ->
  (forall result, In result (getResults op) ->
      isaOpResult result = true
      /\ withinAssumptions (assumptions a) result v
      /\ (lookupAssumptions (assumptions a) result <> [] ->
          lookupCell (cells a) result <> None)) ->
  visitOperation isaOpResult isSigned inferResultRangesFromOptional a op = Some a' ->
  forall result, In result (getResults op) ->
    exists r', lookupCell (cells a') result = Some r' /\ contains r' v.
Proof.
  intros Hkind Hargs Hc Hns Hres. unfold visitOperation.
  rewrite initializeWithAssumptions_none
    by (intros anchor Hin; apply (Hres anchor Hin)).
  pose proof (getValues_widths _ _ Hns _ Hargs) as Hwidths.
  assert (Hcalls : match forwardingCalls op (r :: rs) with
                   | Some calls => setResultRanges isaOpResult op a calls
                   | None => None
                   end = Some a' ->
                   forall result, In result (getResults op) ->
                     exists r', lookupCell (cells a') result = Some r' /\ contains r' v).
  { destruct (forwardingCalls op (r :: rs)) as [calls|] eqn:Ecalls; [|discriminate].
    destruct (forwardingCalls_calls _ _ _ _ Ecalls) as (x & -> & Hx).
    intros E.
    assert (Hxv : widthOf x <> 0%N /\ contains x v).
    { inversion Hwidths as [|? ? Hwr Hwrs]; subst.
      destruct Hx as [->|(r1 & -> & ->)]; [split; assumption|].
      inversion Hwrs as [|? ? Hwr1 _]; subst.
      split; [apply widthOf_rangeUnion; assumption|].
      apply contains_rangeUnion; [assumption | assumption | left; exact Hc]. }
    destruct Hxv as [Hwx Hcx].
    destruct (setResultRanges_covers op x v (getResults op) Hwx Hcx a a' E Hns)
      as (_ & _ & Hcov); [|exact Hcov].
    intros res Hin. destruct (Hres res Hin) as (H1 & H2 & _). split; assumption. }
  rewrite Hargs. destruct (getKind op); try discriminate Hkind; exact Hcalls.
Qed.

End VisitOperationProperties.


(** The visit of the transposition of [%init] changes no cell other than
    that of its result [%arg]. *)
Lemma visitOperation_frame_witness :
  exists a',
    visitOperation allOpResults signless noInterface smallLoopAnalysis transOp = Some a'
    /\ TritonIntegerRangeAnalysis.assumptions a'
       = TritonIntegerRangeAnalysis.assumptions smallLoopAnalysis
    /\ TritonIntegerRangeAnalysis.loopTripCounts a'
       = TritonIntegerRangeAnalysis.loopTripCounts smallLoopAnalysis
    /\ TritonIntegerRangeAnalysis.loopVisits a'
       = TritonIntegerRangeAnalysis.loopVisits smallLoopAnalysis
    /\ (forall k,
          (forall result, In result (getResults transOp) -> valueId result <> k) ->
          TritonIntegerRangeAnalysis.cells a' !! k
          = TritonIntegerRangeAnalysis.cells smallLoopAnalysis !! k).
Proof.
  eexists. split; [reflexivity|].
  apply (visitOperation_frame allOpResults signless noInterface smallLoopAnalysis _ transOp).
  reflexivity.
Defined.

(** A [get_program_id] of type [i32] with nothing known of its result:
    from 0 to 65535. *)
Lemma visitOperation_program_id_witness :
  exists a' r,
    visitOperation allOpResults signless noInterface emptyAnalysis programIdOp = Some a'
    /\ lookupCell (TritonIntegerRangeAnalysis.cells a') x32 = Some r
    /\ APInt.getZExtValue (ConstantIntRanges.umin r) = 0
    /\ APInt.getZExtValue (ConstantIntRanges.umax r) = 65535
    /\ APInt.getSExtValue (ConstantIntRanges.smin r) = 0
    /\ APInt.getSExtValue (ConstantIntRanges.smax r) = 65535.
Proof.
  apply (visitOperation_program_id allOpResults signless noInterface emptyAnalysis
           programIdOp x32 32);
    try reflexivity; try (left; reflexivity); vm_compute; discriminate.
Defined.

(** The transposition of [%init], known to be 5: afterwards the range of
    its result [%arg] holds 5. *)
Lemma visitOperation_forwards_witness :
  exists a',
    visitOperation allOpResults signless noInterface smallLoopAnalysis transOp = Some a'
    /\ forall result, In result (getResults transOp) ->
         exists r', lookupCell (TritonIntegerRangeAnalysis.cells a') result = Some r'
                    /\ contains r' (APInt.mk 32 5).
Proof.
  eexists. split; [reflexivity|].
  apply (visitOperation_forwards allOpResults signless noInterface smallLoopAnalysis _
           transOp (ConstantIntRanges.constant (APInt.make 32 5 true)) [] (APInt.mk 32 5)).
  - reflexivity.
  - reflexivity.
  - vm_compute. repeat split; discriminate.
  - exact smallLoopCells_noSentinel.
  - intros result [<-|[]]. split; [reflexivity|].
    split; intros H; exfalso; apply H; reflexivity.
  - reflexivity.
Defined.

(** ** Loops whose trip count is not positive *)

Section SkippedLoops.

Import TritonIntegerRangeAnalysis.

Variable visitNonControlFlowArguments :
  Operation -> bool -> nat -> nat -> list Value ->
  gmap N IntegerValueRange -> gmap N IntegerValueRange.

Lemma visitPairs_skipped (l : N) (pairs : list (Value * Value)) (a : t) :
  (forall c, tripCountOf a l <= visitsOf a l c) ->
  visitPairs (Some l) a pairs = a.
Proof.
  intros Hskip. induction pairs as [|[oper argLat] pairs IH]; [reflexivity|].
  unfold visitPairs in *. cbn [fold_left].
  assert (E : visitPair (Some l) a oper argLat = a).
  { unfold visitPair. specialize (Hskip argLat).
    destruct (Z.geb_spec (visitsOf a l argLat) (tripCountOf a l)); [reflexivity | lia]. }
  rewrite E. exact IH.
Qed.

Lemma visitPredecessors_skipped (isBlockStart : bool) (branchOp : Operation) (l : N)
    (lattices : list Value) (predecessors : list Predecessor) (a : t) :
  Forall (forwardsAllCells lattices) predecessors ->
  (forall c, tripCountOf a l <= visitsOf a l c) ->
  visitPredecessors visitNonControlFlowArguments isBlockStart branchOp (Some l)
    lattices predecessors a = a.
Proof.
  intros Hall Hskip. induction Hall as [|op rest [[operands Eo] Hlen] _ IH]; [reflexivity|].
  cbn [visitPredecessors]. rewrite Eo, bool_decide_true by exact Hlen.
  rewrite visitPairs_skipped by exact Hskip. exact IH.
Qed.

Lemma updateLoopTripCount_skips (a : t) (branchOp : Operation)
    (loop : LoopLikeOpInterface) (lattices : list Value) :
  getTotalLoopTripCount (cells a) loop branchOp <= 0 ->
  (forall c, 0 <= visitsOf a (opId branchOp) c) ->
  forall c,
    tripCountOf (updateLoopTripCount a branchOp loop lattices) (opId branchOp)
    <= visitsOf (updateLoopTripCount a branchOp loop lattices) (opId branchOp) c.
Proof.
  intros Htotal Hpos c. rewrite updateLoopTripCount_bound.
  assert (H : 0 <= visitsOf (updateLoopTripCount a branchOp loop lattices) (opId branchOp) c).
  { unfold updateLoopTripCount.
    assert (H0 : 0 <= visitsOf (if bool_decide (is_Some (loopTripCounts a !! opId branchOp))
                                then a else initializeLoop a (opId branchOp) lattices)
                               (opId branchOp) c).
    { destruct (bool_decide _); [apply Hpos|].
      destruct (initializeLoop_visits a (opId branchOp) lattices c) as [E|E]; rewrite E;
        [lia | apply Hpos]. }
    destruct (bool_decide _);
      match goal with |- context [if ?b then _ else _] => destruct b end;
      exact H0. }
  lia.
Qed.

(** X21: a loop whose total trip count is estimated at zero or below (a
    loop that counts down by a negative step, or none of whose bounds
    resolves) is never propagated into: when no counter of the loop is
    negative and every predecessor forwards operands for all the cells,
    the visit leaves every cell as it was. *)
Theorem visitRegionSuccessors_nonpositive_trip_count (a : t) (isBlockStart : bool)
    (branchOp : Operation) (loop : LoopLikeOpInterface)
    (lattices : list Value) (predecessors : list Predecessor) :
  dynCastLoopLike branchOp = Some loop ->
  getTotalLoopTripCount (cells a) loop branchOp <= 0 ->
  (forall c, 0 <= visitsOf a (opId branchOp) c) ->
  Forall (forwardsAllCells lattices) predecessors ->
  cells (visitRegionSuccessors visitNonControlFlowArguments a isBlockStart branchOp
           lattices predecessors)
  = cells a.
Proof.
  intros Hloop Htotal Hpos Hall. unfold visitRegionSuccessors. rewrite Hloop.
  rewrite visitPredecessors_skipped;
    [apply updateLoopTripCount_cells | exact Hall
    | apply updateLoopTripCount_skips; assumption].
Qed.

End SkippedLoops.

(** The loop from 1024 down to 0 by -1 has the trip count -1024: the range
    of [%init] is not carried into [%arg]. *)
Lemma visitRegionSuccessors_nonpositive_trip_count_witness :
  getTotalLoopTripCount (TritonIntegerRangeAnalysis.cells smallLoopAnalysis)
    (literalLoop 1024 0 (-1)) downLoopOp = -1024
  /\ TritonIntegerRangeAnalysis.cells
       (visitRegionSuccessors noNonControlFlowArguments smallLoopAnalysis true downLoopOp
          [iterArg] [mkPredecessor (Some [initValue]) [iterArg]])
     = TritonIntegerRangeAnalysis.cells smallLoopAnalysis.
Proof.
  split; [vm_compute; reflexivity|].
  apply (visitRegionSuccessors_nonpositive_trip_count noNonControlFlowArguments
           smallLoopAnalysis true downLoopOp (literalLoop 1024 0 (-1))).
  - reflexivity.
  - vm_compute. discriminate.
  - intros c. unfold TritonIntegerRangeAnalysis.visitsOf, smallLoopAnalysis.
    cbn [TritonIntegerRangeAnalysis.loopVisits]. rewrite lookup_empty. simpl. lia.
  - constructor; [|constructor]. split; [eexists; reflexivity | reflexivity].
Defined.

(** ** Soundness of the fold *)

Section FoldSoundness.

Variable IR : Type.
Variable maybeReplaceWithConstant :
  gmap N IntegerValueRange -> IR -> Value -> option IR.

(** X22: the rule only succeeds on a comparison that holds of every pair
    of values within the ranges the solver holds for its two operands. *)
Theorem matchAndRewrite_sound (solver : gmap N IntegerValueRange) (ir : IR)
    (cmpOp : arith_CmpIOp) (w : N) (r0 r1 : ConstantIntRanges.t) (a b : APInt.t) :
  fst (matchAndRewrite IR maybeReplaceWithConstant solver ir cmpOp) = success ->
  solver !! valueId (getLhs cmpOp) = Some (Some r0) ->
  solver !! valueId (getRhs cmpOp) = Some (Some r1) ->
  rangeHasWidth w r0 -> rangeHasWidth w r1 -> hasWidth w a -> hasWidth w b ->
  contains r0 a -> contains r1 b ->
  holds (getPredicate cmpOp) a b.
Proof.
  intros Hs E0 E1 Hw0 Hw1 Ha Hb Hc0 Hc1.
  assert (Ht : cmpIIsStaticallyTrue solver cmpOp = true).
  { unfold matchAndRewrite in Hs.
    destruct (isIntegerOrIndex (getType (getResult cmpOp))); cbn [andb] in Hs;
      [|discriminate Hs].
    destruct (cmpIIsStaticallyTrue solver cmpOp); [reflexivity | discriminate Hs]. }
  apply cmpIIsStaticallyTrue_iff in Ht.
  destruct Ht as (r0' & r1' & [E0' _] & [E1' _] & Hp).
  assert (r0' = r0) by congruence. assert (r1' = r1) by congruence. subst r0' r1'.
  exact (evaluatePred_true_sound w _ r0 r1 a b Hw0 Hw1 Ha Hb Hp Hc0 Hc1).
Qed.

End FoldSoundness.

(** [%i < 1024] with [%i] within [[0, 1023]] is folded, and 5 < 1024. *)
Lemma matchAndRewrite_sound_witness :
  fst (matchAndRewrite unit acceptReplacement (solvedTo 0 1023) tt i_lt_1024) = success
  /\ holds (getPredicate i_lt_1024) (APInt.mk 32 5) (APInt.mk 32 1024).
Proof.
  split; [vm_compute; reflexivity|].
  apply (matchAndRewrite_sound unit acceptReplacement (solvedTo 0 1023) tt i_lt_1024 32
           (ConstantIntRanges.range (APInt.make 32 0 true) (APInt.make 32 1023 true) true)
           (ConstantIntRanges.constant (APInt.make 32 1024 true))).
  - vm_compute. reflexivity.
  - reflexivity.
  - reflexivity.
  - repeat split; vm_compute; (reflexivity || discriminate).
  - repeat split; vm_compute; (reflexivity || discriminate).
  - repeat split; vm_compute; (reflexivity || discriminate).
  - repeat split; vm_compute; (reflexivity || discriminate).
  - repeat split; vm_compute; discriminate.
  - repeat split; vm_compute; discriminate.
Defined.
